(** * Planet: the A* shortest-path solver over convex polygons

    A shallow embedding of the solver of the Planet repository and the
    properties of its specification, stated over that embedding.

    Where the embedded code lives under src/Planet:
    - the vector type [Vector2] and [DirectionOfAngle]: Color.cpp, lines
      239-349;
    - [Line], [LineSequence], [Polygon]: Color.cpp, lines 11-48; the
      geometric predicates: Shapes.cpp;
    - [EPSILON]: Constants.h; [THROW_IF_DEBUG]: Macros.h;
    - [Node], [WorkerThread], [Solver]: AStar.h; [Solve], [Discover],
      [AqcuireNextNodeInFringe], [Run], [FindPath], [AddThread],
      [RemoveThread], [ThreadCount]: Color.cpp, lines 49-238;
    - the other operators of [Vector2] and [Unit]: Color.cpp, lines
      255-298; [InPolygon(world, point)]: Shapes.cpp, lines 108-116;
    - [Color]: Color.h, lines 6-25, with its constants, Color.cpp, lines
      3-11; [ScreenToWorld], [WorldToScreen]: SpaceConversions.h, with the
      constants of Constants.h;
    - the thread function and the destructor of [WorkerThread] and the two
      loops of [Solve] over the pool: Color.cpp, lines 53-116;
    - [Application]: Application.h, and Color.h, lines 45-121 and 153-233.

    Conventions of the embedding.
    - [float] of the source is IEEE-754 binary32.  It is modelled by the
      Standard Library's [spec_float] with precision 24 and maximal exponent
      128: every arithmetic operation rounds to nearest, ties to even, and
      infinities, signed zeros and NaN behave as on the machine.  An
      expression is evaluated operation by operation in binary32 (no fused
      multiply-add, no excess precision).
    - The release build is modelled: [THROW_IF_DEBUG] expands to nothing and
      the functions are [noexcept] (Macros.h, the [#else] branch).
    - Algorithms called with [std::execution::unseq] are modelled by their
      sequential left-to-right evaluation.
    - A [std::vector] is a [list]; the [std::unordered_set] of discovered
      nodes is a list searched with the set's own equality predicate; the
      [std::priority_queue] is a list from which [top]/[pop] take an element
      that no other element beats under the queue's comparator.
    - [Run] is modelled twice: as the function a single thread computes
      (module [AStar], for the empty pool), and as the interleaving of the
      critical sections of several threads (module [Interleaving]).
    - The semaphores and the liveness flag of the pool workers are stepped
      operation by operation in module [Workers]; a [release()] on a
      semaphore that holds 1 is recorded, an [acquire()] on one that holds
      0 and a [join()] on a running thread make no step.
    - [int] is 32 bits wide; [(float)] of an [int] rounds to nearest,
      [(int)] of a [float] truncates and is undefined out of range.
    - The application is modelled by its data members and the static
      solver; what it draws and the title of its window are left out, and
      the position of the mouse is an argument of the handlers.  A handler
      that indexes a vector out of its range has the outcome [Undefined]. *)

From Stdlib Require Import ZArith List Bool Lia PeanoNat.
From Stdlib Require Import Floats.SpecFloat.
From Stdlib Require Import Permutation.
Import ListNotations.

Set Implicit Arguments.

(* ===================================================================== *)
(** ** binary32 arithmetic *)
(* ===================================================================== *)

Module F32.

Definition float := spec_float.

Definition prec : Z := 24.
Definition emax : Z := 128.

Definition add : float -> float -> float := SFadd prec emax.
Definition sub : float -> float -> float := SFsub prec emax.
Definition mul : float -> float -> float := SFmul prec emax.
Definition div : float -> float -> float := SFdiv prec emax.
Definition sqrtf : float -> float := SFsqrt prec emax.
Definition neg : float -> float := SFopp.

(** The comparison operators of C++ on [float]; each is false as soon as
    an operand is NaN, except [!=]. *)
Definition eqb : float -> float -> bool := SFeqb.
Definition ltb : float -> float -> bool := SFltb.
Definition leb : float -> float -> bool := SFleb.
Definition gtb (a b : float) : bool := SFltb b a.
Definition geb (a b : float) : bool := SFleb b a.

Definition is_nan (a : float) : bool :=
  match a with S754_nan => true | _ => false end.

(** The binary32 value nearest to [m * 2^e]. *)
Definition of_dyadic (m e : Z) : float := binary_normalize prec emax m e false.
Definition of_Z (m : Z) : float := of_dyadic m 0.

Definition zero : float := S754_zero false.

(** [SFcompare] orders the values that are not NaN as their keys are
    ordered lexicographically. *)
Definition key (u : float) : Z * Z * Z :=
  match u with
  | S754_infinity true => (-2, 0, 0)%Z
  | S754_finite true m e => (-1, - e, Zneg m)%Z
  | S754_zero _ => (0, 0, 0)%Z
  | S754_nan => (0, 0, 0)%Z
  | S754_finite false m e => (1, e, Zpos m)%Z
  | S754_infinity false => (2, 0, 0)%Z
  end.

Definition lex (k1 k2 : Z * Z * Z) : comparison :=
  let '(a1, b1, c1) := k1 in
  let '(a2, b2, c2) := k2 in
  match (a1 ?= a2)%Z with
  | Eq => match (b1 ?= b2)%Z with Eq => (c1 ?= c2)%Z | r => r end
  | r => r
  end.


(** Zero or a finite non-zero value. *)
Definition is_finite (u : float) : bool :=
  match u with S754_zero _ | S754_finite _ _ _ => true | _ => false end.

(** A zero, a positive finite value or plus infinity. *)
Definition nonneg (u : float) : bool :=
  match u with
  | S754_zero _ | S754_finite false _ _ | S754_infinity false => true
  | _ => false
  end.

(** A value that is not NaN and carries the sign [sx]. *)
Definition has_sign (sx : bool) (u : float) : Prop :=
  match u with
  | S754_zero s | S754_infinity s | S754_finite s _ _ => s = sx
  | S754_nan => False
  end.

End F32.

Declare Scope f32_scope.
Delimit Scope f32_scope with f32.
Infix "+" := F32.add : f32_scope.
Infix "-" := F32.sub : f32_scope.
Infix "*" := F32.mul : f32_scope.
Infix "/" := F32.div : f32_scope.
Notation "- a" := (F32.neg a) : f32_scope.
Infix "==" := F32.eqb (at level 70, no associativity) : f32_scope.
Infix "<" := F32.ltb : f32_scope.
Infix ">" := F32.gtb : f32_scope.
Infix ">=" := F32.geb : f32_scope.

(* ===================================================================== *)
(** ** Constants *)
(* ===================================================================== *)

Module Constants.

(** [constexpr float EPSILON = 0.001f]: the binary32 value nearest to one
    thousandth, [0x3A83126F]. *)
Definition EPSILON : F32.float := S754_finite false 8589935 (-33).

End Constants.

(* ===================================================================== *)
(** ** Vectors, shapes and the geometric predicates *)
(* ===================================================================== *)

Module Geometry.

Import F32.
Local Open Scope f32_scope.

Record Vector2 : Type := mkVector2 { x : float; y : float }.

Definition Vector2_sub (a b : Vector2) : Vector2 :=
  mkVector2 (x a - x b) (y a - y b).

(** [operator==]: component-wise [==] of floats. *)
Definition Vector2_eqb (lhs rhs : Vector2) : bool :=
  (x lhs == x rhs) && (y lhs == y rhs).

(** Both coordinates are finite numbers. *)
Definition finite_point (p : Vector2) : bool := is_finite (x p) && is_finite (y p).


Definition MagnitudeSqr (v : Vector2) : float := x v * x v + y v * y v.

Definition Magnitude (v : Vector2) : float := sqrtf (MagnitudeSqr v).

(** The counterclockwise normal [{ -y, x }]. *)
Definition Normal (v : Vector2) : Vector2 := mkVector2 (- y v) (x v).

Definition Dot (lhs rhs : Vector2) : float :=
  x lhs * x rhs + y lhs * y rhs.

Definition CrossZ (lhs rhs : Vector2) : float :=
  x lhs * y rhs - y lhs * x rhs.

Inductive RotationalDirection : Type :=
| CLOCKWISE | STRAIGHT | COUNTERCLOCKWISE | UNDEFINED.

(** [CrossZ(B - A, C - B) <=> 0.0f], a partial ordering. *)
Definition DirectionOfAngle (A B C : Vector2) : RotationalDirection :=
  match SFcompare (CrossZ (Vector2_sub B A) (Vector2_sub C B)) zero with
  | Some Gt => CLOCKWISE
  | Some Eq => STRAIGHT
  | Some Lt => COUNTERCLOCKWISE
  | None => UNDEFINED
  end.

Definition RotationalDirection_eqb (a b : RotationalDirection) : bool :=
  match a, b with
  | CLOCKWISE, CLOCKWISE | STRAIGHT, STRAIGHT
  | COUNTERCLOCKWISE, COUNTERCLOCKWISE | UNDEFINED, UNDEFINED => true
  | _, _ => false
  end.

Record Line : Type := mkLine { a : Vector2; b : Vector2 }.

Record LineSequence : Type := mkLineSequence { ls_vertices : list Vector2 }.

Record Polygon : Type := mkPolygon { vertices : list Vector2 }.

(** [std::ranges::minmax] over a range that starts with [first]: the
    leftmost smallest and the rightmost largest element under [comp]. *)
Fixpoint minmax_from {A : Type} (comp : A -> A -> bool) (mn mx : A)
         (rest : list A) : A * A :=
  match rest with
  | [] => (mn, mx)
  | v :: rest' =>
      if comp v mn then minmax_from comp v mx rest'
      else if comp v mx then minmax_from comp mn mx rest'
      else minmax_from comp mn v rest'
  end.

(** On an empty range the source has undefined behaviour; the model
    answers [None]. *)
Definition minmax {A : Type} (comp : A -> A -> bool) (range : list A)
  : option (A * A) :=
  match range with
  | [] => None
  | first :: rest => Some (minmax_from comp first first rest)
  end.

(** The polygon's minimum and maximum upon projection onto [normal]
    ([std::ranges::minmax] of the transformed vertices, compared with [<]).
    Only called after the size check, so the default is never used. *)
Definition projection_minmax (polygon : Polygon) (normal : Vector2)
  : float * float :=
  match minmax ltb (map (fun vertex => Dot vertex normal) (vertices polygon)) with
  | Some mm => mm
  | None => (zero, zero)
  end.

(** [std::minmax(a, b)]: [(b, a)] if [b < a], else [(a, b)]. *)
Definition minmax2 (u v : float) : float * float :=
  if v < u then (v, u) else (u, v).

(** The successor of each vertex along the ring:
    [std::next(vertexIt)], or [front()] at the end. *)
Definition next_vertices (vs : list Vector2) : list Vector2 :=
  match vs with
  | [] => []
  | front :: others => others ++ [front]
  end.

(** The normals of the polygon's edges, in the order the loops over
    [vertexIt] visit them. *)
Definition edge_normals (polygon : Polygon) : list Vector2 :=
  map (fun '(vertex, next) => Normal (Vector2_sub next vertex))
      (combine (vertices polygon) (next_vertices (vertices polygon))).

(** [InPolygon(polygon, point)]. *)
Definition InPolygon (polygon : Polygon) (point : Vector2) : bool :=
  if (length (vertices polygon) <? 3)%nat then false
  else
    forallb (fun normal =>
               let '(min, max) := projection_minmax polygon normal in
               let pointMapping := Dot point normal in
               negb ((min > pointMapping) || (pointMapping > max)))
            (edge_normals polygon).

(** First block of [Intersect(polygon, line)]: on the axis normal to the
    line, is the line's mapping outside the polygon's range shrunk by
    EPSILON on both sides? *)
Definition separated_on_line_normal (polygon : Polygon) (line : Line) : bool :=
  let normal := Normal (Vector2_sub (a line) (b line)) in
  let '(min, max) := projection_minmax polygon normal in
  let lineMapping := Dot (b line) normal in
  (min > lineMapping - Constants.EPSILON)
  || (lineMapping + Constants.EPSILON > max).

(** Body of the loop of [Intersect(polygon, line)]: on the axis normal to
    one edge, do the two ranges overlap by less than EPSILON? *)
Definition separated_on_edge_normal (polygon : Polygon) (line : Line)
           (normal : Vector2) : bool :=
  let '(polygonMin, polygonMax) := projection_minmax polygon normal in
  let '(lineMin, lineMax) := minmax2 (Dot (a line) normal) (Dot (b line) normal) in
  (polygonMin > lineMax - Constants.EPSILON)
  || (lineMin + Constants.EPSILON > polygonMax).

(** [Intersect(const Polygon&, const Line&)]. *)
Definition Intersect_polygon (polygon : Polygon) (line : Line) : bool :=
  if (length (vertices polygon) <? 3)%nat then false
  else if separated_on_line_normal polygon line then false
  else forallb (fun normal => negb (separated_on_edge_normal polygon line normal))
               (edge_normals polygon).

(** [Intersect(const std::vector<Polygon>&, const Line&)]: the filtered
    view is not empty. *)
Definition Intersect (world : list Polygon) (line : Line) : bool :=
  negb (match filter (fun polygon => Intersect_polygon polygon line) world with
        | [] => true
        | _ :: _ => false
        end).

(** [GetAnglularExtrema(polygon, viewPoint)].  In the release build the
    [InPolygon] test has no effect.  [None] stands for the undefined
    behaviour of [minmax] on a polygon without vertices. *)
Definition GetAnglularExtrema (polygon : Polygon) (viewPoint : Vector2)
  : option (Vector2 * Vector2) :=
  minmax (fun u v =>
            RotationalDirection_eqb (DirectionOfAngle u viewPoint v) COUNTERCLOCKWISE)
         (vertices polygon).

End Geometry.

(* ===================================================================== *)
(** ** The solver *)
(* ===================================================================== *)

Module AStar.

Import F32 Geometry.
Local Open Scope f32_scope.

(** *** Solver::Node *)

Record Node : Type := Build_Node { path : LineSequence }.

(** The constructor [Node(position, parentPath)]: copy the parent path and
    push the position. *)
Definition mkNode (position : Vector2) (parentPath : LineSequence) : Node :=
  Build_Node (mkLineSequence (ls_vertices parentPath ++ [position])).

(** [path.vertices.back()].  Every constructed node holds at least one
    vertex, so the default is only there to make the function total. *)
Definition position (n : Node) : Vector2 :=
  last (ls_vertices (path n)) (mkVector2 zero zero).

(** [std::adjacent_difference]: the first element is copied, every later
    one is replaced by its difference with its predecessor. *)
Fixpoint adjacent_difference_from (prev : Vector2) (l : list Vector2)
  : list Vector2 :=
  match l with
  | [] => []
  | v :: l' => Vector2_sub v prev :: adjacent_difference_from v l'
  end.

Definition adjacent_difference (l : list Vector2) : list Vector2 :=
  match l with
  | [] => []
  | v0 :: l' => v0 :: adjacent_difference_from v0 l'
  end.

(** [std::transform_reduce(first, last, init, std::plus{}, Magnitude)]. *)
Definition transform_reduce (steps : list Vector2) (init : float) : float :=
  fold_left (fun acc vector => acc + Magnitude vector) steps init.

Definition pathLength (n : Node) : float :=
  let steps := adjacent_difference (ls_vertices (path n)) in
  transform_reduce steps zero.

(** *** WorkerThread and Solver *)

(** A binary semaphore holds 0 or 1; [alive] is the liveness flag.  The
    [std::thread] itself is the worker's control state, which lives in
    [Interleaving] below. *)
Record WorkerThread : Type := Build_WorkerThread {
  beginSignal : bool;
  completeSignal : bool;
  alive : bool
}.

Record Solver : Type := Build_Solver {
  threadPool : list WorkerThread;
  completePath : option Node;
  world : list Polygon;
  goal : Vector2;
  discoveredNodes : list Node;
  fringe : list Node
}.

(** The [static Solver solver] before any call. *)
Definition solver0 : Solver :=
  Build_Solver [] None [] (mkVector2 zero zero) [] [].

Definition set_completePath (c : option Node) (s : Solver) : Solver :=
  Build_Solver (threadPool s) c (world s) (goal s) (discoveredNodes s) (fringe s).

Definition set_discoveredNodes (d : list Node) (s : Solver) : Solver :=
  Build_Solver (threadPool s) (completePath s) (world s) (goal s) d (fringe s).

Definition set_fringe (f : list Node) (s : Solver) : Solver :=
  Build_Solver (threadPool s) (completePath s) (world s) (goal s) (discoveredNodes s) f.

Definition set_threadPool (p : list WorkerThread) (s : Solver) : Solver :=
  Build_Solver p (completePath s) (world s) (goal s) (discoveredNodes s) (fringe s).

(** *** The discovered set: [std::unordered_set<Node, hash, equal>] *)

(** The set's equality: [lhs.position() == rhs.position()].  The set's
    hash combines [std::hash<float>] of the two coordinates; it only
    selects the bucket in which the equality is tried, and puts positions
    that compare equal in the same bucket. *)
Definition Node_eqb (lhs rhs : Node) : bool :=
  Vector2_eqb (position lhs) (position rhs).

Definition find (d : list Node) (node : Node) : option Node :=
  List.find (fun entry => Node_eqb entry node) d.

Definition contains (d : list Node) (node : Node) : bool :=
  match find d node with Some _ => true | None => false end.

(** [erase(key)] removes the element equivalent to the key, if one exists. *)
Fixpoint erase (d : list Node) (node : Node) : list Node :=
  match d with
  | [] => []
  | entry :: d' => if Node_eqb entry node then d' else entry :: erase d' node
  end.

(** [insert(value)] does nothing when an equivalent element is present. *)
Definition insert (d : list Node) (node : Node) : list Node :=
  if contains d node then d else node :: d.

(** *** The fringe: [std::priority_queue<Node, std::vector<Node>, comp>] *)

(** The comparator built in [Solve]: [lhs] comes after [rhs] when its
    [f = g + h] is greater. *)
Definition fringe_comp (goal : Vector2) (lhs rhs : Node) : bool :=
  pathLength lhs + Magnitude (Vector2_sub goal (position lhs))
  > pathLength rhs + Magnitude (Vector2_sub goal (position rhs)).

(** [top()] followed by [pop()]: the chosen element is one that no other
    element of the queue beats; among several such, the model takes the
    one pushed last. *)
Fixpoint top_pop (comp : Node -> Node -> bool) (q : list Node)
  : option (Node * list Node) :=
  match q with
  | [] => None
  | n :: q' =>
      match top_pop comp q' with
      | None => Some (n, [])
      | Some (best, rest) =>
          if comp n best then Some (best, n :: rest) else Some (n, q')
      end
  end.

Definition fringe_push (node : Node) (s : Solver) : Solver :=
  set_fringe (node :: fringe s) s.

(** *** Solver::Discover *)

(** The first critical section, under [discoveredMutex]: [None] is the
    early [return]. *)
Definition Discover_set (node : Node) (s : Solver) : option Solver :=
  let d := discoveredNodes s in
  match find d node with
  | Some found =>
      if pathLength found < pathLength node then None
      else Some (set_discoveredNodes (insert (erase d node) node) s)
  | None => Some (set_discoveredNodes (insert d node) s)
  end.

(** Then, under [fringeMutex], the push. *)
Definition Discover (node : Node) (s : Solver) : Solver :=
  match Discover_set node s with
  | None => s
  | Some s' => fringe_push node s'
  end.

(** *** Solver::AqcuireNextNodeInFringe *)

Definition AqcuireNextNodeInFringe (s : Solver) : option Node * Solver :=
  match top_pop (fringe_comp (goal s)) (fringe s) with
  | None => (None, s)
  | Some (top, rest) => (Some top, set_fringe rest s)
  end.

(** *** Solver::Run *)

(** [std::find_if]: the index of the first vertex the predicate accepts. *)
Fixpoint find_if (pred : Vector2 -> bool) (vs : list Vector2) : option nat :=
  match vs with
  | [] => None
  | v :: vs' =>
      if pred v then Some O
      else match find_if pred vs' with
           | Some i => Some (S i)
           | None => None
           end
  end.

(** What one polygon contributes to the expansion of a node at [pos]:
    its two ring neighbours when [pos] is one of its vertices, else its
    angular extrema that the occlusion test leaves visible. *)
Definition polygon_successors (world : list Polygon) (pos : Vector2)
           (polygon : Polygon) : list Vector2 :=
  let vs := vertices polygon in
  match find_if (fun vertex => Vector2_eqb pos vertex) vs with
  | Some found =>
      [ (if (found =? 0)%nat then last vs pos else nth (found - 1) vs pos);
        (if (found =? length vs - 1)%nat then hd pos vs else nth (found + 1) vs pos) ]
  | None =>
      match GetAnglularExtrema polygon pos with
      | Some (leftMost, rightMost) =>
          (if negb (Intersect world (mkLine pos leftMost)) then [leftMost] else [])
          ++ (if negb (Intersect world (mkLine pos rightMost)) then [rightMost] else [])
      | None => []
      end
  end.

(** The positions [Run] hands to [Discover] for a node at [pos], in the
    order of the calls: the goal if visible, then polygon by polygon. *)
Definition successor_points (world : list Polygon) (goal pos : Vector2)
  : list Vector2 :=
  (if negb (Intersect world (mkLine pos goal)) then [goal] else [])
  ++ flat_map (polygon_successors world pos) world.

Definition successors (world : list Polygon) (goal : Vector2) (node : Node)
  : list Node :=
  map (fun p => mkNode p (path node)) (successor_points world goal (position node)).

(** "Done?": with a complete path present, is the node at least as long? *)
Definition done (node : Node) (s : Solver) : bool :=
  match completePath s with
  | Some complete => pathLength node >= pathLength complete
  | None => false
  end.

(** "Is this the goal?" *)
Definition complete_if_goal (node : Node) (s : Solver) : Solver :=
  if Vector2_eqb (position node) (goal s)
  then set_completePath (Some node) s
  else s.

(** "Is the goal visible?" and "Discover neighbours". *)
Definition expand (node : Node) (s : Solver) : Solver :=
  fold_left (fun s' candidate => Discover candidate s')
            (successors (world s) (goal s) node) s.

(** The body of the [while] loop for a node that passed the "Done?" test. *)
Definition Run_body (node : Node) (s : Solver) : Solver :=
  expand node (complete_if_goal node s).

(** [Run] executed by one thread alone.  [fuel] bounds the number of loop
    iterations; [None] means the bound was reached before the loop ended. *)
Fixpoint Run (fuel : nat) (s : Solver) : option Solver :=
  match fuel with
  | O => None
  | S fuel' =>
      match AqcuireNextNodeInFringe s with
      | (None, s1) => Some s1
      | (Some node, s1) =>
          if done node s1 then Some s1
          else Run fuel' (Run_body node s1)
      end
  end.

(** *** Solver::Solve and FindPath, for an empty thread pool

    With no pool worker the two [for_each] over the pool do nothing and
    the calling thread runs the whole search. *)
Definition Solve_begin (s : Solver) (world : list Polygon)
           (startingPosition goal : Vector2) : Solver :=
  Build_Solver (threadPool s) None world goal (discoveredNodes s)
               [mkNode startingPosition (mkLineSequence [])].

Definition Solve_end (s : Solver) : Solver :=
  set_fringe [] (set_discoveredNodes [] s).

Definition Solve (fuel : nat) (s : Solver) (world : list Polygon)
           (startingPosition goal : Vector2) : option Solver :=
  match Run fuel (Solve_begin s world startingPosition goal) with
  | None => None
  | Some s' => Some (Solve_end s')
  end.

Definition result (s : Solver) : LineSequence :=
  match completePath s with
  | Some complete => path complete
  | None => mkLineSequence []
  end.

Definition FindPath (fuel : nat) (s : Solver) (world : list Polygon)
           (startingPosition goal : Vector2) : option (Solver * LineSequence) :=
  match Solve fuel s world startingPosition goal with
  | None => None
  | Some s' => Some (s', result s')
  end.

(** *** AddThread, RemoveThread, ThreadCount *)

(** A fresh [WorkerThread]: both semaphores at 0, alive, its thread
    blocked on [beginSignal.acquire()]. *)
Definition new_WorkerThread : WorkerThread :=
  Build_WorkerThread false false true.

(** [threadPool.push_back(std::make_unique<WorkerThread>(solver))]. *)
Definition AddThread (s : Solver) : Solver :=
  set_threadPool (threadPool s ++ [new_WorkerThread]) s.

(** [pop_back] on a non-empty pool; the destructor of the removed worker
    clears [alive], releases [beginSignal] and joins the thread, after
    which nothing of the worker remains. *)
Definition RemoveThread (s : Solver) : Solver :=
  match threadPool s with
  | [] => s
  | _ :: _ => set_threadPool (removelast (threadPool s)) s
  end.

(** [size_t] is 64 bits wide. *)
Definition size_t_modulus : Z := 2 ^ 64.

(** [threadPool.size() + 1], in [size_t] arithmetic. *)
Definition ThreadCount (s : Solver) : Z :=
  ((Z.of_nat (length (threadPool s)) + 1) mod size_t_modulus)%Z.

End AStar.

(* ===================================================================== *)
(** ** One query run by several threads *)
(* ===================================================================== *)

(** [Solve] releases every pool worker and then calls [Run] itself, so
  [Run] is executed by [threadPool.size() + 1] threads over the one
  solver.  Every access of [Run] to the shared fields happens inside a
  critical section ([fringeMutex], [pathMutex], [discoveredMutex]), so an
  execution is an interleaving of those sections.  A thread's control
  state records which section it executes next. *)
Module Interleaving.

Import F32 Geometry AStar.

Inductive control : Type :=
| AtLoop                                  (* AqcuireNextNodeInFringe *)
| AtDone (node : Node)                    (* "Done?" *)
| AtGoal (node : Node)                    (* "Is this the goal?" *)
| AtDiscover (pending : list Node)        (* Discover, discovered set *)
| AtPush (node : Node) (pending : list Node)  (* Discover, fringe push *)
| Returned.                               (* Run has returned *)

(** The next critical section of a thread.  The nodes a popped node hands
    to [Discover] depend only on the node, the world and the goal, none
    of which changes during a query; they are listed when the thread
    leaves the goal test. *)
Definition step_thread (c : control) (s : Solver) : control * Solver :=
  match c with
  | AtLoop =>
      match AqcuireNextNodeInFringe s with
      | (None, s1) => (Returned, s1)
      | (Some node, s1) => (AtDone node, s1)
      end
  | AtDone node =>
      if done node s then (Returned, s) else (AtGoal node, s)
  | AtGoal node =>
      (AtDiscover (successors (world s) (goal s) node), complete_if_goal node s)
  | AtDiscover [] => (AtLoop, s)
  | AtDiscover (candidate :: pending) =>
      match Discover_set candidate s with
      | None => (AtDiscover pending, s)
      | Some s' => (AtPush candidate pending, s')
      end
  | AtPush candidate pending => (AtDiscover pending, fringe_push candidate s)
  | Returned => (Returned, s)
  end.

(** Thread 0 is the caller of [FindPath]; thread [i + 1] is the pool
    worker of index [i]. *)
Record state : Type := Build_state {
  shared : Solver;
  threads : list control
}.

Fixpoint set_nth (i : nat) (c : control) (l : list control) : list control :=
  match l, i with
  | [], _ => []
  | _ :: l', O => c :: l'
  | c' :: l', S i' => c' :: set_nth i' c l'
  end.

(** Thread [tid] executes its next critical section. *)
Definition step (tid : nat) (st : state) : state :=
  match nth_error (threads st) tid with
  | None => st
  | Some c =>
      let '(c', s') := step_thread c (shared st) in
      Build_state s' (set_nth tid c' (threads st))
  end.

(** A schedule names, section after section, the thread that runs. *)
Definition run_schedule (schedule : list nat) (st : state) : state :=
  fold_left (fun st' tid => step tid st') schedule st.

(** The state in which [Solve] has seeded the fringe and released the
    workers: every thread is about to enter the loop of [Run]. *)
Definition Solve_begin (s : Solver) (world : list Polygon)
           (startingPosition goal : Vector2) : state :=
  Build_state (AStar.Solve_begin s world startingPosition goal)
              (repeat AtLoop (length (threadPool s) + 1)).

(** [Solve] gets past its waits when every thread has returned. *)
Definition all_returned (st : state) : bool :=
  forallb (fun c => match c with Returned => true | _ => false end) (threads st).

(** What [FindPath] then returns. *)
Definition FindPath_result (st : state) : LineSequence :=
  result (Solve_end (shared st)).

End Interleaving.

(* ===================================================================== *)
(** ** Notions of the specification *)
(* ===================================================================== *)

Module Spec.

Import F32 Geometry AStar.
Local Open Scope f32_scope.

(** The Euclidean distances between consecutive points, in path order. *)
Fixpoint segment_lengths (l : list Vector2) : list float :=
  match l with
  | [] => []
  | u :: l' =>
      match l' with
      | [] => []
      | v :: _ => Magnitude (Vector2_sub v u) :: segment_lengths l'
      end
  end.

(** "Sum of Euclidean distances between consecutive points": the sum is
    accumulated from [0.0f] in path order. *)
Definition sum_of_distances (l : list Vector2) : float :=
  fold_left add (segment_lengths l) zero.

(** A point strictly inside a polygon: on every edge-normal axis its
    mapping lies strictly between the polygon's minimum and maximum. *)
Definition strictly_inside (polygon : Polygon) (point : Vector2) : bool :=
  (3 <=? length (vertices polygon))%nat
  && forallb (fun normal =>
                let '(min, max) := projection_minmax polygon normal in
                let pointMapping := Dot point normal in
                (min < pointMapping) && (pointMapping < max))
             (edge_normals polygon).

(** No two entries of the discovered set are equal under the set's
    equality: at most one entry per position. *)
Fixpoint unique_positions (d : list Node) : Prop :=
  match d with
  | [] => True
  | entry :: d' => find d' entry = None /\ unique_positions d'
  end.

(** The entry the discovered set stores for a position. *)
Definition stored (d : list Node) (p : Vector2) : option Node :=
  List.find (fun entry => Vector2_eqb (position entry) p) d.

(** A sequence of [Discover] calls. *)
Definition Discover_all (nodes : list Node) (s : Solver) : Solver :=
  fold_left (fun s' node => Discover node s') nodes s.


(** The state after [k] iterations of the loop of [Run], or the state in
    which the loop ended if it ended earlier. *)
Fixpoint Run_iterations (k : nat) (s : Solver) : Solver :=
  match k with
  | O => s
  | S k' =>
      match AqcuireNextNodeInFringe s with
      | (None, s1) => s1
      | (Some node, s1) =>
          if done node s1 then s1 else Run_iterations k' (Run_body node s1)
      end
  end.


(** The point halfway between two points. *)
Definition midpoint (p q : Vector2) : Vector2 :=
  mkVector2 ((x p + x q) / of_Z 2) ((y p + y q) / of_Z 2).

(** The priority of a node in the fringe: [f(n) = g(n) + h(n)], the
    length of its path plus the distance from its position to the goal. *)
Definition f_value (goal : Vector2) (n : Node) : float :=
  pathLength n + Magnitude (Vector2_sub goal (position n)).

(** [n] comes strictly before every node of [rest] in the queue's order:
    whatever the layout of the heap, [top()] is [n]. *)
Definition strictly_first (comp : Node -> Node -> bool) (n : Node) (rest : list Node) : bool :=
  forallb (fun m => comp m n) rest.

(** Every node popped during the first [fuel] iterations of [Run] was
    strictly first in the fringe. *)
Fixpoint pops_unambiguous (fuel : nat) (s : Solver) : bool :=
  match fuel with
  | O => true
  | S fuel' =>
      match top_pop (fringe_comp (goal s)) (fringe s) with
      | None => true
      | Some (node, rest) =>
          strictly_first (fringe_comp (goal s)) node rest
          && (if done node (set_fringe rest s) then true
              else pops_unambiguous fuel' (Run_body node (set_fringe rest s)))
      end
  end.

(** The same along a schedule of several threads. *)
Definition step_unambiguous (tid : nat) (st : Interleaving.state) : bool :=
  match nth_error (Interleaving.threads st) tid with
  | Some Interleaving.AtLoop =>
      let s := Interleaving.shared st in
      match top_pop (fringe_comp (goal s)) (fringe s) with
      | None => true
      | Some (node, rest) => strictly_first (fringe_comp (goal s)) node rest
      end
  | _ => true
  end.

Fixpoint schedule_unambiguous (schedule : list nat) (st : Interleaving.state) : bool :=
  match schedule with
  | [] => true
  | tid :: schedule' =>
      step_unambiguous tid st && schedule_unambiguous schedule' (Interleaving.step tid st)
  end.



End Spec.

(* ===================================================================== *)
(** ** Concrete worlds and queries *)
(* ===================================================================== *)

Module Examples.

Import F32 Geometry AStar.

(** The point [(a, b)] with integer coordinates, and the point
    [(a * 2^e, b * 2^e)]. *)
Definition pt (a b : Z) : Vector2 := mkVector2 (of_Z a) (of_Z b).
Definition pt2 (a b e : Z) : Vector2 := mkVector2 (of_dyadic a e) (of_dyadic b e).

Definition empty_path : LineSequence := mkLineSequence [].

(** The square of the specification's concrete scenario. *)
Definition square : Polygon := mkPolygon [pt 0 0; pt 2 0; pt 2 2; pt 0 2].

(** A square of side 1/64 with a corner at the origin; its centre is
    [(1/128, 1/128)]. *)
Definition small_square : Polygon :=
  mkPolygon [pt2 0 0 (-7); pt2 2 0 (-7); pt2 2 2 (-7); pt2 0 2 (-7)].
Definition small_square_centre : Vector2 := pt2 1 1 (-7).
Definition left_of_small_square : Vector2 := pt2 (-2) 1 (-7).
Definition right_of_small_square : Vector2 := pt2 4 1 (-7).


(** A kite between the start [(0, 0)] and the goal [(4, 1/2)]; its top
    vertex is [(2, 1)], its bottom vertex [(2, -3/2)]. *)
Definition kite : Polygon := mkPolygon [pt 1 0; pt 2 1; pt 3 0; pt2 4 (-3) (-1)].
Definition kite_start : Vector2 := pt 0 0.
Definition kite_goal : Vector2 := pt2 8 1 (-1).
Definition kite_top : Vector2 := pt 2 1.
Definition kite_bottom : Vector2 := pt2 4 (-3) (-1).

(** The two routes around the kite. *)
Definition over_the_top : Node :=
  Build_Node (mkLineSequence [kite_start; kite_top; kite_goal]).
Definition under_the_bottom : Node :=
  Build_Node (mkLineSequence [kite_start; kite_bottom; kite_goal]).

(** The solver with one pool worker. *)
Definition solver1 : Solver := AddThread solver0.




(** The query around the kite with one pool worker, critical section by
    critical section.  Thread 0 expands the start and pops the node at the
    top vertex; the worker pops the node at the bottom vertex and discovers
    its route to the goal; thread 0 discovers the shorter route and
    finishes its expansion, so does the worker.  Thread 0 pops the shorter
    route and passes the "Done?" test; the worker expands the node at
    (3, 0), pops the longer route and passes the "Done?" test, no complete
    path being set yet.  Thread 0 writes its route, expands it, pops once
    more and leaves the loop. *)
Definition race_to_first_write : list nat :=
  repeat 0%nat 8
  ++ [0%nat] ++ [1%nat] ++ repeat 1%nat 4
  ++ repeat 0%nat 9 ++ repeat 1%nat 3
  ++ [0%nat; 0%nat] ++ repeat 1%nat 7 ++ [1%nat; 1%nat]
  ++ repeat 0%nat 6 ++ repeat 0%nat 2.

(** The worker writes its route. *)
Definition worker_writes : list nat := [1%nat].

(** It then expands it and the last node of the fringe, and leaves the
    loop. *)
Definition worker_returns : list nat := repeat 1%nat 11.

Definition race_start : Interleaving.state :=
  Interleaving.Solve_begin solver1 [kite] kite_start kite_goal.

End Examples.

(* ===================================================================== *)
(** ** The remaining vector operations and geometric functions *)
(* ===================================================================== *)

Module Vectors.
Import F32 Geometry.
Local Open Scope f32_scope.

(** [operator+] *)
Definition Vector2_add (u v : Vector2) : Vector2 :=
  mkVector2 (x u + x v) (y u + y v).

(** [operator*(scalar)] *)
Definition Vector2_mul (v : Vector2) (scalar : float) : Vector2 :=
  mkVector2 (x v * scalar) (y v * scalar).

(** [operator/(divisor)] *)
Definition Vector2_div (v : Vector2) (divisor : float) : Vector2 :=
  mkVector2 (x v / divisor) (y v / divisor).

(** [Unit()]: [*this / Magnitude()]. *)
Definition Unit (v : Vector2) : Vector2 := Vector2_div v (Magnitude v).

End Vectors.

Module Shapes.
Import F32 Geometry.

(** [InPolygon(world, point)]: the iterator to the first polygon of the
    world that contains the point, as its index; [None] is [world.end()]. *)
Fixpoint InPolygon_world (world : list Polygon) (point : Vector2) : option nat :=
  match world with
  | [] => None
  | polygon :: world' =>
      if InPolygon polygon point then Some O
      else match InPolygon_world world' point with
           | Some i => Some (S i)
           | None => None
           end
  end.

End Shapes.

Module Angles.
Import F32 Geometry.

(** The same number: equal, or two zeros of any signs. *)
Definition same_number (u v : float) : Prop :=
  match u, v with
  | S754_zero _, S754_zero _ => True
  | _, _ => u = v
  end.

(** The direction of the angle seen from the other side. *)
Definition mirror (d : RotationalDirection) : RotationalDirection :=
  match d with
  | CLOCKWISE => COUNTERCLOCKWISE
  | COUNTERCLOCKWISE => CLOCKWISE
  | STRAIGHT => STRAIGHT
  | UNDEFINED => UNDEFINED
  end.

(** The comparator [GetAnglularExtrema] hands to [std::ranges::minmax]. *)
Definition angular_comp (viewPoint u v : Vector2) : bool :=
  RotationalDirection_eqb (DirectionOfAngle u viewPoint v) COUNTERCLOCKWISE.

End Angles.

(* ===================================================================== *)
(** ** Colours, and the conversions between the screen and the world *)
(* ===================================================================== *)

Module Colors.

Local Open Scope Z_scope.

(** [struct Color]: four [uint8_t] channels. *)
Record Color : Type := mkColor { r : Z; g : Z; b : Z; a : Z }.

(** [static_cast<uint8_t>] of an unsigned value. *)
Definition to_uint8 (n : Z) : Z := n mod 256.

(** [Color(const uint32_t rgba)]. *)
Definition Color_of_rgba (rgba : Z) : Color :=
  mkColor (to_uint8 (Z.shiftr rgba 24)) (to_uint8 (Z.shiftr rgba 16))
          (to_uint8 (Z.shiftr rgba 8)) (to_uint8 rgba).

Definition WHITE : Color := Color_of_rgba 0xFFFFFFFF.
Definition BLACK : Color := Color_of_rgba 0x000000FF.
Definition RED : Color := Color_of_rgba 0xFF0000FF.
Definition GREEN : Color := Color_of_rgba 0x00FF00FF.
Definition BLUE : Color := Color_of_rgba 0x0000FFFF.
Definition YELLOW : Color := Color_of_rgba 0xFFFF00FF.
Definition CYAN : Color := Color_of_rgba 0x00FFFFFF.
Definition PINK : Color := Color_of_rgba 0xFF00FFFF.
Definition ORANGE : Color := Color_of_rgba 0xFF80FFFF.

(** The 32-bit value with red in the highest byte and alpha in the lowest. *)
Definition rgba_of (c : Color) : Z :=
  r c * 2 ^ 24 + g c * 2 ^ 16 + b c * 2 ^ 8 + a c.

Definition is_uint8 (n : Z) : Prop := 0 <= n < 256.

End Colors.

Module SpaceConversions.

Import F32 Geometry Vectors.
Local Open Scope f32_scope.

(** [Vector2<int>]; [int] is 32 bits wide. *)
Record Vector2i : Type := mkVector2i { xi : Z; yi : Z }.

(** [(float)n] for an [int]: the nearest binary32 value. *)
Definition float_of_int (n : Z) : float := of_Z n.

(** [(int)u]: truncation toward zero; undefined ([None]) for NaN, the
    infinities and the values outside the range of [int]. *)
Definition int_of_float (u : float) : option Z :=
  match u with
  | S754_zero _ => Some 0%Z
  | S754_finite s m e =>
      let magnitude :=
        if (0 <=? e)%Z then (Zpos m * 2 ^ e)%Z else (Zpos m / 2 ^ (- e))%Z in
      let n := if s then (- magnitude)%Z else magnitude in
      if ((- 2 ^ 31 <=? n) && (n <? 2 ^ 31))%Z then Some n else None
  | S754_infinity _ | S754_nan => None
  end.

(** Constants.h *)
Definition WINDOW_DIMENSIONS : Vector2i := mkVector2i 720 480.
Definition PIXELS_PER_UNIT : Vector2i := mkVector2i 100 100.

Definition WORLD_ORIGIN : Vector2 :=
  mkVector2
    (float_of_int (xi WINDOW_DIMENSIONS) * of_dyadic 1 (-1) / float_of_int (xi PIXELS_PER_UNIT))
    (float_of_int (yi WINDOW_DIMENSIONS) * of_dyadic 1 (-1) / float_of_int (yi PIXELS_PER_UNIT)).

(** [1.5f] *)
Definition PLANET_SPEED : float := of_dyadic 3 (-1).

Definition ScreenToWorld (screenCoords : Vector2i) : Vector2 :=
  let scaled :=
    mkVector2 (float_of_int (xi screenCoords) / float_of_int (xi PIXELS_PER_UNIT))
              (float_of_int (yi screenCoords) / float_of_int (yi PIXELS_PER_UNIT)) in
  Vector2_sub scaled WORLD_ORIGIN.

Definition WorldToScreen (position : Vector2) : option Vector2i :=
  let translated := Vector2_add position WORLD_ORIGIN in
  match int_of_float (x translated * float_of_int (xi PIXELS_PER_UNIT)),
        int_of_float (y translated * float_of_int (yi PIXELS_PER_UNIT)) with
  | Some px, Some py => Some (mkVector2i px py)
  | _, _ => None
  end.

(** A pixel of the window. *)
Definition in_window (p : Vector2i) : Prop :=
  (0 <= xi p < xi WINDOW_DIMENSIONS)%Z /\ (0 <= yi p < yi WINDOW_DIMENSIONS)%Z.

End SpaceConversions.

(* ===================================================================== *)
(** ** The handshake between the calling thread and the pool workers *)
(* ===================================================================== *)

Module Workers.

Import Geometry AStar Interleaving.

(** Where the thread of a pool worker stands in its thread function
    ([WorkerThread::WorkerThread]). *)
Inductive worker_control : Type :=
| AtWhile                  (* while (alive) *)
| AtAcquire                (* beginSignal.acquire() *)
| AtAlive                  (* if (!alive) break; *)
| InRun (c : control)      (* solver.Run() *)
| AtRelease                (* completeSignal.release() *)
| Ended.                   (* the thread function has returned *)

(** Where the calling thread stands: in [Solve], after the fringe has been
    seeded, or in the destructor of the last worker of the pool, run by
    [RemoveThread]. *)
Inductive main_control : Type :=
| Releasing (i : nat)      (* first for_each: pool[i]->beginSignal.release() *)
| MainRun (c : control)    (* Run() *)
| Acquiring (i : nat)      (* second for_each: pool[i]->completeSignal.acquire() *)
| CleaningUp               (* discoveredNodes.clear(); fringe = {} *)
| Solved                   (* Solve has returned *)
| Stopping                 (* ~WorkerThread: alive = false *)
| Waking                   (* ~WorkerThread: beginSignal.release() *)
| Joining                  (* ~WorkerThread: thread.join(), then pop_back is complete *)
| Removed.                 (* RemoveThread has returned *)

(** [overflow] records a [release()] on a binary semaphore that already
    holds 1, which the semaphore does not allow. *)
Record state : Type := Build_state {
  solver : Solver;
  main : main_control;
  workers : list worker_control;
  overflow : bool
}.

Fixpoint update {A : Type} (i : nat) (f : A -> A) (l : list A) : list A :=
  match l, i with
  | [], _ => []
  | v :: l', O => f v :: l'
  | v :: l', S i' => v :: update i' f l'
  end.

Definition set_beginSignal (v : bool) (t : WorkerThread) : WorkerThread :=
  Build_WorkerThread v (completeSignal t) (alive t).

Definition set_completeSignal (v : bool) (t : WorkerThread) : WorkerThread :=
  Build_WorkerThread (beginSignal t) v (alive t).

Definition set_alive (v : bool) (t : WorkerThread) : WorkerThread :=
  Build_WorkerThread (beginSignal t) (completeSignal t) v.

Definition update_pool (i : nat) (f : WorkerThread -> WorkerThread) (s : Solver) : Solver :=
  set_threadPool (update i f (threadPool s)) s.

(** The index of the worker [pop_back] destroys. *)
Definition last_index (s : Solver) : nat := (length (threadPool s) - 1)%nat.

(** One step of the calling thread.  An [acquire()] on a semaphore that
    holds 0, and a [join()] on a thread that has not ended, block: the
    state stays as it is. *)
Definition step_main (st : state) : state :=
  let s := solver st in
  match main st with
  | Releasing i =>
      match nth_error (threadPool s) i with
      | Some t =>
          Build_state (update_pool i (set_beginSignal true) s) (Releasing (S i))
                      (workers st) (overflow st || beginSignal t)
      | None => Build_state s (MainRun AtLoop) (workers st) (overflow st)
      end
  | MainRun Returned => Build_state s (Acquiring 0) (workers st) (overflow st)
  | MainRun c =>
      let '(c', s') := step_thread c s in
      Build_state s' (MainRun c') (workers st) (overflow st)
  | Acquiring i =>
      match nth_error (threadPool s) i with
      | Some t =>
          if completeSignal t
          then Build_state (update_pool i (set_completeSignal false) s) (Acquiring (S i))
                           (workers st) (overflow st)
          else st
      | None => Build_state s CleaningUp (workers st) (overflow st)
      end
  | CleaningUp => Build_state (Solve_end s) Solved (workers st) (overflow st)
  | Solved => st
  | Stopping =>
      Build_state (update_pool (last_index s) (set_alive false) s) Waking
                  (workers st) (overflow st)
  | Waking =>
      match nth_error (threadPool s) (last_index s) with
      | Some t =>
          Build_state (update_pool (last_index s) (set_beginSignal true) s) Joining
                      (workers st) (overflow st || beginSignal t)
      | None => st
      end
  | Joining =>
      match nth_error (workers st) (last_index s) with
      | Some Ended =>
          Build_state (set_threadPool (removelast (threadPool s)) s) Removed
                      (removelast (workers st)) (overflow st)
      | _ => st
      end
  | Removed => st
  end.

(** One step of the thread of worker [j]. *)
Definition step_worker (j : nat) (st : state) : state :=
  let s := solver st in
  match nth_error (workers st) j, nth_error (threadPool s) j with
  | Some c, Some t =>
      match c with
      | AtWhile =>
          Build_state s (main st)
                      (update j (fun _ => if alive t then AtAcquire else Ended) (workers st))
                      (overflow st)
      | AtAcquire =>
          if beginSignal t
          then Build_state (update_pool j (set_beginSignal false) s) (main st)
                           (update j (fun _ => AtAlive) (workers st)) (overflow st)
          else st
      | AtAlive =>
          Build_state s (main st)
                      (update j (fun _ => if alive t then InRun AtLoop else Ended) (workers st))
                      (overflow st)
      | InRun Returned =>
          Build_state s (main st) (update j (fun _ => AtRelease) (workers st)) (overflow st)
      | InRun c0 =>
          let '(c', s') := step_thread c0 s in
          Build_state s' (main st) (update j (fun _ => InRun c') (workers st)) (overflow st)
      | AtRelease =>
          Build_state (update_pool j (set_completeSignal true) s) (main st)
                      (update j (fun _ => AtWhile) (workers st))
                      (overflow st || completeSignal t)
      | Ended => st
      end
  | _, _ => st
  end.

(** Thread 0 is the calling thread; thread [j + 1] is worker [j]. *)
Definition step (tid : nat) (st : state) : state :=
  match tid with
  | O => step_main st
  | S j => step_worker j st
  end.

Definition run_schedule (schedule : list nat) (st : state) : state :=
  fold_left (fun st' tid => step tid st') schedule st.

(** A worker between two queries: in its loop before [acquire], or
    blocked in it. *)
Definition idle (c : worker_control) : bool :=
  match c with AtWhile | AtAcquire => true | _ => false end.

(** Both semaphores at 0, and alive. *)
Definition quiet (t : WorkerThread) : bool :=
  negb (beginSignal t) && negb (completeSignal t) && alive t.

Definition at_rest (s : Solver) (ws : list worker_control) : Prop :=
  length ws = length (threadPool s)
  /\ forallb idle ws = true /\ forallb quiet (threadPool s) = true.

(** [Solve] after its assignments and the seeding of the fringe, the
    workers standing at [ws]. *)
Definition Solve_start (s : Solver) (ws : list worker_control) (world : list Polygon)
           (startingPosition goal : Vector2) : state :=
  Build_state (AStar.Solve_begin s world startingPosition goal) (Releasing 0) ws false.

(** [RemoveThread] on a pool that is not empty, entering the destructor of
    the last worker. *)
Definition RemoveThread_start (s : Solver) (ws : list worker_control) : state :=
  Build_state s Stopping ws false.

(** Has worker [j] been handed the query and not yet been waited for? *)
Definition started (m : main_control) (j : nat) : bool :=
  match m with
  | Releasing i => (j <? i)%nat
  | MainRun _ => true
  | Acquiring i => (i <=? j)%nat
  | _ => false
  end.

Definition working (c : worker_control) : bool :=
  match c with AtAlive | InRun _ | AtRelease => true | _ => false end.

(** What a worker looks like during [Solve]. *)
Definition worker_ok (is_started : bool) (t : WorkerThread) (c : worker_control) : bool :=
  alive t
  && if is_started
     then (idle c && beginSignal t && negb (completeSignal t))
          || (working c && negb (beginSignal t) && negb (completeSignal t))
          || (idle c && negb (beginSignal t) && completeSignal t)
     else idle c && quiet t.

Definition in_Solve (m : main_control) : bool :=
  match m with
  | Releasing _ | MainRun _ | Acquiring _ | CleaningUp | Solved => true
  | _ => false
  end.

Definition Solve_invariant (st : state) : Prop :=
  overflow st = false
  /\ in_Solve (main st) = true
  /\ length (workers st) = length (threadPool (solver st))
  /\ (forall j t c,
        nth_error (threadPool (solver st)) j = Some t ->
        nth_error (workers st) j = Some c ->
        worker_ok (started (main st) j) t c = true)
  /\ (main st = Solved ->
      discoveredNodes (solver st) = [] /\ fringe (solver st) = []).

(** The worker that [RemoveThread] destroys, while the destructor runs. *)
Definition leaving (m : main_control) (t : WorkerThread) (c : worker_control) : bool :=
  match m with
  | Stopping => idle c && quiet t
  | Waking =>
      negb (alive t) && negb (beginSignal t) && negb (completeSignal t)
      && match c with AtWhile | AtAcquire | Ended => true | _ => false end
  | Joining =>
      negb (alive t) && negb (completeSignal t)
      && match c with
         | AtWhile | AtAcquire => beginSignal t
         | AtAlive => negb (beginSignal t)
         | Ended => true
         | _ => false
         end
  | _ => false
  end.

(** The fields of the solver that belong to the search. *)
Definition same_search (s s0 : Solver) : Prop :=
  completePath s = completePath s0 /\ world s = world s0 /\ goal s = goal s0
  /\ discoveredNodes s = discoveredNodes s0 /\ fringe s = fringe s0.

Definition Remove_invariant (s0 : Solver) (st : state) : Prop :=
  overflow st = false
  /\ length (workers st) = length (threadPool (solver st))
  /\ same_search (solver st) s0
  /\ match main st with
     | Removed =>
         threadPool (solver st) = removelast (threadPool s0)
         /\ forall j t c,
             nth_error (threadPool (solver st)) j = Some t ->
             nth_error (workers st) j = Some c ->
             worker_ok false t c = true
     | Stopping | Waking | Joining =>
         threadPool s0 <> []
         /\ length (threadPool (solver st)) = length (threadPool s0)
         /\ removelast (threadPool (solver st)) = removelast (threadPool s0)
         /\ forall j t c,
             nth_error (threadPool (solver st)) j = Some t ->
             nth_error (workers st) j = Some c ->
             (if (j =? last_index s0)%nat then leaving (main st) t c
              else worker_ok false t c) = true
     | _ => False
     end.

Definition workers_ok (m : main_control) (pool : list WorkerThread)
           (ws : list worker_control) : Prop :=
  forall j t c,
    nth_error pool j = Some t -> nth_error ws j = Some c ->
    worker_ok (started m j) t c = true.

End Workers.

(* ===================================================================== *)
(** ** The application: the editor of the world and the travelling planet *)
(* ===================================================================== *)

Module App.

Import F32 Geometry AStar Shapes SpaceConversions Vectors.
Local Open Scope f32_scope.

(** The data members of [class Application], and the [static Solver] of
    AStar.h the application queries.  The pointers to the screen, the
    keyboard and the mouse are left out. *)
Record Application : Type := Build_Application {
  world : list Polygon;
  currentShape : list Vector2;
  selectedIndex : option nat;
  lastKnownValidVertex : Vector2;
  direction : RotationalDirection;
  planet : Vector2;
  path : LineSequence;
  velocityUnit : Vector2;
  solver : Solver
}.

(** The application as constructed, before any event. *)
Definition Application0 : Application :=
  Build_Application [] [] None (mkVector2 zero zero) UNDEFINED (mkVector2 zero zero)
                    (mkLineSequence []) (mkVector2 zero zero) solver0.

Definition set_world (w : list Polygon) (app : Application) : Application :=
  Build_Application w (currentShape app) (selectedIndex app) (lastKnownValidVertex app)
    (direction app) (planet app) (path app) (velocityUnit app) (solver app).

Definition set_currentShape (cs : list Vector2) (app : Application) : Application :=
  Build_Application (world app) cs (selectedIndex app) (lastKnownValidVertex app)
    (direction app) (planet app) (path app) (velocityUnit app) (solver app).

Definition set_selectedIndex (i : option nat) (app : Application) : Application :=
  Build_Application (world app) (currentShape app) i (lastKnownValidVertex app)
    (direction app) (planet app) (path app) (velocityUnit app) (solver app).

Definition set_lastKnownValidVertex (v : Vector2) (app : Application) : Application :=
  Build_Application (world app) (currentShape app) (selectedIndex app) v
    (direction app) (planet app) (path app) (velocityUnit app) (solver app).

Definition set_direction (d : RotationalDirection) (app : Application) : Application :=
  Build_Application (world app) (currentShape app) (selectedIndex app)
    (lastKnownValidVertex app) d (planet app) (path app) (velocityUnit app) (solver app).

Definition set_planet (p : Vector2) (app : Application) : Application :=
  Build_Application (world app) (currentShape app) (selectedIndex app)
    (lastKnownValidVertex app) (direction app) p (path app) (velocityUnit app) (solver app).

Definition set_path (l : LineSequence) (app : Application) : Application :=
  Build_Application (world app) (currentShape app) (selectedIndex app)
    (lastKnownValidVertex app) (direction app) (planet app) l (velocityUnit app) (solver app).

Definition set_velocityUnit (v : Vector2) (app : Application) : Application :=
  Build_Application (world app) (currentShape app) (selectedIndex app)
    (lastKnownValidVertex app) (direction app) (planet app) (path app) v (solver app).

Definition set_solver (s : Solver) (app : Application) : Application :=
  Build_Application (world app) (currentShape app) (selectedIndex app)
    (lastKnownValidVertex app) (direction app) (planet app) (path app) (velocityUnit app) s.

(** What a handler does: it returns with a new state, it does not return
    because [FindPath] does not, or it indexes a vector out of its range,
    which is undefined behaviour. *)
Inductive outcome : Type :=
| Returns (app : Application)
| NoReturn
| Undefined.

(** The keys [OnKeyPressed] tells apart; [OTHER] is any other key code. *)
Inductive KeyCode : Type := RETURN | ESCAPE | DELETE | UP | DOWN | OTHER.

Inductive Button : Type := LEFT | RIGHT.

(** [ValidNextVertex(vertex)]. *)
Definition ValidNextVertex (app : Application) (vertex : Vector2) : bool :=
  let cs := currentShape app in
  if (length cs =? 0)%nat then true
  else if Intersect (world app) (mkLine (last cs vertex) vertex) then false
  else if (1 <? length cs)%nat
          && (let polygon := mkPolygon (cs ++ [vertex]) in
              existsb (fun worldPolygon =>
                         existsb (fun worldVertex => InPolygon polygon worldVertex)
                                 (vertices worldPolygon))
                      (world app)
              || InPolygon polygon (planet app)
              || (negb (length (ls_vertices (path app)) =? 0)%nat
                  && InPolygon polygon (last (ls_vertices (path app)) vertex)))
       then false
  else if (2 <? length cs)%nat
          && (negb (RotationalDirection_eqb
                      (direction app)
                      (DirectionOfAngle (nth (length cs - 2) cs vertex) (last cs vertex) vertex))
              || negb (RotationalDirection_eqb
                         (direction app)
                         (DirectionOfAngle (last cs vertex) vertex (hd vertex cs)))
              || negb (RotationalDirection_eqb
                         (direction app)
                         (DirectionOfAngle vertex (hd vertex cs) (nth 1 cs vertex))))
       then false
  else true.

(** [Update(deltaTime)]; [mouse] is what [Mouse::GetPosition()] returns
    during the call.  The function always returns [true]. *)
Definition Update (mouse : Vector2i) (deltaTime : float) (app : Application) : Application :=
  let app1 :=
    if ValidNextVertex app (ScreenToWorld mouse)
    then set_lastKnownValidVertex (ScreenToWorld mouse) app
    else app in
  match ls_vertices (path app1) with
  | v0 :: v1 :: rest =>
      let deltaDisplacement := deltaTime * PLANET_SPEED in
      let distanceToNextVertex := Magnitude (Vector2_sub v1 v0) in
      if deltaDisplacement >= distanceToNextVertex then
        match rest with
        | [] =>
            set_path (mkLineSequence [])
              (set_velocityUnit (mkVector2 zero zero) (set_planet v1 app1))
        | v2 :: rest' =>
            let velocity := Unit (Vector2_sub v2 v1) in
            let position :=
              Vector2_add v1 (Vector2_mul velocity (deltaDisplacement - distanceToNextVertex)) in
            set_path (mkLineSequence (position :: v2 :: rest'))
              (set_planet position (set_velocityUnit velocity app1))
        end
      else
        let position :=
          Vector2_add (planet app1) (Vector2_mul (velocityUnit app1) deltaDisplacement) in
        set_path (mkLineSequence (position :: v1 :: rest)) (set_planet position app1)
  | _ => app1
  end.

Section Handlers.

(** A call of [AStar::FindPath] on the static solver: [None] when the call
    does not return.  With an empty pool it is [AStar.FindPath fuel];
    with pool workers, the path an interleaving of the threads gives. *)
Variable find : Solver -> list Polygon -> Vector2 -> Vector2 -> option (Solver * LineSequence).

(** [path = AStar::FindPath(world, planet, goal);
     velocityUnit = (path.vertices[1] - path.vertices[0]).Unit();] *)
Definition find_and_head (goal : Vector2) (app : Application) : outcome :=
  match find (solver app) (world app) (planet app) goal with
  | None => NoReturn
  | Some (s', found) =>
      match ls_vertices found with
      | v0 :: v1 :: _ =>
          Returns (set_velocityUnit (Unit (Vector2_sub v1 v0))
                     (set_path found (set_solver s' app)))
      | _ => Undefined
      end
  end.

Definition erase_at {A : Type} (i : nat) (l : list A) : list A :=
  firstn i l ++ skipn (S i) l.

Definition OnKeyPressed (key : KeyCode) (app : Application) : outcome :=
  match key with
  | RETURN =>
      let after :=
        if (2 <? length (currentShape app))%nat then
          let polygon := mkPolygon (currentShape app) in
          let app1 := set_currentShape [] app in
          if negb (InPolygon polygon (planet app1))
             && ((length (ls_vertices (path app1)) =? 0)%nat
                 || negb (InPolygon polygon
                            (last (ls_vertices (path app1)) (mkVector2 zero zero))))
          then
            let app2 := set_world (world app1 ++ [polygon]) app1 in
            if negb (length (ls_vertices (path app2)) =? 0)%nat
            then find_and_head (last (ls_vertices (path app2)) (mkVector2 zero zero)) app2
            else Returns app2
          else Returns app1
        else Returns app in
      match after with
      | Returns app3 => Returns (set_direction UNDEFINED app3)
      | other => other
      end
  | ESCAPE =>
      Returns (set_selectedIndex None (set_direction UNDEFINED (set_currentShape [] app)))
  | DELETE =>
      match selectedIndex app with
      | Some i =>
          if (i <? length (world app))%nat
          then Returns (set_selectedIndex None (set_world (erase_at i (world app)) app))
          else Undefined
      | None => Returns app
      end
  | UP => Returns (set_solver (AddThread (solver app)) app)
  | DOWN => Returns (set_solver (RemoveThread (solver app)) app)
  | OTHER => Returns app
  end.

Definition OnMouseClicked (button : Button) (mouse : Vector2i) (app : Application) : outcome :=
  let vertex := ScreenToWorld mouse in
  match button with
  | LEFT =>
      match InPolygon_world (world app) vertex with
      | Some selected =>
          Returns (set_direction UNDEFINED
                     (set_currentShape [] (set_selectedIndex (Some selected) app)))
      | None =>
          let app1 := set_selectedIndex None app in
          if ValidNextVertex app1 vertex then
            if (length (currentShape app1) =? 2)%nat then
              let app2 :=
                set_direction (DirectionOfAngle (nth 0 (currentShape app1) vertex)
                                                (nth 1 (currentShape app1) vertex) vertex)
                              app1 in
              match direction app2 with
              | CLOCKWISE | COUNTERCLOCKWISE =>
                  Returns (set_currentShape (currentShape app2 ++ [vertex]) app2)
              | _ => Returns app2
              end
            else Returns (set_currentShape (currentShape app1 ++ [vertex]) app1)
          else Returns app1
      end
  | RIGHT =>
      match InPolygon_world (world app) vertex with
      | None => find_and_head vertex app
      | Some _ => Returns app
      end
  end.

End Handlers.

(** Consecutive points of [l] turn in direction [d]. *)
Fixpoint turns (d : RotationalDirection) (l : list Vector2) : Prop :=
  match l with
  | u :: l' =>
      match l' with
      | v :: w :: _ => DirectionOfAngle u v w = d /\ turns d l'
      | _ => True
      end
  | [] => True
  end.

(** A ring of at least three vertices whose consecutive vertices turn one
    same way, also across the closing edge when it has four vertices or
    more. *)
Definition turning_ring (d : RotationalDirection) (vs : list Vector2) : Prop :=
  (3 <= length vs)%nat
  /\ (d = CLOCKWISE \/ d = COUNTERCLOCKWISE)
  /\ turns d vs
  /\ ((4 <= length vs)%nat -> turns d (vs ++ firstn 2 vs)).

(** What the editor keeps true. *)
Definition editor_invariant (app : Application) : Prop :=
  Forall (fun polygon => exists d, turning_ring d (vertices polygon)) (world app)
  /\ (forall i, selectedIndex app = Some i -> (i < length (world app))%nat)
  /\ ((3 <= length (currentShape app))%nat ->
      turning_ring (direction app) (currentShape app)).

End App.

Module Events.
Import F32 Geometry AStar Shapes SpaceConversions App.

(** What the main loop feeds the application: a frame, a key press, a
    mouse click. *)
Inductive event : Type :=
| Frame (mouse : Vector2i) (deltaTime : float)
| Key (key : KeyCode)
| Click (button : Button) (mouse : Vector2i).

Definition handle
           (find : Solver -> list Polygon -> Vector2 -> Vector2 -> option (Solver * LineSequence))
           (e : event) (app : Application) : outcome :=
  match e with
  | Frame mouse deltaTime => Returns (Update mouse deltaTime app)
  | Key key => OnKeyPressed find key app
  | Click button mouse => OnMouseClicked find button mouse app
  end.

Fixpoint run_events
         (find : Solver -> list Polygon -> Vector2 -> Vector2 -> option (Solver * LineSequence))
         (events : list event) (app : Application) : outcome :=
  match events with
  | [] => Returns app
  | e :: events' =>
      match handle find e app with
      | Returns app' => run_events find events' app'
      | other => other
      end
  end.

End Events.

(* ===================================================================== *)
(** ** Notions of the further properties *)
(* ===================================================================== *)

Module Props.

Import F32 Geometry AStar SpaceConversions.

(** Every point of [l] is one of the positions [Run] hands to [Discover]
    when it expands a node at the point before it ([prev] for the first). *)
Fixpoint chain (w : list Polygon) (g prev : Vector2) (l : list Vector2) : Prop :=
  match l with
  | [] => True
  | q :: l' => In q (successor_points w g prev) /\ chain w g q l'
  end.

(** A path the search can build: it starts at [start] and grows by
    successor steps. *)
Definition search_path (w : list Polygon) (g start : Vector2) (vs : list Vector2) : Prop :=
  exists rest, vs = start :: rest /\ chain w g start rest.

Definition search_node (w : list Polygon) (g start : Vector2) (n : Node) : Prop :=
  search_path w g start (ls_vertices (path n)).

(** The invariant of a query: the nodes of the fringe hold search paths, and
    so does the complete path, which ends at the goal. *)
Definition grown (w : list Polygon) (start g : Vector2) (s : Solver) : Prop :=
  world s = w /\ goal s = g
  /\ Forall (search_node w g start) (fringe s)
  /\ (forall c, completePath s = Some c ->
                search_node w g start c /\ Vector2_eqb (position c) g = true).

Definition control_grown (w : list Polygon) (g start : Vector2)
           (c : Interleaving.control) : Prop :=
  match c with
  | Interleaving.AtLoop | Interleaving.Returned => True
  | Interleaving.AtDone n | Interleaving.AtGoal n => search_node w g start n
  | Interleaving.AtDiscover pending => Forall (search_node w g start) pending
  | Interleaving.AtPush n pending =>
      search_node w g start n /\ Forall (search_node w g start) pending
  end.

Definition grown_state (w : list Polygon) (start g : Vector2)
           (st : Interleaving.state) : Prop :=
  grown w start g (Interleaving.shared st)
  /\ Forall (control_grown w g start) (Interleaving.threads st).

(** What a returned path looks like: empty, or a search path that ends at
    a position equal to the goal. *)
Definition path_to_goal (w : list Polygon) (start g : Vector2) (r : LineSequence) : Prop :=
  ls_vertices r = []
  \/ exists rest,
      ls_vertices r = start :: rest
      /\ chain w g start rest
      /\ Vector2_eqb (last rest start) g = true.

(** Every vertex of the polygon maps to a number on every edge normal. *)
Definition projections_are_numbers (polygon : Polygon) : bool :=
  forallb (fun normal =>
             forallb (fun vertex => negb (is_nan (Dot vertex normal))) (vertices polygon))
          (edge_normals polygon).

(** A node all of whose points have finite coordinates. *)
Definition finite_node (n : Node) : bool :=
  forallb finite_point (ls_vertices (path n)).

(** The pixel column (row) a window column (row) comes back to, from
    world space. *)
Definition column_back (px : Z) : option Z :=
  int_of_float (F32.mul (F32.add (x (ScreenToWorld (mkVector2i px 0))) (x WORLD_ORIGIN))
                        (float_of_int (xi PIXELS_PER_UNIT))).

Definition row_back (py : Z) : option Z :=
  int_of_float (F32.mul (F32.add (y (ScreenToWorld (mkVector2i 0 py))) (y WORLD_ORIGIN))
                        (float_of_int (yi PIXELS_PER_UNIT))).

Definition within_a_pixel (back : Z -> option Z) (p : Z) : bool :=
  match back p with
  | Some q => ((p - 1 <=? q) && (q <=? p))%Z
  | None => false
  end.

(** The world coordinate of a window column (row). *)
Definition column_world (px : Z) : float := x (ScreenToWorld (mkVector2i px 0)).
Definition row_world (py : Z) : float := y (ScreenToWorld (mkVector2i 0 py)).

(** Two numbers, the second greater. *)
Definition step_up (f : Z -> float) (p : Z) : bool :=
  negb (is_nan (f p)) && negb (is_nan (f (p + 1)%Z)) && ltb (f p) (f (p + 1)%Z).

(** The path of the planet is empty, or it has two vertices or more and
    the first is where the planet is. *)
Definition planet_heads_path (app : App.Application) : Prop :=
  ls_vertices (App.path app) = []
  \/ exists v rest, ls_vertices (App.path app) = App.planet app :: v :: rest.

(** What the handlers need of [FindPath]: a returned path that is not
    empty starts at the starting position. *)
Definition starts_at_start
           (find : Solver -> list Polygon -> Vector2 -> Vector2 -> option (Solver * LineSequence))
  : Prop :=
  forall s w start g s' r,
    find s w start g = Some (s', r) ->
    ls_vertices r = [] \/ exists rest, ls_vertices r = start :: rest.

End Props.

(* ===================================================================== *)
(** ** Concrete sessions *)
(* ===================================================================== *)

Module Sessions.
Import F32 Geometry AStar SpaceConversions App Events.

(** A session: two clicks, a third that closes a triangle, RETURN, a
    right click that sends the planet off, a frame, a click that selects
    the triangle, and a worker added and removed. *)
Definition draw_a_triangle : list event :=
  [ Click LEFT (mkVector2i 400 200); Click LEFT (mkVector2i 500 200);
    Frame (mkVector2i 450 300) (of_dyadic 1 (-6));
    Click LEFT (mkVector2i 450 300); Key RETURN;
    Click RIGHT (mkVector2i 450 350);
    Frame (mkVector2i 450 350) (of_dyadic 1 (-6));
    Click LEFT (mkVector2i 450 250); Key UP; Key DOWN ].

(** A query in a world without polygons, with one pool worker that
    stands in [beginSignal.acquire()]. *)
Definition one_worker_query : Workers.state :=
  Workers.Solve_start Examples.solver1 [Workers.AtAcquire] []
                      (Examples.pt 0 0) (Examples.pt 3 4).

(** The calling thread runs the whole search and waits; the worker wakes
    up, finds the fringe empty and signals; the calling thread cleans up. *)
Definition late_worker : list nat :=
  repeat 0%nat 17 ++ repeat 1%nat 5 ++ repeat 0%nat 3.

(** The destructor clears [alive] and releases; the worker wakes up and
    ends; the join completes. *)
Definition remove_the_worker : list nat := [0; 0; 1; 1; 0]%nat.

(** A right click that sends the planet off in the empty world, and two
    frames of a sixteenth of a second. *)
Definition click_and_move : list event :=
  [ Click RIGHT (mkVector2i 500 240);
    Frame (mkVector2i 500 240) (of_dyadic 1 (-4));
    Frame (mkVector2i 500 240) (of_dyadic 1 (-4)) ].

End Sessions.

(* ===================================================================== *)
(** ** The worker pool *)
(* ===================================================================== *)

Section Pool.

Import AStar.

Lemma RemoveThread_AddThread (s : Solver) : RemoveThread (AddThread s) = s.
Proof.
  destruct s as [pool c w g d f]. unfold RemoveThread, AddThread. simpl.
  destruct (pool ++ [new_WorkerThread]) eqn:E.
  - destruct pool; discriminate.
  - rewrite <- E. unfold set_threadPool. simpl.
    now rewrite removelast_last.
Qed.

Lemma ThreadCount_small (s : Solver) :
  (Z.of_nat (length (threadPool s)) + 1 < size_t_modulus)%Z ->
  ThreadCount s = (Z.of_nat (length (threadPool s)) + 1)%Z.
Proof.
  intros H. unfold ThreadCount. apply Z.mod_small. lia.
Qed.

(** C10.  For every pool state whose size fits [size_t], [AddThread]
    followed by [RemoveThread] restores the solver, hence
    [ThreadCount]; [ThreadCount] is the pool size plus one, an integer
    at least 1. *)
Theorem AddThread_RemoveThread_restores_ThreadCount (s : Solver) :
  (Z.of_nat (length (threadPool s)) + 1 < size_t_modulus)%Z ->
  RemoveThread (AddThread s) = s
  /\ ThreadCount (RemoveThread (AddThread s)) = ThreadCount s
  /\ ThreadCount s = (Z.of_nat (length (threadPool s)) + 1)%Z
  /\ (1 <= ThreadCount s)%Z.
Proof.
  intros H. rewrite RemoveThread_AddThread.
  rewrite (ThreadCount_small s H). repeat split; lia.
Qed.

Lemma AddThread_RemoveThread_restores_ThreadCount_witness :
  RemoveThread (AddThread Examples.solver1) = Examples.solver1
  /\ ThreadCount (RemoveThread (AddThread Examples.solver1)) = ThreadCount Examples.solver1
  /\ ThreadCount Examples.solver1 = 2%Z
  /\ (1 <= ThreadCount Examples.solver1)%Z.
Proof.
  apply (AddThread_RemoveThread_restores_ThreadCount Examples.solver1).
  vm_compute. reflexivity.
Defined.

End Pool.

(* ===================================================================== *)
(** ** Search nodes *)
(* ===================================================================== *)

Section Nodes.

Import F32 Geometry AStar Spec.
Local Open Scope f32_scope.


Lemma path_mkNode (p : Vector2) (parentPath : LineSequence) :
  ls_vertices (path (mkNode p parentPath)) = ls_vertices parentPath ++ [p].
Proof. reflexivity. Qed.

Lemma transform_reduce_app (l1 l2 : list Vector2) (init : float) :
  transform_reduce (l1 ++ l2) init = transform_reduce l2 (transform_reduce l1 init).
Proof. unfold transform_reduce. apply fold_left_app. Qed.

Lemma last_cons_default (A : Type) (v d : A) (l : list A) :
  last (v :: l) d = last l v.
Proof.
  revert v d. induction l as [|u l IH]; intros v d; [reflexivity|].
  change (last (v :: u :: l) d) with (last (u :: l) d).
  rewrite IH. symmetry. apply IH.
Qed.

Lemma adjacent_difference_from_snoc (l : list Vector2) (prev p : Vector2) :
  adjacent_difference_from prev (l ++ [p])
  = adjacent_difference_from prev l ++ [Vector2_sub p (last l prev)].
Proof.
  revert prev. induction l as [|v l IH]; intros prev.
  - reflexivity.
  - cbn [app adjacent_difference_from]. rewrite IH.
    now rewrite last_cons_default.
Qed.

(** The steps of a path start with its first point itself, followed by
    the differences of consecutive points. *)
Lemma transform_reduce_steps (prev : Vector2) (l : list Vector2) (init : float) :
  transform_reduce (adjacent_difference_from prev l) init
  = fold_left add (segment_lengths (prev :: l)) init.
Proof.
  revert prev init. induction l as [|v l IH]; intros prev init.
  - reflexivity.
  - cbn [adjacent_difference_from]. unfold transform_reduce in *.
    cbn [fold_left]. rewrite IH. reflexivity.
Qed.

(** What [pathLength] computes: the magnitude of the first point of the
    path, then the distances between consecutive points, accumulated in
    path order from [0.0f]. *)
Lemma pathLength_closed_form (first : Vector2) (others : list Vector2) :
  pathLength (Build_Node (mkLineSequence (first :: others)))
  = fold_left add (segment_lengths (first :: others)) (zero + Magnitude first).
Proof.
  unfold pathLength. cbn [path ls_vertices adjacent_difference].
  unfold transform_reduce at 1. cbn [fold_left].
  apply (transform_reduce_steps first others).
Qed.

(** Appending a point to a path adds the distance from the old position
    to the new point. *)
Lemma pathLength_mkNode (n : Node) (p : Vector2) :
  ls_vertices (path n) <> [] ->
  pathLength (mkNode p (path n)) = pathLength n + Magnitude (Vector2_sub p (position n)).
Proof.
  destruct n as [[l]]. cbn [path ls_vertices]. intros Hne.
  destruct l as [|v0 l]; [congruence|].
  unfold pathLength, mkNode, position.
  cbn [path ls_vertices app adjacent_difference].
  rewrite adjacent_difference_from_snoc.
  change (v0 :: adjacent_difference_from v0 l ++ [Vector2_sub p (last l v0)])
    with ((v0 :: adjacent_difference_from v0 l) ++ [Vector2_sub p (last l v0)]).
  rewrite transform_reduce_app.
  unfold transform_reduce at 1. cbn [fold_left].
  now rewrite last_cons_default.
Qed.

(** C2, evaluated.  The node whose path holds the single point (3, 4)
    has [pathLength] 5, the magnitude of that point, where the sum of
    the distances between consecutive points is 0. *)
Theorem pathLength_single_point_is_its_magnitude :
  pathLength (mkNode (Examples.pt 3 4) Examples.empty_path) = of_Z 5
  /\ sum_of_distances (ls_vertices (path (mkNode (Examples.pt 3 4) Examples.empty_path))) = zero
  /\ (pathLength (mkNode (Examples.pt 3 4) Examples.empty_path) == zero) = false.
Proof. vm_compute. repeat split. Qed.

End Nodes.

(* ===================================================================== *)
(** ** The order of binary32 values *)
(* ===================================================================== *)

(** [SFcompare] orders the values that are not NaN as their keys are
  ordered lexicographically; the facts about [<] and [==] that the
  solver relies on follow from that. *)
Section FloatOrder.

Import F32.
Local Open Scope Z_scope.

Lemma SFcompare_key (u v : float) :
  SFcompare u v
  = if is_nan u || is_nan v then None else Some (lex (key u) (key v)).
Proof.
  destruct u as [su|su| |su mu eu], v as [sv|sv| |sv mv ev];
    try destruct su; try destruct sv; try reflexivity; cbn.
  rewrite Z.compare_opp, (Z.compare_antisym eu ev).
  destruct (eu ?= ev); reflexivity.
Qed.

Lemma lex_Eq (k1 k2 : Z * Z * Z) : lex k1 k2 = Eq <-> k1 = k2.
Proof.
  destruct k1 as [[a1 b1] c1], k2 as [[a2 b2] c2]. unfold lex.
  destruct (Z.compare_spec a1 a2), (Z.compare_spec b1 b2), (Z.compare_spec c1 c2);
    split; intros E; try discriminate; try reflexivity;
    try (inversion E; lia); subst; reflexivity.
Qed.

Lemma lex_Lt (a1 b1 c1 a2 b2 c2 : Z) :
  lex (a1, b1, c1) (a2, b2, c2) = Lt
  <-> a1 < a2 \/ (a1 = a2 /\ (b1 < b2 \/ (b1 = b2 /\ c1 < c2))).
Proof.
  unfold lex.
  destruct (Z.compare_spec a1 a2), (Z.compare_spec b1 b2), (Z.compare_spec c1 c2);
    split; intros E; try discriminate; try reflexivity; lia.
Qed.

Lemma lex_Lt_negtrans (k1 k2 k3 : Z * Z * Z) :
  lex k1 k3 = Lt -> lex k1 k2 = Lt \/ lex k2 k3 = Lt.
Proof.
  destruct k1 as [[a1 b1] c1], k2 as [[a2 b2] c2], k3 as [[a3 b3] c3].
  rewrite !lex_Lt. lia.
Qed.

Lemma lex_antisym (k1 k2 : Z * Z * Z) : lex k2 k1 = CompOpp (lex k1 k2).
Proof.
  destruct k1 as [[a1 b1] c1], k2 as [[a2 b2] c2]. unfold lex.
  rewrite (Z.compare_antisym a1 a2), (Z.compare_antisym b1 b2), (Z.compare_antisym c1 c2).
  destruct (a1 ?= a2), (b1 ?= b2), (c1 ?= c2); reflexivity.
Qed.

Lemma ltb_asym (u v : float) : ltb u v = true -> ltb v u = false.
Proof.
  unfold ltb, SFltb. rewrite !SFcompare_key, (orb_comm (is_nan v)).
  destruct (is_nan u || is_nan v); [discriminate|].
  rewrite (lex_antisym (key u) (key v)).
  destruct (lex (key u) (key v)); try discriminate. reflexivity.
Qed.

(** The literal [0.001f] is one thousandth rounded to binary32. *)
Lemma EPSILON_is_one_thousandth :
  Constants.EPSILON = div (of_Z 1) (of_Z 1000).
Proof. reflexivity. Qed.

Lemma ltb_irrefl (u : float) : ltb u u = false.
Proof.
  unfold ltb, SFltb. rewrite SFcompare_key.
  destruct (is_nan u || is_nan u); [reflexivity|].
  now rewrite (proj2 (lex_Eq (key u) (key u)) eq_refl).
Qed.

(** Between a value and a greater one, every number is above the first
    or below the second. *)
Lemma ltb_negtrans (u v w : float) :
  ltb u w = true -> is_nan v = false -> ltb u v = true \/ ltb v w = true.
Proof.
  unfold ltb, SFltb. rewrite !SFcompare_key. intros H Hv. rewrite Hv.
  destruct (is_nan u); [discriminate|]. destruct (is_nan w); [discriminate|].
  cbn [orb] in *.
  destruct (lex (key u) (key w)) eqn:E; try discriminate.
  destruct (lex_Lt_negtrans (key u) (key v) (key w) E) as [-> | ->]; auto.
Qed.

Lemma eqb_true_iff (u v : float) :
  eqb u v = true <-> is_nan u = false /\ is_nan v = false /\ key u = key v.
Proof.
  unfold eqb, SFeqb. rewrite SFcompare_key.
  destruct (is_nan u), (is_nan v); cbn [orb];
    try (split; [discriminate | intros (A & B & _); discriminate]).
  split.
  - destruct (lex (key u) (key v)) eqn:E; try discriminate.
    intros _. repeat split. now apply lex_Eq.
  - intros (_ & _ & E). now rewrite (proj2 (lex_Eq _ _) E).
Qed.

Lemma eqb_sym (u v : float) : eqb u v = true -> eqb v u = true.
Proof. rewrite !eqb_true_iff. intros (A & B & C). auto. Qed.


End FloatOrder.

(* ===================================================================== *)
(** ** Path lengths are numbers *)
(* ===================================================================== *)

(** Rounding a non-negative mantissa never produces NaN and keeps the
    sign; squares, sums and square roots of the solver's cost model stay
    among the non-negative values. *)
Section Numbers.

Import F32 Geometry AStar Spec.
Local Open Scope Z_scope.

Lemma iter_pos_invariant (A : Type) (f : A -> A) (P : A -> Prop) :
  (forall u, P u -> P (f u)) -> forall n u, P u -> P (iter_pos f n u).
Proof.
  intros Hf. induction n as [n IH|n IH|]; intros u Hu; cbn; auto.
Qed.

Lemma shr_1_nonneg (mrs : shr_record) : 0 <= shr_m mrs -> 0 <= shr_m (shr_1 mrs).
Proof.
  destruct mrs as [m r s]. cbn. destruct m as [|p|p]; try destruct p; cbn; lia.
Qed.

Lemma shr_nonneg (mrs : shr_record) (e n : Z) :
  0 <= shr_m mrs -> 0 <= shr_m (fst (shr mrs e n)).
Proof.
  intros H. unfold shr. destruct n; cbn [fst]; try assumption.
  now apply iter_pos_invariant; [apply shr_1_nonneg|].
Qed.

Lemma shr_fexp_nonneg (pr em m e : Z) (l : location) :
  0 <= m -> 0 <= shr_m (fst (shr_fexp pr em m e l)).
Proof.
  intros H. unfold shr_fexp. apply shr_nonneg.
  destruct l as [|[]]; cbn; exact H.
Qed.

Lemma round_nearest_even_nonneg (m : Z) (l : location) :
  0 <= m -> 0 <= round_nearest_even m l.
Proof.
  intros H. unfold round_nearest_even. destruct l as [|[]]; try lia.
  destruct (Z.even m); lia.
Qed.

Lemma binary_round_aux_sign (pr em : Z) (sx : bool) (mx ex : Z) (lx : location) :
  0 <= mx -> has_sign sx (binary_round_aux pr em sx mx ex lx).
Proof.
  intros H. unfold binary_round_aux.
  pose proof (@shr_fexp_nonneg pr em mx ex lx H) as H1.
  destruct (shr_fexp pr em mx ex lx) as [mrs' e']. cbn [fst] in H1.
  pose proof (@shr_fexp_nonneg pr em _ e' loc_Exact
                (@round_nearest_even_nonneg _ (loc_of_shr_record mrs') H1)) as H2.
  destruct (shr_fexp pr em (round_nearest_even (shr_m mrs') (loc_of_shr_record mrs')) e' loc_Exact)
    as [mrs'' e'']. cbn [fst] in H2.
  destruct (shr_m mrs'') as [|m|m]; cbn; try reflexivity; try lia.
  destruct (e'' <=? em - pr); reflexivity.
Qed.

Lemma binary_round_sign (pr em : Z) (sx : bool) (mx : positive) (ex : Z) :
  has_sign sx (binary_round pr em sx mx ex).
Proof.
  unfold binary_round. destruct (shl_align _ _ _) as [mz ez].
  apply binary_round_aux_sign. lia.
Qed.

Lemma has_sign_false_nonneg (u : float) : has_sign false u -> nonneg u = true.
Proof. destruct u as [s|s| |s m e]; cbn; try intros ->; auto; contradiction. Qed.

Lemma has_sign_not_nan (sx : bool) (u : float) : has_sign sx u -> is_nan u = false.
Proof. destruct u; cbn; auto; contradiction. Qed.

Lemma nonneg_not_nan (u : float) : nonneg u = true -> is_nan u = false.
Proof. destruct u as [s|[]| |[] m e]; cbn; auto; discriminate. Qed.

Lemma mul_self_nonneg (u : float) : is_nan u = false -> nonneg (mul u u) = true.
Proof.
  destruct u as [s|s| |s m e]; cbn; try discriminate; intros _.
  - reflexivity.
  - now destruct s.
  - apply has_sign_false_nonneg.
    replace false with (xorb s s) at 1 by (now destruct s).
    apply binary_round_aux_sign. lia.
Qed.

Lemma add_nonneg (u v : float) :
  nonneg u = true -> nonneg v = true -> nonneg (add u v) = true.
Proof.
  destruct u as [s|[]| |[] m e], v as [s'|[]| |[] m' e']; cbn; try discriminate; auto.
  - intros _ _. now destruct s, s'.
  - intros _ _. apply has_sign_false_nonneg.
    unfold binary_normalize. cbn.
    apply (@binary_round_sign prec emax false).
Qed.

Lemma sqrtf_nonneg (u : float) : nonneg u = true -> nonneg (sqrtf u) = true.
Proof.
  destruct u as [s|[]| |[] m e]; cbn; try discriminate; auto. intros _.
  destruct (SFsqrt_core_binary prec emax (Z.pos m) e) as [[mz ez] lz] eqn:E.
  apply has_sign_false_nonneg, binary_round_aux_sign.
  unfold SFsqrt_core_binary in E.
  destruct (Z.sqrtrem _) as [q r] eqn:Eq in E. injection E as <- _ _.
  pose proof (Z.sqrtrem_sqrt) as Hs.
  match type of Eq with Z.sqrtrem ?a = _ => specialize (Hs a); rewrite Eq in Hs end.
  cbn [fst] in Hs. subst q. apply Z.sqrt_nonneg.
Qed.

Lemma sub_finite_not_nan (u v : float) :
  is_finite u = true -> is_finite v = true -> is_nan (sub u v) = false.
Proof.
  destruct u as [s| | |s m e], v as [s'| | |s' m' e']; cbn; try discriminate; auto.
  - intros _ _. now destruct s, s'.
  - intros _ _. unfold binary_normalize.
    destruct (_ - _)%Z; [reflexivity| |];
      eapply has_sign_not_nan, binary_round_sign.
Qed.

Lemma Magnitude_nonneg (v : Vector2) :
  is_nan (x v) = false -> is_nan (y v) = false -> nonneg (Magnitude v) = true.
Proof.
  intros Hx Hy. unfold Magnitude, MagnitudeSqr.
  apply sqrtf_nonneg, add_nonneg; now apply mul_self_nonneg.
Qed.

Lemma finite_not_nan (u : float) : is_finite u = true -> is_nan u = false.
Proof. destruct u; cbn; auto; discriminate. Qed.

Lemma Magnitude_sub_nonneg (p q : Vector2) :
  finite_point p = true -> finite_point q = true ->
  nonneg (Magnitude (Vector2_sub p q)) = true.
Proof.
  unfold finite_point. rewrite !andb_true_iff. intros [A B] [C D].
  apply Magnitude_nonneg; cbn; now apply sub_finite_not_nan.
Qed.

Lemma transform_reduce_nonneg (prev : Vector2) (l : list Vector2) (init : float) :
  finite_point prev = true -> forallb finite_point l = true ->
  nonneg init = true ->
  nonneg (transform_reduce (adjacent_difference_from prev l) init) = true.
Proof.
  revert prev init. induction l as [|v l IH]; intros prev init Hp Hl Hi; [exact Hi|].
  cbn [forallb] in Hl. apply andb_true_iff in Hl. destruct Hl as [Hv Hl].
  cbn [adjacent_difference_from]. unfold transform_reduce in *. cbn [fold_left].
  apply IH; auto. apply add_nonneg; [exact Hi|]. now apply Magnitude_sub_nonneg.
Qed.

(** The path length of a node whose points have finite coordinates is a
    number: never NaN. *)
Lemma pathLength_is_a_number (n : Node) :
  forallb finite_point (ls_vertices (path n)) = true ->
  is_nan (pathLength n) = false.
Proof.
  intros H. apply nonneg_not_nan. unfold pathLength.
  destruct (ls_vertices (path n)) as [|v0 l]; [reflexivity|].
  cbn [forallb] in H. apply andb_true_iff in H. destruct H as [H0 Hl].
  cbn [adjacent_difference]. unfold transform_reduce. cbn [fold_left].
  apply (@transform_reduce_nonneg v0 l); auto.
  apply add_nonneg; [reflexivity|].
  unfold finite_point in H0. apply andb_true_iff in H0. destruct H0.
  apply Magnitude_nonneg; now apply finite_not_nan.
Qed.

End Numbers.

(* ===================================================================== *)
(** ** The discovered set and Discover *)
(* ===================================================================== *)

Section Discovered.

Import F32 Geometry AStar Spec.
Local Open Scope f32_scope.



(** Looking a node up is looking its position up. *)
Lemma find_stored (d : list Node) (node : Node) :
  find d node = stored d (position node).
Proof. reflexivity. Qed.

Lemma stored_Some (d : list Node) (p : Vector2) (e : Node) :
  stored d p = Some e -> In e d /\ Vector2_eqb (position e) p = true.
Proof. intros H. now apply find_some in H. Qed.

Lemma stored_None (d : list Node) (p : Vector2) (e : Node) :
  stored d p = None -> In e d -> Vector2_eqb (position e) p = false.
Proof. intros H Hin. exact (find_none _ _ H e Hin). Qed.



Lemma In_erase (d : list Node) (node e : Node) : In e (erase d node) -> In e d.
Proof.
  induction d as [|e' d IH]; [easy|]. cbn [erase].
  destruct (Node_eqb e' node); cbn [In]; intuition.
Qed.



Lemma unique_positions_erase (d : list Node) (node : Node) :
  unique_positions d -> unique_positions (erase d node).
Proof.
  induction d as [|e d IH]; [easy|]. cbn [unique_positions erase].
  intros [He Hd]. destruct (Node_eqb e node); [assumption|].
  cbn [unique_positions]. split; [|now apply IH].
  rewrite find_stored in *.
  destruct (stored (erase d node) (position e)) as [e'|] eqn:E'; [|reflexivity].
  apply stored_Some in E'. destruct E' as [Hin Heq].
  rewrite (stored_None _ _ _ He (In_erase _ _ _ Hin)) in Heq. discriminate.
Qed.

Lemma unique_positions_insert (d : list Node) (node : Node) :
  unique_positions d -> unique_positions (insert d node).
Proof.
  intros Hd. unfold insert, contains.
  destruct (find d node) eqn:E; [assumption|]. cbn [unique_positions]. now split.
Qed.

(** What [Discover] does, case by case: with an entry at the node's
    position that is strictly shorter, nothing; otherwise the entry of
    that position becomes the node and the node is pushed. *)
Lemma Discover_cases (node : Node) (s : Solver) :
  match stored (discoveredNodes s) (position node) with
  | Some found =>
      if pathLength found < pathLength node
      then Discover node s = s
      else Discover node s
           = fringe_push node
               (set_discoveredNodes (insert (erase (discoveredNodes s) node) node) s)
  | None =>
      Discover node s
      = fringe_push node (set_discoveredNodes (insert (discoveredNodes s) node) s)
  end.
Proof.
  unfold Discover, Discover_set. rewrite find_stored.
  destruct (stored (discoveredNodes s) (position node)) as [found|]; [|reflexivity].
  destruct (pathLength found < pathLength node); reflexivity.
Qed.

Lemma discoveredNodes_push_set (node : Node) (d : list Node) (s : Solver) :
  discoveredNodes (fringe_push node (set_discoveredNodes d s)) = d.
Proof. reflexivity. Qed.

Lemma Discover_unique (node : Node) (s : Solver) :
  unique_positions (discoveredNodes s) ->
  unique_positions (discoveredNodes (Discover node s)).
Proof.
  intros Hd. pose proof (Discover_cases node s) as H.
  destruct (stored (discoveredNodes s) (position node)) as [found|].
  - destruct (pathLength found < pathLength node); rewrite H; [assumption|].
    rewrite discoveredNodes_push_set.
    now apply unique_positions_insert, unique_positions_erase.
  - rewrite H, discoveredNodes_push_set. now apply unique_positions_insert.
Qed.


(** C3, evaluated.  The discovered set holds the route below the square,
    and [Discover] receives the route above it: same position, same
    [pathLength].  The entry is replaced and the candidate is pushed onto
    the fringe. *)
Theorem Discover_equal_length_replaces_and_pushes :
  let below := Build_Node (mkLineSequence
                 [Examples.pt (-1) 1; Examples.pt 0 0; Examples.pt 2 0; Examples.pt 3 1]) in
  let above := Build_Node (mkLineSequence
                 [Examples.pt (-1) 1; Examples.pt 0 2; Examples.pt 2 2; Examples.pt 3 1]) in
  let s := set_discoveredNodes [below] solver0 in
  Node_eqb below above = true
  /\ (pathLength below == pathLength above) = true
  /\ discoveredNodes (Discover above s) = [above]
  /\ fringe (Discover above s) = [above]
  /\ Discover above s <> s.
Proof.
  vm_compute. repeat split. discriminate.
Qed.


End Discovered.


(* ===================================================================== *)
(** ** The occlusion test *)
(* ===================================================================== *)

Section Occlusion.

Import F32 Geometry AStar Spec.
Local Open Scope f32_scope.


(** A polygon all of whose vertices map, on the axis normal to the
    segment, at or above the segment's own mapping is not intersected, as
    long as subtracting EPSILON from that mapping changes it: a segment
    along the silhouette of a polygon is clear. *)
Lemma grazing_is_clear (polygon : Polygon) (line : Line) :
  let normal := Normal (Vector2_sub (a line) (b line)) in
  let lineMapping := Dot (b line) normal in
  fst (projection_minmax polygon normal) = lineMapping ->
  (lineMapping - Constants.EPSILON < lineMapping) = true ->
  Intersect_polygon polygon line = false.
Proof.
  intros normal lineMapping Hmin Heps. unfold Intersect_polygon.
  destruct (length (vertices polygon) <? 3)%nat; [reflexivity|].
  unfold separated_on_line_normal. fold normal.
  destruct (projection_minmax polygon normal) as [min max]. cbn [fst] in Hmin.
  subst min. fold lineMapping. unfold gtb. unfold ltb in Heps. rewrite Heps.
  reflexivity.
Qed.



End Occlusion.

(* ===================================================================== *)
(** ** The expansion pass *)
(* ===================================================================== *)

Section Expansion.

Import F32 Geometry AStar Spec.
Local Open Scope f32_scope.

Lemma Discover_frame (node : Node) (s : Solver) :
  threadPool (Discover node s) = threadPool s
  /\ completePath (Discover node s) = completePath s
  /\ world (Discover node s) = world s
  /\ goal (Discover node s) = goal s.
Proof.
  unfold Discover, Discover_set.
  destruct (find (discoveredNodes s) node) as [found|].
  - destruct (pathLength found < pathLength node); repeat split.
  - repeat split.
Qed.

Lemma Discover_all_frame (nodes : list Node) (s : Solver) :
  threadPool (Discover_all nodes s) = threadPool s
  /\ completePath (Discover_all nodes s) = completePath s
  /\ world (Discover_all nodes s) = world s
  /\ goal (Discover_all nodes s) = goal s.
Proof.
  revert s. induction nodes as [|node nodes IH]; intros s; [repeat split|].
  cbn [Discover_all fold_left]. fold (Discover_all nodes (Discover node s)).
  destruct (IH (Discover node s)) as (A & B & C & D).
  destruct (Discover_frame node s) as (A' & B' & C' & D').
  repeat split; congruence.
Qed.

(** The fringe only grows under [Discover], by the discovered node. *)
Lemma Discover_fringe (node : Node) (s : Solver) :
  fringe (Discover node s) = fringe s \/ fringe (Discover node s) = node :: fringe s.
Proof.
  unfold Discover, Discover_set.
  destruct (find (discoveredNodes s) node) as [found|].
  - destruct (pathLength found < pathLength node); [left|right]; reflexivity.
  - right. reflexivity.
Qed.

Lemma complete_if_goal_frame (node : Node) (s : Solver) :
  world (complete_if_goal node s) = world s
  /\ goal (complete_if_goal node s) = goal s
  /\ fringe (complete_if_goal node s) = fringe s
  /\ discoveredNodes (complete_if_goal node s) = discoveredNodes s.
Proof.
  unfold complete_if_goal. destruct (Vector2_eqb (position node) (goal s)); repeat split.
Qed.

(** The body of the loop, unfolded. *)
Lemma Run_body_unfold (node : Node) (s : Solver) :
  Run_body node s
  = Discover_all (successors (world s) (goal s) node) (complete_if_goal node s).
Proof.
  destruct (complete_if_goal_frame node s) as (Hw & Hg & _ & _).
  unfold Run_body, expand, Discover_all. now rewrite Hw, Hg.
Qed.

(** C5, as the code has it.  For every popped node that passed the
    "Done?" test, at the goal or not: the body of the loop hands every
    successor of the node to [Discover], the goal first if the occlusion
    test leaves it visible, then for each polygon its two ring neighbours
    or its visible angular extrema; and the best complete path becomes the
    node if the node is at the goal, and is unchanged otherwise. *)
Theorem Run_body_expands_every_popped_node (node : Node) (s : Solver) :
  Run_body node s
  = Discover_all
      (map (fun p => mkNode p (path node))
           ((if negb (Intersect (world s) (mkLine (position node) (goal s)))
             then [goal s] else [])
            ++ flat_map (polygon_successors (world s) (position node)) (world s)))
      (complete_if_goal node s)
  /\ completePath (Run_body node s)
     = (if Vector2_eqb (position node) (goal s) then Some node else completePath s).
Proof.
  pose proof (Run_body_unfold node s) as E.
  split; [exact E|].
  rewrite E. destruct (Discover_all_frame (successors (world s) (goal s) node)
                         (complete_if_goal node s)) as (_ & -> & _ & _).
  unfold complete_if_goal. destruct (Vector2_eqb (position node) (goal s)); reflexivity.
Qed.

(** C5 fails as stated.  In the empty world, the second node popped for
    the query from (0, 0) to (3, 4) is at the goal and passes the "Done?"
    test; the body of the loop makes it the complete path and also
    discovers its successor at the goal, which changes the discovered set
    and puts a node on the empty fringe. *)
Lemma popped_goal_node_is_expanded :
  let s1 := Run_iterations 1
              (Solve_begin solver0 [] (Examples.pt 0 0) (Examples.pt 3 4)) in
  exists node s2,
    AqcuireNextNodeInFringe s1 = (Some node, s2)
    /\ Vector2_eqb (position node) (goal s2) = true
    /\ done node s2 = false
    /\ fringe s2 = []
    /\ completePath (Run_body node s2) = Some node
    /\ fringe (Run_body node s2) = [mkNode (goal s2) (path node)]
    /\ discoveredNodes (Run_body node s2) = [mkNode (goal s2) (path node)]
    /\ discoveredNodes s2 = [node].
Proof.
  eexists. eexists. split; [vm_compute; reflexivity|].
  vm_compute. repeat split.
Qed.

End Expansion.

(* ===================================================================== *)
(** ** A goal the occlusion test hides *)
(* ===================================================================== *)

Section Occluded.

Import F32 Geometry AStar Spec.
Local Open Scope f32_scope.

Lemma minmax_from_In (A : Type) (comp : A -> A -> bool) (rest : list A) (mn mx : A) :
  (fst (minmax_from comp mn mx rest) = mn \/ In (fst (minmax_from comp mn mx rest)) rest)
  /\ (snd (minmax_from comp mn mx rest) = mx \/ In (snd (minmax_from comp mn mx rest)) rest).
Proof.
  revert mn mx. induction rest as [|v rest IH]; intros mn mx; [cbn; auto|].
  cbn [minmax_from In].
  destruct (comp v mn); [|destruct (comp v mx)].
  - destruct (IH v mx) as [[-> | Hmn] [-> | Hmx]]; auto.
  - destruct (IH mn mx) as [[-> | Hmn] [-> | Hmx]]; auto.
  - destruct (IH mn v) as [[-> | Hmn] [-> | Hmx]]; auto.
Qed.

(** The angular extrema of a polygon are vertices of it. *)
Lemma GetAnglularExtrema_In (polygon : Polygon) (viewPoint leftMost rightMost : Vector2) :
  GetAnglularExtrema polygon viewPoint = Some (leftMost, rightMost) ->
  In leftMost (vertices polygon) /\ In rightMost (vertices polygon).
Proof.
  unfold GetAnglularExtrema, minmax. destruct (vertices polygon) as [|first rest]; [discriminate|].
  intros H. injection H as H.
  pose proof (minmax_from_In
                (fun u v => RotationalDirection_eqb (DirectionOfAngle u viewPoint v) COUNTERCLOCKWISE)
                rest first first) as [A B].
  rewrite H in A, B. cbn [fst snd In] in *. intuition.
Qed.





Lemma top_pop_In (comp : Node -> Node -> bool) (q rest : list Node) (n : Node) :
  top_pop comp q = Some (n, rest) -> In n q /\ incl rest q.
Proof.
  revert n rest. induction q as [|m q IH]; intros n rest; [discriminate|].
  cbn [top_pop]. destruct (top_pop comp q) as [[best rest']|].
  - destruct (IH best rest' eq_refl) as [Hin Hincl].
    destruct (comp m best); intros E; injection E as <- <-.
    + split; [now right|]. intros u [<- | Hu]; [now left|]. right. now apply Hincl.
    + split; [now left|]. apply incl_tl, incl_refl.
  - intros E. injection E as <- <-. split; [now left|]. easy.
Qed.

Lemma top_pop_None (comp : Node -> Node -> bool) (q : list Node) :
  top_pop comp q = None -> q = [].
Proof.
  destruct q as [|m q]; [reflexivity|]. cbn [top_pop].
  destruct (top_pop comp q) as [[best rest]|]; [|discriminate].
  destruct (comp m best); discriminate.
Qed.

Lemma top_pop_keeps (comp : Node -> Node -> bool) (q rest : list Node) (n m : Node) :
  top_pop comp q = Some (n, rest) -> In m q -> m = n \/ In m rest.
Proof.
  revert n rest. induction q as [|u q IH]; intros n rest; [discriminate|].
  cbn [top_pop]. destruct (top_pop comp q) as [[best rest']|] eqn:E.
  - destruct (comp u best); intros H; injection H as <- <-; intros [<- | Hm].
    + right. now left.
    + destruct (IH best rest' eq_refl Hm) as [-> | Hr]; [now left|]. right. now right.
    + now left.
    + now right.
  - intros H. injection H as <- <-. apply top_pop_None in E. subst q.
    intros [<- | []]. now left.
Qed.

(** The node [top_pop] hands out is one that no node left in the queue
    comes before, the priorities being numbers: it is a [top()] of the
    priority queue. *)
Lemma top_pop_is_top (g : Vector2) (q rest : list Node) (n : Node) :
  Forall (fun m => is_nan (f_value g m) = false) q ->
  top_pop (fringe_comp g) q = Some (n, rest) ->
  Forall (fun m => fringe_comp g n m = false) rest.
Proof.
  revert n rest. induction q as [|u q IH]; intros n rest Hq; [discriminate|].
  inversion Hq as [|? ? Hu Hq']; subst.
  cbn [top_pop]. destruct (top_pop (fringe_comp g) q) as [[best rest']|] eqn:E.
  - specialize (IH best rest' Hq' eq_refl).
    assert (Hbest : is_nan (f_value g best) = false).
    { destruct (top_pop_In _ _ E) as [Hin _]. rewrite Forall_forall in Hq'. now apply Hq'. }
    destruct (fringe_comp g u best) eqn:Ec; intros H; injection H as <- <-.
    + constructor; [|exact IH]. unfold fringe_comp, gtb in *. now apply ltb_asym.
    + apply Forall_forall. intros m Hm.
      destruct (top_pop_keeps _ _ m E Hm) as [-> | Hr]; [exact Ec|].
      rewrite Forall_forall in IH. specialize (IH m Hr).
      unfold fringe_comp, gtb in *. fold (f_value g u) (f_value g m) (f_value g best) in *.
      destruct (SFltb (f_value g m) (f_value g u)) eqn:El; [|reflexivity].
      destruct (ltb_negtrans _ (f_value g best) _ El Hbest) as [A | A];
        unfold ltb in A; congruence.
  - intros H. injection H as <- <-. constructor.
Qed.





(** When [Run] ends within its fuel, it ends in the state the iterations
    lead to. *)
Lemma Run_Run_iterations (fuel : nat) (s s' : Solver) :
  Run fuel s = Some s' -> s' = Run_iterations fuel s.
Proof.
  revert s. induction fuel as [|fuel IH]; intros s; [discriminate|].
  cbn [Run Run_iterations].
  destruct (AqcuireNextNodeInFringe s) as [[node|] s1]; [|congruence].
  destruct (done node s1); [congruence|]. apply IH.
Qed.


End Occluded.

(* ===================================================================== *)
(** ** Runs of several threads *)
(* ===================================================================== *)

Section Threads.

Import F32 Geometry AStar Spec Interleaving.
Local Open Scope f32_scope.

Lemma run_schedule_app (a b : list nat) (st : state) :
  run_schedule (a ++ b) st = run_schedule b (run_schedule a st).
Proof. unfold run_schedule. apply fold_left_app. Qed.

Lemma run_schedule_repeat (tid m n : nat) (st : state) :
  run_schedule (repeat tid (m + n)) st
  = run_schedule (repeat tid n) (run_schedule (repeat tid m) st).
Proof. now rewrite repeat_app, run_schedule_app. Qed.

Lemma step_alone (c : control) (s : Solver) :
  step 0 (Build_state s [c])
  = Build_state (snd (step_thread c s)) [fst (step_thread c s)].
Proof. unfold step. cbn. now destruct (step_thread c s). Qed.

(** A thread alone goes through its pending [Discover] calls as the
    sequential fold does. *)
Lemma alone_Discover_all (pending : list Node) (s : Solver) :
  exists k,
    run_schedule (repeat 0%nat k) (Build_state s [AtDiscover pending])
    = Build_state (Discover_all pending s) [AtLoop].
Proof.
  revert s. induction pending as [|candidate pending IH]; intros s.
  - exists 1%nat. reflexivity.
  - cbn [Discover_all fold_left]. fold (Discover_all pending (Discover candidate s)).
    destruct (IH (Discover candidate s)) as [k Hk].
    unfold Discover in *. destruct (Discover_set candidate s) as [s'|] eqn:E.
    + exists (2 + k)%nat. rewrite run_schedule_repeat. cbn [repeat run_schedule fold_left].
      rewrite step_alone. cbn [step_thread]. rewrite E. cbn [fst snd].
      rewrite step_alone. cbn [step_thread fst snd]. exact Hk.
    + exists (1 + k)%nat. rewrite run_schedule_repeat. cbn [repeat run_schedule fold_left].
      rewrite step_alone. cbn [step_thread]. rewrite E. cbn [fst snd]. exact Hk.
Qed.

(** The calling thread alone, section by section, does what [Run] does. *)
Lemma alone_Run (fuel : nat) (s s' : Solver) :
  Run fuel s = Some s' ->
  exists k,
    run_schedule (repeat 0%nat k) (Build_state s [AtLoop]) = Build_state s' [Returned].
Proof.
  revert s. induction fuel as [|fuel IH]; intros s; [discriminate|].
  cbn [Run]. destruct (AqcuireNextNodeInFringe s) as [[node|] s1] eqn:E.
  - destruct (done node s1) eqn:Ed.
    + intros H. injection H as <-. exists 2%nat.
      cbn [repeat run_schedule fold_left]. rewrite step_alone. cbn [step_thread].
      rewrite E. cbn [fst snd]. rewrite step_alone. cbn [step_thread]. now rewrite Ed.
    + intros H. destruct (IH _ H) as [k Hk].
      destruct (alone_Discover_all (successors (world s1) (goal s1) node)
                  (complete_if_goal node s1)) as [j Hj].
      rewrite <- Run_body_unfold in Hj.
      exists (3 + (j + k))%nat. rewrite run_schedule_repeat.
      cbn [repeat run_schedule fold_left]. rewrite step_alone. cbn [step_thread].
      rewrite E. cbn [fst snd]. rewrite step_alone. cbn [step_thread]. rewrite Ed.
      cbn [fst snd]. rewrite step_alone. cbn [step_thread fst snd].
      rewrite run_schedule_repeat. unfold run_schedule in *. now rewrite Hj.
  - intros H. injection H as <-. exists 1%nat.
    cbn [repeat run_schedule fold_left]. rewrite step_alone. cbn [step_thread].
    now rewrite E.
Qed.

Lemma Discover_set_frame (node : Node) (s s' : Solver) :
  Discover_set node s = Some s' ->
  completePath s' = completePath s /\ world s' = world s /\ goal s' = goal s
  /\ fringe s' = fringe s.
Proof.
  unfold Discover_set. destruct (find (discoveredNodes s) node) as [found|].
  - destruct (pathLength found < pathLength node); [discriminate|].
    intros H. injection H as <-. repeat split.
  - intros H. injection H as <-. repeat split.
Qed.

Lemma Forall_set_nth (P : control -> Prop) (i : nat) (c : control) (l : list control) :
  P c -> Forall P l -> Forall P (set_nth i c l).
Proof.
  intros Hc Hl. revert i. induction Hl as [|c' l Hc' Hl IH]; intros i;
    [destruct i; constructor|].
  destruct i; cbn [set_nth]; constructor; auto.
Qed.





Lemma unique_positions_Discover_all (nodes : list Node) (s : Solver) :
  unique_positions (discoveredNodes s) ->
  unique_positions (discoveredNodes (Discover_all nodes s)).
Proof.
  revert s. induction nodes as [|node nodes IH]; intros s Hu; [exact Hu|].
  cbn [Discover_all fold_left]. apply IH. now apply Discover_unique.
Qed.

(** Through the iterations of [Run] the discovered set keeps at most one
    entry per position. *)
Lemma unique_positions_Run_iterations (k : nat) (s : Solver) :
  unique_positions (discoveredNodes s) ->
  unique_positions (discoveredNodes (Run_iterations k s)).
Proof.
  revert s. induction k as [|k IH]; intros s Hu; [exact Hu|].
  cbn [Run_iterations]. unfold AqcuireNextNodeInFringe.
  destruct (top_pop (fringe_comp (goal s)) (fringe s)) as [[node rest]|]; [|exact Hu].
  destruct (done node (set_fringe rest s)); [exact Hu|].
  apply IH. rewrite Run_body_unfold. apply unique_positions_Discover_all.
  now destruct (complete_if_goal_frame node (set_fringe rest s)) as (_ & _ & _ & ->).
Qed.

(** Every critical section keeps at most one entry per position in the
    discovered set. *)
Lemma unique_positions_run_schedule (schedule : list nat) (st : state) :
  unique_positions (discoveredNodes (shared st)) ->
  unique_positions (discoveredNodes (shared (run_schedule schedule st))).
Proof.
  revert st. induction schedule as [|tid schedule IH]; intros st Hu; [exact Hu|].
  cbn [run_schedule fold_left]. apply IH. unfold step.
  destruct (nth_error (threads st) tid) as [c|]; [|exact Hu].
  destruct (step_thread c (shared st)) as [c' s'] eqn:E. cbn [shared].
  destruct c as [|node|node|pending|node pending|]; cbn [step_thread] in E.
  - unfold AqcuireNextNodeInFringe in E.
    destruct (top_pop _ _) as [[top rest]|] in E; injection E as <- <-; exact Hu.
  - destruct (done node (shared st)); injection E as <- <-; exact Hu.
  - injection E as <- <-.
    now destruct (complete_if_goal_frame node (shared st)) as (_ & _ & _ & ->).
  - destruct pending as [|candidate pending]; [injection E as <- <-; exact Hu|].
    pose proof (Discover_unique candidate (shared st) Hu) as Hd. unfold Discover in Hd.
    destruct (Discover_set candidate (shared st)) as [s1|]; injection E as <- <-;
      [exact Hd | exact Hu].
  - injection E as <- <-. exact Hu.
  - injection E as <- <-. exact Hu.
Qed.

End Threads.

Section OccludedGoal.

Import F32 Geometry AStar Spec Interleaving.
Local Open Scope f32_scope.




End OccludedGoal.

(* ===================================================================== *)
(** ** A query that does not end *)
(* ===================================================================== *)

(** The triangle (0,0), (4,0), (0,4), the goal (1,1) inside it, the start
    at (100000000, 1).  Every path to a vertex has [pathLength] 200000000
    in binary32, and adding an edge of the triangle to that length does
    not change it.  A node rediscovered along an edge is therefore never
    strictly longer than the stored entry, [Discover] pushes it again, and
    the fringe never empties. *)
Section Spinning.

Import F32 Geometry AStar Spec Examples.
Local Open Scope f32_scope.














End Spinning.

(* ===================================================================== *)
(** ** Two threads and the best complete path *)
(* ===================================================================== *)

Section Race.

Import F32 Geometry AStar Spec Interleaving Examples.
Local Open Scope f32_scope.

(** Alone, a thread keeps a complete path unless the popped node is at the
    goal and is not at least as long. *)
Lemma complete_path_alone (node : Node) (s : Solver) (c c' : Node) :
  done node s = false ->
  completePath s = Some c ->
  completePath (Run_body node s) = Some c' ->
  c' = c
  \/ (c' = node /\ Vector2_eqb (position node) (goal s) = true
      /\ (pathLength node >= pathLength c) = false).
Proof.
  unfold done. intros Hdone Hc. rewrite Hc in Hdone.
  rewrite Run_body_unfold.
  destruct (Discover_all_frame (successors (world s) (goal s) node)
              (complete_if_goal node s)) as (_ & -> & _ & _).
  unfold complete_if_goal.
  destruct (Vector2_eqb (position node) (goal s)) eqn:E; cbn; intros H.
  - right. injection H as <-. auto.
  - left. congruence.
Qed.

(** C4, evaluated.  With one pool worker there is an interleaving of the
    critical sections of [Run] in which the best complete path, set to the
    route over the top of the kite, is replaced by the strictly longer
    route under its bottom; both threads then return and [FindPath]
    returns the longer route.  No pop of the interleaving depends on how
    the queue orders equal priorities. *)
Theorem complete_path_replaced_by_a_longer_one :
  let st1 := run_schedule race_to_first_write race_start in
  let st2 := run_schedule worker_writes st1 in
  let st3 := run_schedule worker_returns st2 in
  ThreadCount solver1 = 2%Z
  /\ nth_error (threads st1) 1 = Some (AtGoal under_the_bottom)
  /\ completePath (shared st1) = Some over_the_top
  /\ completePath (shared st2) = Some under_the_bottom
  /\ (pathLength over_the_top < pathLength under_the_bottom) = true
  /\ all_returned st3 = true
  /\ FindPath_result st3 = path under_the_bottom
  /\ schedule_unambiguous (race_to_first_write ++ worker_writes ++ worker_returns)
                          race_start = true.
Proof.
  vm_compute. repeat split.
Qed.

(** With an empty pool the same query returns the shorter route. *)
Lemma kite_alone :
  exists s',
    FindPath 20 solver0 [kite] kite_start kite_goal = Some (s', path over_the_top).
Proof. eexists. vm_compute. reflexivity. Qed.

End Race.

(* ===================================================================== *)
(** ** A path through an obstacle *)
(* ===================================================================== *)

Section Crossing.

Import F32 Geometry AStar Spec.
Local Open Scope f32_scope.

(** C1, evaluated.  One square obstacle of side 1/64, the start 1/64 to
    its left and the goal 1/64 to its right, both at the height of its
    centre, an empty pool.  The occlusion test classifies the segment from
    the start to the goal as clear, and [FindPath] returns that segment,
    whose midpoint is the centre of the square, strictly inside it.  No
    pop of the run depends on how the queue orders equal priorities. *)
Theorem FindPath_crosses_a_small_obstacle :
  Intersect [Examples.small_square]
            (mkLine Examples.left_of_small_square Examples.right_of_small_square) = false
  /\ (exists s',
       FindPath 5 solver0 [Examples.small_square]
                Examples.left_of_small_square Examples.right_of_small_square
       = Some (s', mkLineSequence
                     [Examples.left_of_small_square; Examples.right_of_small_square]))
  /\ midpoint Examples.left_of_small_square Examples.right_of_small_square
     = Examples.small_square_centre
  /\ strictly_inside Examples.small_square Examples.small_square_centre = true
  /\ strictly_inside Examples.small_square Examples.left_of_small_square = false
  /\ strictly_inside Examples.small_square Examples.right_of_small_square = false
  /\ pops_unambiguous 5 (Solve_begin solver0 [Examples.small_square]
                            Examples.left_of_small_square
                            Examples.right_of_small_square) = true.
Proof.
  split; [vm_compute; reflexivity|].
  split; [eexists; vm_compute; reflexivity|].
  vm_compute. repeat split.
Qed.

(** The concrete scenario of the specification: around the square from
    (-1, 1) to (3, 1), the solver returns the route through (0, 0) and
    (2, 0), one of the two routes of equal length the specification
    expects. *)
Lemma concrete_scenario :
  exists s',
    FindPath 20 solver0 [Examples.square] (Examples.pt (-1) 1) (Examples.pt 3 1)
    = Some (s', mkLineSequence
                  [Examples.pt (-1) 1; Examples.pt 0 0; Examples.pt 2 0; Examples.pt 3 1]).
Proof. eexists. vm_compute. reflexivity. Qed.

End Crossing.

(* ===================================================================== *)
(** ** Further properties of the search *)
(* ===================================================================== *)

Section SearchPaths.

Import F32 Geometry AStar Spec Interleaving Props.
Local Open Scope f32_scope.

Lemma chain_snoc (w : list Polygon) (g prev q : Vector2) (l : list Vector2) :
  chain w g prev l -> In q (successor_points w g (last l prev)) ->
  chain w g prev (l ++ [q]).
Proof.
  revert prev. induction l as [|v l IH]; intros prev Hl Hq.
  - cbn in *. auto.
  - destruct Hl as [Hv Hl]. cbn [app chain]. split; [exact Hv|].
    apply IH; [exact Hl|]. now rewrite last_cons_default in Hq.
Qed.

Lemma search_node_position (w : list Polygon) (g start : Vector2) (n : Node) (rest : list Vector2) :
  ls_vertices (path n) = start :: rest -> position n = last rest start.
Proof. intros E. unfold position. rewrite E. apply last_cons_default. Qed.

Lemma search_node_successor (w : list Polygon) (g start : Vector2) (n c : Node) :
  search_node w g start n ->
  In c (successors w g n) ->
  search_node w g start c.
Proof.
  intros (rest & E & Hc) Hin. unfold successors in Hin.
  apply in_map_iff in Hin. destruct Hin as (q & <- & Hq).
  exists (rest ++ [q]). split.
  - rewrite path_mkNode, E. reflexivity.
  - apply chain_snoc; [exact Hc|]. now rewrite <- (search_node_position w g n E).
Qed.

Lemma grown_Discover_all (w : list Polygon) (start g : Vector2) (nodes : list Node) (s : Solver) :
  Forall (search_node w g start) nodes ->
  grown w start g s -> grown w start g (Discover_all nodes s).
Proof.
  revert s. induction nodes as [|node nodes IH]; intros s Hn Hs; [exact Hs|].
  inversion Hn as [|? ? Hnode Hrest]; subst.
  cbn [Discover_all fold_left]. apply (IH _ Hrest).
  destruct Hs as (Hw & Hg & Hf & Hc).
  destruct (Discover_frame node s) as (_ & Hc' & Hw' & Hg').
  repeat split; try congruence.
  - destruct (Discover_fringe node s) as [-> | ->]; [assumption|]. now constructor.
  - rewrite Hc' in H. now apply Hc.
  - rewrite Hc' in H. now apply Hc.
Qed.

Lemma grown_complete_if_goal (w : list Polygon) (start g : Vector2) (node : Node) (s : Solver) :
  search_node w g start node ->
  grown w start g s -> grown w start g (complete_if_goal node s).
Proof.
  intros Hn (Hw & Hg & Hf & Hc). unfold complete_if_goal.
  destruct (Vector2_eqb (position node) (goal s)) eqn:E; [|repeat split; auto; now apply Hc].
  repeat split; auto; cbn in H; injection H as <-; [exact Hn | now rewrite <- Hg].
Qed.

Lemma grown_Run_body (w : list Polygon) (start g : Vector2) (node : Node) (s : Solver) :
  search_node w g start node ->
  grown w start g s -> grown w start g (Run_body node s).
Proof.
  intros Hn Hs. pose proof Hs as (Hw & Hg & _).
  rewrite Run_body_unfold. apply grown_Discover_all; [|now apply grown_complete_if_goal].
  apply Forall_forall. intros c Hc. rewrite Hw, Hg in Hc.
  exact (@search_node_successor w g start _ _ Hn Hc).
Qed.

Lemma grown_pop (w : list Polygon) (start g : Vector2) (s s1 : Solver) (o : option Node) :
  grown w start g s ->
  AqcuireNextNodeInFringe s = (o, s1) ->
  grown w start g s1
  /\ match o with
     | Some node => search_node w g start node
     | None => True
     end.
Proof.
  intros (Hw & Hg & Hf & Hc). unfold AqcuireNextNodeInFringe.
  destruct (top_pop (fringe_comp (goal s)) (fringe s)) as [[top rest]|] eqn:E;
    intros H; injection H as <- <-.
  - apply top_pop_In in E. destruct E as [Hin Hincl].
    rewrite Forall_forall in Hf. split; [|now apply Hf].
    repeat split; try assumption; try (now apply Hc).
    apply Forall_forall. intros n Hn. apply Hf, Hincl, Hn.
  - split; [|exact I]. repeat split; try assumption; now apply Hc.
Qed.

Lemma grown_Run_iterations (w : list Polygon) (start g : Vector2) (k : nat) (s : Solver) :
  grown w start g s -> grown w start g (Run_iterations k s).
Proof.
  revert s. induction k as [|k IH]; intros s Hs; [exact Hs|].
  cbn [Run_iterations].
  destruct (AqcuireNextNodeInFringe s) as [o s1] eqn:E.
  destruct (grown_pop Hs E) as [Hs1 Ho].
  destruct o as [node|]; [|exact Hs1].
  destruct (done node s1); [exact Hs1|].
  apply IH. now apply grown_Run_body.
Qed.

Lemma grown_Solve_begin (s : Solver) (w : list Polygon) (start g : Vector2) :
  grown w start g (AStar.Solve_begin s w start g).
Proof.
  repeat split; try discriminate.
  constructor; [|constructor]. exists []. split; [reflexivity|exact I].
Qed.

Lemma grown_result (w : list Polygon) (start g : Vector2) (s : Solver) :
  grown w start g s -> path_to_goal w start g (result (Solve_end s)).
Proof.
  intros (_ & _ & _ & Hc). unfold result, Solve_end. cbn.
  destruct (completePath s) as [c|]; [|now left]. right.
  destruct (Hc c eq_refl) as ((rest & E & Hch) & Hg).
  exists rest. repeat split; try assumption.
  now rewrite <- (search_node_position w g c E).
Qed.

Lemma grown_step_thread (w : list Polygon) (start g : Vector2) (c : control) (s : Solver) :
  grown w start g s ->
  control_grown w g start c ->
  grown w start g (snd (step_thread c s))
  /\ control_grown w g start (fst (step_thread c s)).
Proof.
  intros Hs Hc. pose proof Hs as (Hw & Hg & Hf & Hcp).
  destruct c as [|node|node|pending|node pending|]; cbn [step_thread control_grown] in *.
  - destruct (AqcuireNextNodeInFringe s) as [[node|] s1] eqn:E;
      destruct (grown_pop Hs E) as [Hs1 Ho]; cbn; auto.
  - destruct (done node s); cbn; auto.
  - cbn [fst snd]. split; [now apply grown_complete_if_goal|].
    apply Forall_forall. intros n Hn. rewrite Hw, Hg in Hn.
    exact (@search_node_successor w g start _ _ Hc Hn).
  - destruct pending as [|candidate pending]; [cbn; auto|].
    inversion Hc as [|? ? Hcand Hpend]; subst.
    destruct (Discover_set candidate s) as [s'|] eqn:E; cbn [fst snd control_grown].
    + destruct (Discover_set_frame _ _ E) as (A & B & C & D).
      split; [|auto]. repeat split; try congruence; rewrite A in H; now apply Hcp.
    + auto.
  - destruct Hc as [Hnode Hpend]. cbn [fst snd control_grown]. split; [|exact Hpend].
    repeat split; try assumption; try (now apply Hcp). cbn. now constructor.
  - cbn. auto.
Qed.

Lemma grown_run_schedule (w : list Polygon) (start g : Vector2)
      (schedule : list nat) (st : state) :
  grown_state w start g st -> grown_state w start g (run_schedule schedule st).
Proof.
  revert st. induction schedule as [|tid schedule IH]; intros st Hst; [exact Hst|].
  cbn [run_schedule fold_left]. apply IH. destruct Hst as [Hs Ht]. unfold step.
  destruct (nth_error (threads st) tid) as [c|] eqn:E; [|now split].
  assert (Hc : control_grown w g start c).
  { rewrite Forall_forall in Ht. apply Ht. eapply nth_error_In, E. }
  destruct (@grown_step_thread w start g c (shared st) Hs Hc) as [Hs' Hc'].
  destruct (step_thread c (shared st)) as [c' s']. cbn [fst snd] in *.
  split; [exact Hs'|]. cbn [threads]. now apply Forall_set_nth.
Qed.

Lemma grown_state_begin (s : Solver) (w : list Polygon) (start g : Vector2) :
  grown_state w start g (Interleaving.Solve_begin s w start g).
Proof.
  split; [apply grown_Solve_begin|]. cbn [threads Interleaving.Solve_begin].
  apply Forall_forall. intros c Hc. apply repeat_spec in Hc. now subst.
Qed.

(** X1.  Whatever path [FindPath] returns with an empty pool is empty, or
    starts at the starting position, ends at a position equal to the goal,
    and each of its points after the first is one of the positions [Run]
    hands to [Discover] when it expands a node at the point before it. *)
Theorem FindPath_returns_a_chain_of_successor_steps
        (fuel : nat) (s s' : Solver) (w : list Polygon) (start g : Vector2)
        (r : LineSequence) :
  FindPath fuel s w start g = Some (s', r) ->
  path_to_goal w start g r.
Proof.
  unfold FindPath, Solve.
  destruct (Run fuel (AStar.Solve_begin s w start g)) as [s1|] eqn:E; [|discriminate].
  intros H. injection H as <- <-.
  apply Run_Run_iterations in E. subst s1.
  apply grown_result, grown_Run_iterations, grown_Solve_begin.
Qed.

(** X2.  The same with pool workers, in every interleaving of the
    critical sections of the threads. *)
Theorem FindPath_result_is_a_chain_in_every_interleaving
        (schedule : list nat) (s : Solver) (w : list Polygon) (start g : Vector2) :
  path_to_goal w start g
    (FindPath_result (run_schedule schedule (Interleaving.Solve_begin s w start g))).
Proof.
  unfold FindPath_result. apply grown_result.
  apply grown_run_schedule, grown_state_begin.
Qed.

End SearchPaths.

Lemma FindPath_returns_a_chain_of_successor_steps_witness :
  Props.path_to_goal [Examples.square] (Examples.pt (-1) 1) (Examples.pt 3 1)
    (Geometry.mkLineSequence
       [Examples.pt (-1) 1; Examples.pt 0 0; Examples.pt 2 0; Examples.pt 3 1]).
Proof.
  refine (@FindPath_returns_a_chain_of_successor_steps 20 AStar.solver0 _ _ _ _ _ _).
  vm_compute. reflexivity.
Defined.

Section Costs.

Import F32 Geometry AStar Spec Props.
Local Open Scope f32_scope.

Lemma pathLength_nonneg (n : Node) :
  finite_node n = true -> nonneg (pathLength n) = true.
Proof.
  unfold finite_node. intros H. unfold pathLength.
  destruct (ls_vertices (path n)) as [|v0 l]; [reflexivity|].
  cbn [forallb] in H. apply andb_true_iff in H. destruct H as [H0 Hl].
  cbn [adjacent_difference]. unfold transform_reduce. cbn [fold_left].
  apply (@transform_reduce_nonneg v0 l); auto.
  apply add_nonneg; [reflexivity|].
  unfold finite_point in H0. apply andb_true_iff in H0. destruct H0.
  apply Magnitude_nonneg; now apply finite_not_nan.
Qed.

Lemma finite_last (l : list Vector2) (d : Vector2) :
  forallb finite_point l = true -> finite_point d = true ->
  finite_point (last l d) = true.
Proof.
  revert d. induction l as [|v l IH]; intros d Hl Hd; [exact Hd|].
  cbn [forallb] in Hl. apply andb_true_iff in Hl. destruct Hl as [Hv Hl].
  rewrite last_cons_default. now apply IH.
Qed.

Lemma finite_position (n : Node) : finite_node n = true -> finite_point (position n) = true.
Proof. intros H. unfold position. now apply finite_last. Qed.

Lemma f_value_nonneg (g : Vector2) (n : Node) :
  finite_point g = true -> finite_node n = true -> nonneg (f_value g n) = true.
Proof.
  intros Hg Hn. unfold f_value. apply add_nonneg; [now apply pathLength_nonneg|].
  apply Magnitude_sub_nonneg; [exact Hg | now apply finite_position].
Qed.

(** X3.  The path length of a node whose points have finite coordinates
    is zero, a positive number or plus infinity: never negative, never
    NaN. *)
Theorem pathLength_is_never_negative (n : Node) :
  finite_node n = true ->
  nonneg (pathLength n) = true
  /\ is_nan (pathLength n) = false
  /\ (pathLength n < zero) = false.
Proof.
  intros H. pose proof (pathLength_nonneg n H) as Hn.
  repeat split; [exact Hn | now apply nonneg_not_nan |].
  destruct (pathLength n) as [[]| [] | |[] m e]; try discriminate; reflexivity.
Qed.


(** X5.  On nodes with finite coordinates, and for a goal with finite
    coordinates, the comparator of the fringe is a strict weak ordering,
    as [std::priority_queue] requires: irreflexive, asymmetric, and
    transitive together with its incomparability. *)
Theorem fringe_comp_is_a_strict_weak_ordering (g : Vector2) (n1 n2 n3 : Node) :
  finite_point g = true ->
  finite_node n1 = true -> finite_node n2 = true -> finite_node n3 = true ->
  fringe_comp g n1 n1 = false
  /\ (fringe_comp g n1 n2 = true -> fringe_comp g n2 n1 = false)
  /\ (fringe_comp g n1 n3 = true ->
      fringe_comp g n1 n2 = true \/ fringe_comp g n2 n3 = true)
  /\ (fringe_comp g n1 n2 = true -> fringe_comp g n2 n3 = true ->
      fringe_comp g n1 n3 = true).
Proof.
  intros Hg H1 H2 H3.
  pose proof (nonneg_not_nan _ (f_value_nonneg g n1 Hg H1)) as N1.
  pose proof (nonneg_not_nan _ (f_value_nonneg g n2 Hg H2)) as N2.
  pose proof (nonneg_not_nan _ (f_value_nonneg g n3 Hg H3)) as N3.
  unfold fringe_comp, gtb.
  fold (f_value g n1) (f_value g n2) (f_value g n3). fold ltb.
  assert (T : ltb (f_value g n3) (f_value g n1) = true ->
              ltb (f_value g n3) (f_value g n2) = true
              \/ ltb (f_value g n2) (f_value g n1) = true).
  { intros H. now apply ltb_negtrans. }
  repeat split.
  - apply ltb_irrefl.
  - apply ltb_asym.
  - intros H. destruct (T H); auto.
  - intros A B.
    destruct (ltb_negtrans (f_value g n3) (f_value g n1) (f_value g n2) B N1) as [C | C];
      [exact C|].
    apply ltb_asym in A. congruence.
Qed.

End Costs.

Lemma pathLength_is_never_negative_witness :
  F32.nonneg (AStar.pathLength Examples.over_the_top) = true
  /\ F32.is_nan (AStar.pathLength Examples.over_the_top) = false
  /\ F32.ltb (AStar.pathLength Examples.over_the_top) F32.zero = false.
Proof. apply pathLength_is_never_negative. reflexivity. Defined.


Lemma fringe_comp_is_a_strict_weak_ordering_witness :
  let g := Examples.kite_goal in
  let n1 := Examples.over_the_top in
  let n2 := Examples.under_the_bottom in
  let n3 := AStar.mkNode Examples.kite_start Examples.empty_path in
  AStar.fringe_comp g n1 n1 = false
  /\ (AStar.fringe_comp g n1 n2 = true -> AStar.fringe_comp g n2 n1 = false)
  /\ (AStar.fringe_comp g n1 n3 = true ->
      AStar.fringe_comp g n1 n2 = true \/ AStar.fringe_comp g n2 n3 = true)
  /\ (AStar.fringe_comp g n1 n2 = true -> AStar.fringe_comp g n2 n3 = true ->
      AStar.fringe_comp g n1 n3 = true).
Proof. cbv zeta. apply fringe_comp_is_a_strict_weak_ordering; reflexivity. Defined.

Section Fringe.

Import F32 Geometry AStar Spec.
Local Open Scope f32_scope.

Lemma top_pop_Permutation (comp : Node -> Node -> bool) (q rest : list Node) (n : Node) :
  top_pop comp q = Some (n, rest) -> Permutation q (n :: rest).
Proof.
  revert n rest. induction q as [|u q IH]; intros n rest; [discriminate|].
  cbn [top_pop]. destruct (top_pop comp q) as [[best rest']|] eqn:E.
  - destruct (comp u best); intros H; injection H as <- <-.
    + rewrite (IH best rest' eq_refl). apply perm_swap.
    + reflexivity.
  - intros H. injection H as <- <-. apply top_pop_None in E. now subst q.
Qed.

(** X6.  [AqcuireNextNodeInFringe] returns nothing exactly on an empty
    fringe, which it leaves as it is; otherwise it removes one node from
    the fringe, the other nodes staying, and, the priorities being numbers,
    no node left in the fringe has a priority [f] strictly smaller than the
    node taken.  No other field of the solver changes. *)
Theorem AqcuireNextNodeInFringe_takes_a_top_node (s s1 : Solver) (o : option Node) :
  Forall (fun m => is_nan (f_value (goal s) m) = false) (fringe s) ->
  AqcuireNextNodeInFringe s = (o, s1) ->
  s1 = set_fringe (fringe s1) s
  /\ match o with
     | None => fringe s = [] /\ fringe s1 = []
     | Some n =>
         Permutation (fringe s) (n :: fringe s1)
         /\ Forall (fun m => (f_value (goal s) m < f_value (goal s) n) = false) (fringe s1)
     end.
Proof.
  intros Hnum. unfold AqcuireNextNodeInFringe.
  destruct (top_pop (fringe_comp (goal s)) (fringe s)) as [[top rest]|] eqn:E;
    intros H; injection H as <- <-.
  - split; [reflexivity|]. cbn [fringe set_fringe]. split.
    + now apply top_pop_Permutation in E.
    + exact (@top_pop_is_top _ _ _ _ Hnum E).
  - apply top_pop_None in E. split; [now destruct s|]. now rewrite E.
Qed.

End Fringe.

Lemma AqcuireNextNodeInFringe_takes_a_top_node_witness :
  let s := AStar.set_fringe [Examples.under_the_bottom; Examples.over_the_top]
             (AStar.Solve_begin AStar.solver0 [Examples.kite] Examples.kite_start
                                Examples.kite_goal) in
  let s1 := AStar.set_fringe [Examples.under_the_bottom] s in
  s1 = AStar.set_fringe (AStar.fringe s1) s
  /\ Permutation (AStar.fringe s) (Examples.over_the_top :: AStar.fringe s1)
  /\ Forall (fun m => F32.ltb (Spec.f_value (AStar.goal s) m)
                              (Spec.f_value (AStar.goal s) Examples.over_the_top) = false)
            (AStar.fringe s1).
Proof.
  cbv zeta.
  refine (@AqcuireNextNodeInFringe_takes_a_top_node _ _ (Some Examples.over_the_top) _ _).
  - repeat constructor.
  - vm_compute. reflexivity.
Defined.

Section Successors.

Import F32 Geometry AStar Spec Shapes.
Local Open Scope f32_scope.

Lemma find_if_Some (pred : Vector2 -> bool) (vs : list Vector2) (i : nat) (d : Vector2) :
  find_if pred vs = Some i ->
  (i < length vs)%nat /\ pred (nth i vs d) = true.
Proof.
  revert i. induction vs as [|v vs IH]; intros i; [discriminate|].
  cbn [find_if]. destruct (pred v) eqn:E.
  - intros H. injection H as <-. cbn. split; [lia | exact E].
  - destruct (find_if pred vs) as [j|]; [|discriminate].
    intros H. injection H as <-. destruct (IH j eq_refl) as [A B].
    cbn. split; [lia | exact B].
Qed.

Lemma find_if_None (pred : Vector2 -> bool) (vs : list Vector2) (v : Vector2) :
  find_if pred vs = None -> In v vs -> pred v = false.
Proof.
  induction vs as [|u vs IH]; [easy|]. cbn [find_if].
  destruct (pred u) eqn:E; [discriminate|].
  destruct (find_if pred vs); [discriminate|].
  intros _ [<- | Hin]; auto.
Qed.

Lemma last_is_nth (A : Type) (l : list A) (d : A) : last l d = nth (length l - 1) l d.
Proof.
  induction l as [|v l IH]; [reflexivity|].
  destruct l as [|u l]; [reflexivity|].
  change (last (v :: u :: l) d) with (last (u :: l) d). rewrite IH.
  cbn [length]. replace (S (S (length l)) - 1)%nat with (S (S (length l) - 1)) by lia.
  reflexivity.
Qed.

Lemma polygon_successors_found
      (w : list Polygon) (pos : Vector2) (polygon : Polygon) (i : nat) :
  find_if (fun vertex => Vector2_eqb pos vertex) (vertices polygon) = Some i ->
  polygon_successors w pos polygon
  = [ nth ((i + length (vertices polygon) - 1) mod length (vertices polygon))
          (vertices polygon) pos;
      nth ((i + 1) mod length (vertices polygon)) (vertices polygon) pos ].
Proof.
  intros E. destruct (find_if_Some _ _ pos E) as [Hi Hp].
  unfold polygon_successors. rewrite E.
  set (n := length (vertices polygon)) in *. f_equal; [|f_equal].
  - destruct (Nat.eqb_spec i 0) as [-> | Hne].
    + rewrite last_is_nth. fold n. f_equal.
      replace (0 + n - 1)%nat with (n - 1)%nat by lia.
      symmetry. apply Nat.mod_small. lia.
    + f_equal. replace (i + n - 1)%nat with ((i - 1) + 1 * n)%nat by lia.
      rewrite Nat.Div0.mod_add. symmetry. apply Nat.mod_small. lia.
  - destruct (Nat.eqb_spec i (n - 1)) as [-> | Hne].
    + replace (n - 1 + 1)%nat with n by lia. rewrite Nat.Div0.mod_same.
      subst n. now destruct (vertices polygon).
    + f_equal. symmetry. apply Nat.mod_small. lia.
Qed.

(** X7.  "Discover neighbours": when the expanded position equals a vertex
    of a polygon, the polygon contributes the two ring neighbours of the
    first such vertex, the ring closing from the last vertex to the first,
    and no occlusion test is made for them. *)
Theorem polygon_successors_are_the_ring_neighbours
        (w : list Polygon) (pos : Vector2) (polygon : Polygon) (i : nat) :
  find_if (fun vertex => Vector2_eqb pos vertex) (vertices polygon) = Some i ->
  let n := length (vertices polygon) in
  (i < n)%nat
  /\ Vector2_eqb pos (nth i (vertices polygon) pos) = true
  /\ polygon_successors w pos polygon
     = [ nth ((i + n - 1) mod n) (vertices polygon) pos;
         nth ((i + 1) mod n) (vertices polygon) pos ].
Proof.
  intros E n. destruct (find_if_Some _ _ pos E) as [Hi Hp].
  split; [exact Hi|]. split; [exact Hp|]. now apply polygon_successors_found.
Qed.

Lemma polygon_successors_vertices (w : list Polygon) (pos q : Vector2) (polygon : Polygon) :
  In q (polygon_successors w pos polygon) ->
  In q (vertices polygon)
  /\ ((exists v, In v (vertices polygon) /\ Vector2_eqb pos v = true)
      \/ Intersect w (mkLine pos q) = false).
Proof.
  destruct (find_if (fun vertex => Vector2_eqb pos vertex) (vertices polygon)) as [i|] eqn:E.
  - rewrite (polygon_successors_found w pos polygon E).
    destruct (find_if_Some _ _ pos E) as [Hi Hp].
    assert (Hn : (0 < length (vertices polygon))%nat) by lia.
    intros Hq. split.
    + destruct Hq as [<- | [<- | []]]; apply nth_In; apply Nat.mod_upper_bound; lia.
    + left. exists (nth i (vertices polygon) pos). split; [now apply nth_In | exact Hp].
  - unfold polygon_successors. rewrite E.
    destruct (GetAnglularExtrema polygon pos) as [[leftMost rightMost]|] eqn:G; [|easy].
    apply GetAnglularExtrema_In in G. destruct G as [Hl Hr].
    rewrite in_app_iff.
    destruct (Intersect w (mkLine pos leftMost)) eqn:Il;
      destruct (Intersect w (mkLine pos rightMost)) eqn:Ir;
      cbn [negb In]; intuition; subst; auto.
Qed.

(** X8.  Every position [Run] hands to [Discover] for a node is the goal,
    and then the occlusion test classifies the segment to the goal as
    clear, or a vertex of a polygon of the world, and then the segment to
    it is classified as clear or the position equals a vertex of the same
    polygon. *)
Theorem successor_points_are_visible_or_on_the_same_ring
        (w : list Polygon) (g pos q : Vector2) :
  In q (successor_points w g pos) ->
  (q = g /\ Intersect w (mkLine pos g) = false)
  \/ exists polygon,
       In polygon w /\ In q (vertices polygon)
       /\ ((exists v, In v (vertices polygon) /\ Vector2_eqb pos v = true)
           \/ Intersect w (mkLine pos q) = false).
Proof.
  unfold successor_points. rewrite in_app_iff. intros [Hq | Hq].
  - left. destruct (Intersect w (mkLine pos g)); cbn in Hq; [easy|].
    destruct Hq as [<- | []]. auto.
  - right. apply in_flat_map in Hq. destruct Hq as (polygon & Hp & Hq).
    exists polygon. split; [exact Hp|]. now apply polygon_successors_vertices.
Qed.

End Successors.

Lemma polygon_successors_are_the_ring_neighbours_witness :
  Geometry.Vector2_eqb (Examples.pt 0 0) (Examples.pt 0 0) = true
  /\ AStar.polygon_successors [Examples.square] (Examples.pt 0 0) Examples.square
     = [Examples.pt 0 2; Examples.pt 2 0].
Proof.
  refine (proj2 (@polygon_successors_are_the_ring_neighbours
                   [Examples.square] (Examples.pt 0 0) Examples.square 0 _)).
  reflexivity.
Defined.

Lemma successor_points_are_visible_or_on_the_same_ring_witness :
  (Examples.pt 0 0 = Examples.pt 3 1
   /\ Geometry.Intersect [Examples.square] (Geometry.mkLine (Examples.pt (-1) 1) (Examples.pt 3 1))
      = false)
  \/ exists polygon,
       In polygon [Examples.square] /\ In (Examples.pt 0 0) (Geometry.vertices polygon)
       /\ ((exists v, In v (Geometry.vertices polygon)
                      /\ Geometry.Vector2_eqb (Examples.pt (-1) 1) v = true)
           \/ Geometry.Intersect [Examples.square]
                (Geometry.mkLine (Examples.pt (-1) 1) (Examples.pt 0 0)) = false).
Proof.
  apply successor_points_are_visible_or_on_the_same_ring.
  vm_compute. auto.
Defined.

Section Queries.

Import F32 Geometry AStar Spec.
Local Open Scope f32_scope.

Lemma Run_body_frame (node : Node) (s : Solver) :
  threadPool (Run_body node s) = threadPool s
  /\ world (Run_body node s) = world s
  /\ goal (Run_body node s) = goal s.
Proof.
  rewrite Run_body_unfold.
  destruct (Discover_all_frame (successors (world s) (goal s) node) (complete_if_goal node s))
    as (A & _ & B & C).
  destruct (complete_if_goal_frame node s) as (D & E & _ & _).
  repeat split; try congruence.
  rewrite A. unfold complete_if_goal. now destruct (Vector2_eqb (position node) (goal s)).
Qed.



End Queries.


(* ===================================================================== *)
(** ** Further properties of the geometric functions *)
(* ===================================================================== *)

Section Containment.

Import F32 Geometry AStar Spec Props Shapes.
Local Open Scope f32_scope.

Lemma ltb_trans (u v w : float) :
  is_nan v = false -> ltb u v = true -> ltb v w = true -> ltb u w = true.
Proof.
  intros Nv A B.
  assert (Nw : is_nan w = false).
  { destruct w; try reflexivity. unfold ltb, SFltb in B.
    destruct v as [[]|[]| |[]]; discriminate. }
  destruct (ltb_negtrans u w v A Nw) as [C | C]; [exact C|].
  apply ltb_asym in B. congruence.
Qed.

(** [std::ranges::minmax] with [<] over numbers: no element is below the
    minimum or above the maximum. *)
Lemma minmax_from_bounds (rest : list float) (mn mx v : float) :
  is_nan mn = false -> is_nan mx = false ->
  forallb (fun u => negb (is_nan u)) rest = true ->
  ltb mx mn = false ->
  (ltb v mn = false /\ ltb mx v = false /\ is_nan v = false) \/ In v rest ->
  ltb v (fst (minmax_from ltb mn mx rest)) = false
  /\ ltb (snd (minmax_from ltb mn mx rest)) v = false.
Proof.
  revert mn mx. induction rest as [|u rest IH]; intros mn mx Nmn Nmx Nrest Hmm Hv.
  - cbn. destruct Hv as [(A & B & _) | []]. auto.
  - cbn [forallb] in Nrest. apply andb_true_iff in Nrest. destruct Nrest as [Nu Nrest].
    apply negb_true_iff in Nu.
    assert (Nv : is_nan v = false).
    { destruct Hv as [(_ & _ & N) | [<- | Hin]]; auto.
      rewrite forallb_forall in Nrest. now apply negb_true_iff, Nrest. }
    cbn [minmax_from].
    destruct (ltb u mn) eqn:E1; [|destruct (ltb u mx) eqn:E2].
    + (* u is the new minimum *)
      apply IH; auto.
      * destruct (ltb mx u) eqn:C; [|reflexivity].
        rewrite (ltb_trans _ _ _ Nu C E1) in Hmm. discriminate.
      * destruct Hv as [(A & B & N) | [<- | Hin]]; [left | left | now right].
        -- repeat split; auto.
           destruct (ltb v u) eqn:C; [|reflexivity].
           rewrite (ltb_trans _ _ _ Nu C E1) in A. discriminate.
        -- repeat split; auto; [apply ltb_irrefl|].
           destruct (ltb mx u) eqn:C; [|reflexivity].
           rewrite (ltb_trans _ _ _ Nu C E1) in Hmm. discriminate.
    + (* u lies between *)
      apply IH; auto.
      destruct Hv as [(A & B & N) | [<- | Hin]]; [left | left | now right]; auto.
      repeat split; auto. now apply ltb_asym.
    + (* u is the new maximum *)
      apply IH; auto.
      destruct Hv as [(A & B & N) | [<- | Hin]]; [left | left | now right].
      * repeat split; auto.
        destruct (ltb u v) eqn:C; [|reflexivity].
        destruct (ltb_negtrans u mx v C Nmx); congruence.
      * repeat split; auto. apply ltb_irrefl.
Qed.

Lemma projection_minmax_bounds (polygon : Polygon) (normal v : Vector2) :
  forallb (fun vertex => negb (is_nan (Dot vertex normal))) (vertices polygon) = true ->
  In v (vertices polygon) ->
  ltb (Dot v normal) (fst (projection_minmax polygon normal)) = false
  /\ ltb (snd (projection_minmax polygon normal)) (Dot v normal) = false.
Proof.
  unfold projection_minmax, minmax. intros Hn Hv.
  destruct (vertices polygon) as [|first rest]; [easy|].
  cbn [map forallb] in *. apply andb_true_iff in Hn. destruct Hn as [N1 Nr].
  apply negb_true_iff in N1.
  apply minmax_from_bounds; auto.
  - rewrite forallb_forall in *. intros u Hu. apply in_map_iff in Hu.
    destruct Hu as (p & <- & Hp). now apply Nr.
  - apply ltb_irrefl.
  - destruct Hv as [<- | Hin].
    + left. repeat split; auto; apply ltb_irrefl.
    + right. apply in_map_iff. exists v. auto.
Qed.

(** X10.  [InPolygon] includes the boundary: a polygon of at least three
    vertices, whose vertices map to numbers on its edge normals, contains
    each of its own vertices. *)
Theorem InPolygon_contains_the_vertices (polygon : Polygon) (v : Vector2) :
  (3 <= length (vertices polygon))%nat ->
  projections_are_numbers polygon = true ->
  In v (vertices polygon) ->
  InPolygon polygon v = true.
Proof.
  intros Hlen Hnum Hv. unfold InPolygon.
  destruct (Nat.ltb_spec (length (vertices polygon)) 3) as [C|_]; [lia|].
  apply forallb_forall. intros normal Hnormal.
  unfold projections_are_numbers in Hnum. rewrite forallb_forall in Hnum.
  destruct (projection_minmax_bounds polygon normal v (Hnum _ Hnormal) Hv) as [A B].
  destruct (projection_minmax polygon normal) as [min max]. cbn [fst snd] in *.
  unfold gtb. fold ltb. now rewrite A, B.
Qed.

Lemma InPolygon_world_Some (world : list Polygon) (point : Vector2) (i : nat) :
  InPolygon_world world point = Some i ->
  exists polygon,
    nth_error world i = Some polygon
    /\ InPolygon polygon point = true
    /\ forall j earlier, (j < i)%nat -> nth_error world j = Some earlier ->
                         InPolygon earlier point = false.
Proof.
  revert i. induction world as [|p world IH]; intros i; [discriminate|].
  cbn [InPolygon_world]. destruct (InPolygon p point) eqn:E.
  - intros H. injection H as <-. exists p. repeat split; auto. intros j e Hj. lia.
  - destruct (InPolygon_world world point) as [k|]; [|discriminate].
    intros H. injection H as <-. destruct (IH k eq_refl) as (q & A & B & C).
    exists q. repeat split; auto.
    intros [|j] e Hj Hn; cbn in Hn; [congruence|]. apply (C j); [lia | exact Hn].
Qed.

Lemma InPolygon_world_None (world : list Polygon) (point : Vector2) :
  InPolygon_world world point = None <->
  forall polygon, In polygon world -> InPolygon polygon point = false.
Proof.
  induction world as [|p world IH]; cbn [InPolygon_world].
  - split; [intros _ q []|reflexivity].
  - destruct (InPolygon p point) eqn:E.
    + split; [discriminate|]. intros H. rewrite (H p) in E; [discriminate | now left].
    + destruct (InPolygon_world world point) as [k|].
      * split; [discriminate|]. intros H.
        assert (F : forall q, In q world -> InPolygon q point = false)
          by (intros q Hq; apply H; now right).
        apply IH in F. discriminate.
      * split; [|reflexivity]. intros _ q [<- | Hq]; [exact E|].
        now apply (proj1 IH).
Qed.

(** X11.  [InPolygon(world, point)] returns the first polygon of the world
    that contains the point, and [world.end()] exactly when no polygon of
    the world contains it. *)
Theorem InPolygon_world_finds_the_first_polygon (world : list Polygon) (point : Vector2) :
  match InPolygon_world world point with
  | Some i =>
      exists polygon,
        nth_error world i = Some polygon
        /\ InPolygon polygon point = true
        /\ forall j earlier, (j < i)%nat -> nth_error world j = Some earlier ->
                             InPolygon earlier point = false
  | None => forall polygon, In polygon world -> InPolygon polygon point = false
  end.
Proof.
  destruct (InPolygon_world world point) as [i|] eqn:E.
  - now apply InPolygon_world_Some.
  - now apply InPolygon_world_None.
Qed.

(** X12.  For every polygon with a vertex and every view point,
    [GetAnglularExtrema] returns two vertices of the polygon; both are the
    single vertex when there is only one. *)
Theorem GetAnglularExtrema_returns_vertices (polygon : Polygon) (viewPoint : Vector2) :
  vertices polygon <> [] ->
  exists leftMost rightMost,
    GetAnglularExtrema polygon viewPoint = Some (leftMost, rightMost)
    /\ In leftMost (vertices polygon) /\ In rightMost (vertices polygon)
    /\ (forall v, vertices polygon = [v] -> leftMost = v /\ rightMost = v).
Proof.
  intros Hne.
  destruct (GetAnglularExtrema polygon viewPoint) as [[l r]|] eqn:E.
  - exists l, r. destruct (GetAnglularExtrema_In _ _ E) as [A B].
    split; [reflexivity|]. split; [exact A|]. split; [exact B|].
    intros v Hv. rewrite Hv in A, B. cbn in A, B. intuition.
  - unfold GetAnglularExtrema, minmax in E. destruct (vertices polygon); [congruence|discriminate].
Qed.

End Containment.

Lemma InPolygon_contains_the_vertices_witness :
  Geometry.InPolygon Examples.kite Examples.kite_top = true.
Proof.
  apply InPolygon_contains_the_vertices.
  - cbn. lia.
  - reflexivity.
  - cbn. auto.
Defined.

Lemma GetAnglularExtrema_returns_vertices_witness :
  exists leftMost rightMost,
    Geometry.GetAnglularExtrema Examples.kite Examples.kite_start = Some (leftMost, rightMost)
    /\ In leftMost (Geometry.vertices Examples.kite)
    /\ In rightMost (Geometry.vertices Examples.kite)
    /\ (forall v, Geometry.vertices Examples.kite = [v] -> leftMost = v /\ rightMost = v).
Proof. apply GetAnglularExtrema_returns_vertices. discriminate. Defined.

Section Mirror.

Import F32 Geometry Angles.
Local Open Scope f32_scope.

Lemma same_number_refl (u : float) : same_number u u.
Proof. now destruct u. Qed.

Lemma same_number_sym (u v : float) : same_number u v -> same_number v u.
Proof. destruct u, v; cbn; auto; congruence. Qed.

Lemma same_number_trans (u v w : float) :
  same_number u v -> same_number v w -> same_number u w.
Proof. destruct u, v, w; cbn; auto; congruence. Qed.

Lemma same_number_eq (u v : float) : u = v -> same_number u v.
Proof. intros ->. apply same_number_refl. Qed.

Lemma binary_round_aux_opp (pr em : Z) (s : bool) (m e : Z) (l : location) :
  binary_round_aux pr em (negb s) m e l = SFopp (binary_round_aux pr em s m e l).
Proof.
  unfold binary_round_aux.
  destruct (shr_fexp pr em m e l) as [mrs' e'].
  destruct (shr_fexp pr em (round_nearest_even (shr_m mrs') (loc_of_shr_record mrs')) e' loc_Exact)
    as [mrs'' e''].
  destruct (shr_m mrs''); [reflexivity | | reflexivity].
  now destruct (e'' <=? em - pr)%Z.
Qed.

Lemma binary_round_opp (pr em : Z) (s : bool) (m : positive) (e : Z) :
  binary_round pr em (negb s) m e = SFopp (binary_round pr em s m e).
Proof.
  unfold binary_round. destruct (shl_align m e _) as [mz ez]. apply binary_round_aux_opp.
Qed.

Lemma binary_normalize_opp (pr em z e : Z) :
  same_number (binary_normalize pr em (- z) e false)
              (SFopp (binary_normalize pr em z e false)).
Proof.
  destruct z as [|m|m]; cbn [Z.opp binary_normalize].
  - exact I.
  - apply same_number_eq. apply (binary_round_opp pr em false).
  - apply same_number_eq. rewrite (binary_round_opp pr em false).
    now destruct (binary_round pr em false m e) as [[]|[]| |[]].
Qed.

(** [v - u] is the opposite of [u - v]. *)
Lemma sub_opposite (u v : float) : same_number (v - u) (- (u - v)).
Proof.
  destruct u as [su|su| |su mu eu], v as [sv|sv| |sv mv ev];
    try (destruct su; try destruct sv; exact I || reflexivity);
    try (destruct sv; exact I || reflexivity);
    try reflexivity.
  unfold sub, neg, SFsub. rewrite (Z.min_comm ev eu).
  match goal with
  | |- same_number (binary_normalize _ _ (?a - ?b) _ _) _ =>
      replace (a - b)%Z with (- (b - a))%Z by lia
  end.
  apply binary_normalize_opp.
Qed.

Lemma mul_commutes (u v : float) : u * v = v * u.
Proof.
  destruct u as [su|su| |su mu eu], v as [sv|sv| |sv mv ev]; cbn;
    try (now rewrite xorb_comm); try reflexivity.
  now rewrite xorb_comm, Pos.mul_comm, Z.add_comm.
Qed.

Lemma mul_opp_opp (u v : float) : (- u) * (- v) = u * v.
Proof.
  assert (X : forall a b, xorb (negb a) (negb b) = xorb a b) by (intros [] []; reflexivity).
  destruct u as [su|su| |su mu eu], v as [sv|sv| |sv mv ev]; cbn; try reflexivity;
    now rewrite X.
Qed.

Lemma same_number_cases (u v : float) :
  same_number u v -> (exists s s', u = S754_zero s /\ v = S754_zero s') \/ u = v.
Proof. destruct u, v; cbn; eauto. Qed.

Lemma mul_same_number (u u' v v' : float) :
  same_number u u' -> same_number v v' -> same_number (u * v) (u' * v').
Proof.
  intros Hu Hv.
  destruct (same_number_cases _ _ Hu) as [(s1 & s1' & -> & ->) | <-];
    destruct (same_number_cases _ _ Hv) as [(s2 & s2' & -> & ->) | <-].
  - exact I.
  - destruct v as [sv|sv| |sv mv ev]; cbn; auto.
  - destruct u as [su|su| |su mu eu]; cbn; auto.
  - apply same_number_refl.
Qed.

Lemma sub_same_number (u u' v v' : float) :
  same_number u u' -> same_number v v' -> same_number (u - v) (u' - v').
Proof.
  intros Hu Hv.
  destruct (same_number_cases _ _ Hu) as [(s1 & s1' & -> & ->) | <-];
    destruct (same_number_cases _ _ Hv) as [(s2 & s2' & -> & ->) | <-].
  - destruct s1, s1', s2, s2'; exact I.
  - destruct v as [sv|sv| |sv mv ev]; cbn; auto.
    destruct s1, s1', sv; exact I.
  - destruct u as [su|su| |su mu eu]; cbn; auto.
    destruct su, s2, s2'; exact I.
  - apply same_number_refl.
Qed.

Lemma neg_same_number (u v : float) : same_number u v -> same_number (- u) (- v).
Proof.
  destruct u as [su|su| |su mu eu], v as [sv|sv| |sv mv ev]; cbn; auto; try discriminate;
    intros H; injection H; intros; subst; reflexivity.
Qed.

Lemma compare_zero_same_number (u v : float) :
  same_number u v -> SFcompare u zero = SFcompare v zero.
Proof.
  destruct u as [su|su| |su mu eu], v as [sv|sv| |sv mv ev]; cbn; auto; try discriminate;
    intros H; injection H; intros; subst; reflexivity.
Qed.

Lemma compare_zero_opp (u : float) :
  SFcompare (- u) zero = option_map CompOpp (SFcompare u zero).
Proof. destruct u as [[]|[]| |[] m e]; reflexivity. Qed.

Lemma CrossZ_reversed (A B C : Vector2) :
  same_number (CrossZ (Vector2_sub B C) (Vector2_sub A B))
              (- CrossZ (Vector2_sub B A) (Vector2_sub C B)).
Proof.
  unfold CrossZ, Vector2_sub. cbn [x y].
  set (ux := x B - x A). set (uy := y B - y A).
  set (wx := x C - x B). set (wy := y C - y B).
  assert (Hx : same_number (x B - x C) (- wx)) by apply sub_opposite.
  assert (Hy : same_number (y B - y C) (- wy)) by apply sub_opposite.
  assert (Hx' : same_number (x A - x B) (- ux)) by apply sub_opposite.
  assert (Hy' : same_number (y A - y B) (- uy)) by apply sub_opposite.
  assert (H1 : same_number ((x B - x C) * (y A - y B)) (uy * wx)).
  { eapply same_number_trans; [apply (mul_same_number _ _ _ _ Hx Hy')|].
    rewrite mul_opp_opp, mul_commutes. apply same_number_refl. }
  assert (H2 : same_number ((y B - y C) * (x A - x B)) (ux * wy)).
  { eapply same_number_trans; [apply (mul_same_number _ _ _ _ Hy Hx')|].
    rewrite mul_opp_opp, mul_commutes. apply same_number_refl. }
  eapply same_number_trans; [apply (sub_same_number _ _ _ _ H1 H2)|].
  apply sub_opposite.
Qed.

Lemma DirectionOfAngle_mirror (A B C : Vector2) :
  DirectionOfAngle C B A = mirror (DirectionOfAngle A B C).
Proof.
  unfold DirectionOfAngle.
  rewrite (compare_zero_same_number _ _ (CrossZ_reversed A B C)), compare_zero_opp.
  now destruct (SFcompare (CrossZ (Vector2_sub B A) (Vector2_sub C B)) zero) as [[]|].
Qed.

(** X13.  Seen from the other side an angle turns the other way: for all
    points, whatever their coordinates, [DirectionOfAngle(C, B, A)] is
    CLOCKWISE when [DirectionOfAngle(A, B, C)] is COUNTERCLOCKWISE and
    conversely, and STRAIGHT or UNDEFINED when it is.  So the order by
    which [GetAnglularExtrema] picks the extrema is irreflexive and
    asymmetric. *)
Theorem DirectionOfAngle_reversed_is_mirrored (A B C : Vector2) :
  DirectionOfAngle C B A = mirror (DirectionOfAngle A B C)
  /\ angular_comp B A A = false
  /\ (angular_comp B A C = true -> angular_comp B C A = false).
Proof.
  split; [apply DirectionOfAngle_mirror|]. unfold angular_comp. split.
  - pose proof (DirectionOfAngle_mirror A B A) as H.
    now destruct (DirectionOfAngle A B A).
  - rewrite (DirectionOfAngle_mirror A B C).
    now destruct (DirectionOfAngle A B C).
Qed.

End Mirror.

(* ===================================================================== *)
(** ** Colours and pixels *)
(* ===================================================================== *)

Section Channels.

Import Colors.
Local Open Scope Z_scope.

(** X14.  [Color(uint32_t)] takes the four bytes of its argument apart,
    red first: for a 32-bit argument the channels are bytes that put
    together again give the argument, and the colour made from four bytes
    put together has those bytes as its channels. *)
Theorem Color_of_rgba_round_trip (rgba : Z) (c : Color) :
  0 <= rgba < 2 ^ 32 ->
  is_uint8 (r c) -> is_uint8 (g c) -> is_uint8 (b c) -> is_uint8 (a c) ->
  (is_uint8 (r (Color_of_rgba rgba)) /\ is_uint8 (g (Color_of_rgba rgba))
   /\ is_uint8 (b (Color_of_rgba rgba)) /\ is_uint8 (a (Color_of_rgba rgba))
   /\ rgba_of (Color_of_rgba rgba) = rgba)
  /\ (0 <= rgba_of c < 2 ^ 32 /\ Color_of_rgba (rgba_of c) = c).
Proof.
  intros H Hr Hg Hb Ha. split.
  - assert (Hbyte : forall n, is_uint8 (to_uint8 n)).
    { intros n. unfold is_uint8, to_uint8. apply Z.mod_pos_bound. lia. }
    repeat split; try apply Hbyte.
    unfold rgba_of, Color_of_rgba, to_uint8. cbn [r g b a].
    rewrite !Z.shiftr_div_pow2 by lia.
    change (2 ^ 24) with 16777216. change (2 ^ 16) with 65536. change (2 ^ 8) with 256.
    change (2 ^ 32) with 4294967296 in H.
    Z.div_mod_to_equations. lia.
  - destruct c as [cr cg cb ca]. unfold is_uint8, rgba_of in *. cbn [r g b a] in *.
    split; [lia|].
    unfold Color_of_rgba, to_uint8. rewrite !Z.shiftr_div_pow2 by lia.
    change (2 ^ 24) with 16777216. change (2 ^ 16) with 65536. change (2 ^ 8) with 256.
    f_equal; Z.div_mod_to_equations; lia.
Qed.

End Channels.

Lemma Color_of_rgba_round_trip_witness :
  Colors.ORANGE = Colors.mkColor 255 128 255 255
  /\ Colors.rgba_of Colors.ORANGE = 0xFF80FFFF%Z
  /\ Colors.Color_of_rgba (Colors.rgba_of (Colors.mkColor 255 128 255 255))
     = Colors.mkColor 255 128 255 255.
Proof.
  split; [reflexivity|].
  destruct (@Color_of_rgba_round_trip 0xFF80FFFF%Z (Colors.mkColor 255 128 255 255))
    as [(_ & _ & _ & _ & A) [_ B]];
    try (unfold Colors.is_uint8; cbn; lia).
  split; [exact A | exact B].
Defined.

Section Pixels.

Import F32 Geometry Vectors SpaceConversions Props.
Local Open Scope Z_scope.

Lemma below_checked (check : Z -> bool) (n : nat) :
  forallb (fun i => check (Z.of_nat i)) (seq 0 n) = true ->
  forall p, 0 <= p < Z.of_nat n -> check p = true.
Proof.
  intros H p Hp. rewrite forallb_forall in H.
  rewrite <- (Z2Nat.id p) by lia. apply H. apply in_seq. lia.
Qed.

Lemma columns_come_back (px : Z) :
  0 <= px < 720 -> within_a_pixel column_back px = true.
Proof. apply (@below_checked (within_a_pixel column_back) 720). vm_compute. reflexivity. Qed.

Lemma rows_come_back (py : Z) :
  0 <= py < 480 -> within_a_pixel row_back py = true.
Proof. apply (@below_checked (within_a_pixel row_back) 480). vm_compute. reflexivity. Qed.

(** X15.  A pixel of the window taken to world space and back lands on
    itself or on the pixel before it, in each coordinate, and the
    conversion to [int] stays in range.  (One pixel is indeed lost for
    some pixels: (1, 1) comes back as (0, 0).) *)
Theorem WorldToScreen_ScreenToWorld_within_a_pixel (p : Vector2i) :
  in_window p ->
  exists q,
    WorldToScreen (ScreenToWorld p) = Some q
    /\ xi p - 1 <= xi q <= xi p /\ yi p - 1 <= yi q <= yi p.
Proof.
  destruct p as [px py]. intros [Hx Hy]. cbn [xi yi WINDOW_DIMENSIONS] in *.
  pose proof (columns_come_back Hx) as Cx. pose proof (rows_come_back Hy) as Cy.
  unfold within_a_pixel, column_back, row_back in Cx, Cy.
  unfold WorldToScreen, Vector2_add.
  change (x (ScreenToWorld (mkVector2i px py))) with (x (ScreenToWorld (mkVector2i px 0))).
  change (y (ScreenToWorld (mkVector2i px py))) with (y (ScreenToWorld (mkVector2i 0 py))).
  cbv zeta. cbn [x y].
  destruct (int_of_float _) as [qx|] in Cx |- *; [|discriminate].
  destruct (int_of_float _) as [qy|] in Cy |- *; [|discriminate].
  exists (mkVector2i qx qy). cbn [xi yi]. split; [reflexivity|]. lia.
Qed.

Lemma increasing_from_steps (f : Z -> float) (n : Z) :
  (forall p, 0 <= p < n -> step_up f p = true) ->
  forall p q, 0 <= p -> p < q -> q <= n -> ltb (f p) (f q) = true.
Proof.
  intros H p q Hp Hpq Hq.
  replace q with (p + 1 + Z.of_nat (Z.to_nat (q - p - 1))) by lia.
  assert (Hk : p + 1 + Z.of_nat (Z.to_nat (q - p - 1)) <= n) by lia.
  induction (Z.to_nat (q - p - 1)) as [|k IH].
  - rewrite Z.add_0_r. specialize (H p ltac:(lia)). unfold step_up in H.
    now apply andb_true_iff in H.
  - specialize (IH ltac:(lia)).
    specialize (H (p + 1 + Z.of_nat k) ltac:(lia)). unfold step_up in H.
    apply andb_true_iff in H. destruct H as [H Hlt]. apply andb_true_iff in H.
    destruct H as [Hn _]. apply negb_true_iff in Hn.
    replace (p + 1 + Z.of_nat (S k)) with (p + 1 + Z.of_nat k + 1) by lia.
    exact (ltb_trans _ _ _ Hn IH Hlt).
Qed.

(** X16.  Over the window [ScreenToWorld] is strictly increasing in each
    coordinate: the world coordinate depends on the pixel coordinate of its
    own axis only, and a pixel further right (further down) has a strictly
    greater world [x] ([y]), so no two pixels share a world position. *)
Theorem ScreenToWorld_is_strictly_increasing (p q : Vector2i) :
  in_window p -> in_window q ->
  (xi p < xi q -> ltb (x (ScreenToWorld p)) (x (ScreenToWorld q)) = true)
  /\ (yi p < yi q -> ltb (y (ScreenToWorld p)) (y (ScreenToWorld q)) = true)
  /\ (Vector2_eqb (ScreenToWorld p) (ScreenToWorld q) = true -> p = q).
Proof.
  intros [Hpx Hpy] [Hqx Hqy]. destruct p as [px py], q as [qx qy].
  cbn [xi yi WINDOW_DIMENSIONS] in *.
  assert (X : forall u v, 0 <= u -> u < v -> v <= 719 ->
              ltb (column_world u) (column_world v) = true).
  { apply increasing_from_steps. apply (@below_checked (step_up column_world) 719).
    vm_compute. reflexivity. }
  assert (Y : forall u v, 0 <= u -> u < v -> v <= 479 ->
              ltb (row_world u) (row_world v) = true).
  { apply increasing_from_steps. apply (@below_checked (step_up row_world) 479).
    vm_compute. reflexivity. }
  change (x (ScreenToWorld (mkVector2i px py))) with (column_world px).
  change (x (ScreenToWorld (mkVector2i qx qy))) with (column_world qx).
  change (y (ScreenToWorld (mkVector2i px py))) with (row_world py).
  change (y (ScreenToWorld (mkVector2i qx qy))) with (row_world qy).
  split; [intros H; apply X; lia|]. split; [intros H; apply Y; lia|].
  unfold Vector2_eqb.
  change (x (ScreenToWorld (mkVector2i px py))) with (column_world px).
  change (x (ScreenToWorld (mkVector2i qx qy))) with (column_world qx).
  change (y (ScreenToWorld (mkVector2i px py))) with (row_world py).
  change (y (ScreenToWorld (mkVector2i qx qy))) with (row_world qy).
  intros E. apply andb_true_iff in E. destruct E as [Ex Ey].
  assert (D : forall (f : Z -> float) u v, ltb (f u) (f v) = true -> eqb (f u) (f v) = true -> False).
  { intros f u v L E. unfold ltb, SFltb, eqb, SFeqb in *.
    destruct (SFcompare (f u) (f v)) as [[]|]; discriminate. }
  assert (px = qx).
  { destruct (Z.lt_trichotomy px qx) as [L | [L | L]]; [|exact L|].
    - exfalso. apply (D column_world px qx); [apply X; lia | exact Ex].
    - exfalso. apply (D column_world qx px); [apply X; lia | now apply eqb_sym]. }
  assert (py = qy).
  { destruct (Z.lt_trichotomy py qy) as [L | [L | L]]; [|exact L|].
    - exfalso. apply (D row_world py qy); [apply Y; lia | exact Ey].
    - exfalso. apply (D row_world qy py); [apply Y; lia | now apply eqb_sym]. }
  congruence.
Qed.

End Pixels.

Lemma WorldToScreen_ScreenToWorld_within_a_pixel_witness :
  SpaceConversions.WorldToScreen
    (SpaceConversions.ScreenToWorld (SpaceConversions.mkVector2i 1 1))
  = Some (SpaceConversions.mkVector2i 0 0)
  /\ exists q,
      SpaceConversions.WorldToScreen
        (SpaceConversions.ScreenToWorld (SpaceConversions.mkVector2i 1 1)) = Some q
      /\ (1 - 1 <= SpaceConversions.xi q <= 1)%Z /\ (1 - 1 <= SpaceConversions.yi q <= 1)%Z.
Proof.
  split; [vm_compute; reflexivity|].
  apply (@WorldToScreen_ScreenToWorld_within_a_pixel (SpaceConversions.mkVector2i 1 1)).
  split; cbn; lia.
Defined.

Lemma ScreenToWorld_is_strictly_increasing_witness :
  let p := SpaceConversions.mkVector2i 10 20 in
  let q := SpaceConversions.mkVector2i 11 400 in
  (SpaceConversions.xi p < SpaceConversions.xi q ->
   F32.ltb (Geometry.x (SpaceConversions.ScreenToWorld p))
           (Geometry.x (SpaceConversions.ScreenToWorld q)) = true)%Z
  /\ (SpaceConversions.yi p < SpaceConversions.yi q ->
      F32.ltb (Geometry.y (SpaceConversions.ScreenToWorld p))
              (Geometry.y (SpaceConversions.ScreenToWorld q)) = true)%Z
  /\ (Geometry.Vector2_eqb (SpaceConversions.ScreenToWorld p)
                           (SpaceConversions.ScreenToWorld q) = true -> p = q).
Proof.
  cbv zeta. apply ScreenToWorld_is_strictly_increasing; split; cbn; lia.
Defined.

(* ===================================================================== *)
(** ** The handshake with the pool workers *)
(* ===================================================================== *)

Section Handshake.

Import Geometry AStar Interleaving Workers.

Lemma nth_error_update_same (A : Type) (i : nat) (f : A -> A) (l : list A) :
  nth_error (update i f l) i = option_map f (nth_error l i).
Proof.
  revert i. induction l as [|v l IH]; intros [|i]; cbn; auto.
Qed.

Lemma nth_error_update_other (A : Type) (i j : nat) (f : A -> A) (l : list A) :
  i <> j -> nth_error (update i f l) j = nth_error l j.
Proof.
  revert i j. induction l as [|v l IH]; intros [|i] [|j] H; cbn; auto; try congruence.
Qed.

Lemma length_update (A : Type) (i : nat) (f : A -> A) (l : list A) :
  length (update i f l) = length l.
Proof. revert i. induction l as [|v l IH]; intros [|i]; cbn; auto. Qed.

Lemma step_thread_threadPool (c : control) (s : Solver) :
  threadPool (snd (step_thread c s)) = threadPool s.
Proof.
  destruct c as [|node|node|pending|node pending|]; cbn [step_thread].
  - unfold AqcuireNextNodeInFringe.
    now destruct (top_pop (fringe_comp (goal s)) (fringe s)) as [[top rest]|].
  - now destruct (done node s).
  - cbn. unfold complete_if_goal. now destruct (Vector2_eqb (position node) (goal s)).
  - destruct pending as [|candidate pending]; [reflexivity|].
    unfold Discover_set. destruct (find (discoveredNodes s) candidate) as [found|].
    + now destruct (F32.ltb (pathLength found) (pathLength candidate)).
    + reflexivity.
  - reflexivity.
  - reflexivity.
Qed.

Lemma update_id (A : Type) (i : nat) (l : list A) : update i (fun v => v) l = l.
Proof. revert i. induction l as [|v l IH]; intros [|i]; cbn; auto. now rewrite IH. Qed.

(** The record and the control state of one worker change. *)
Lemma workers_ok_update (m m' : main_control) (pool : list WorkerThread)
      (ws : list worker_control) (i : nat)
      (f : WorkerThread -> WorkerThread) (h : worker_control -> worker_control) :
  workers_ok m pool ws ->
  (forall j, j <> i -> started m' j = started m j) ->
  (forall t c, nth_error pool i = Some t -> nth_error ws i = Some c ->
               worker_ok (started m i) t c = true ->
               worker_ok (started m' i) (f t) (h c) = true) ->
  workers_ok m' (update i f pool) (update i h ws).
Proof.
  intros Hw Hother Hi j t c. destruct (Nat.eq_dec i j) as [<- | Hne].
  - rewrite !nth_error_update_same.
    destruct (nth_error pool i) as [t0|] eqn:Et; [|discriminate].
    destruct (nth_error ws i) as [c0|] eqn:Ec; [|discriminate].
    cbn. intros E1 E2. injection E1 as <-. injection E2 as <-.
    apply Hi; auto.
  - rewrite !nth_error_update_other by exact Hne. intros Et Ec.
    rewrite Hother by congruence. now apply Hw.
Qed.

(** Only the calling thread moves on. *)
Lemma workers_ok_phase (m m' : main_control) (pool : list WorkerThread)
      (ws : list worker_control) :
  workers_ok m pool ws ->
  (forall j, (j < length pool)%nat -> started m' j = started m j) ->
  workers_ok m' pool ws.
Proof.
  intros Hw Hsame j t c Et Ec. rewrite Hsame; [now apply Hw|].
  apply nth_error_Some. congruence.
Qed.

Lemma both_there (pool : list WorkerThread) (ws : list worker_control) (j : nat) :
  length ws = length pool ->
  (forall t, nth_error pool j = Some t -> exists c, nth_error ws j = Some c)
  /\ (forall c, nth_error ws j = Some c -> exists t, nth_error pool j = Some t).
Proof.
  intros Hlen. split.
  - intros t Et. destruct (nth_error ws j) as [c|] eqn:Ec; [eauto|].
    apply nth_error_None in Ec. assert (j < length pool)%nat; [|lia].
    apply nth_error_Some. congruence.
  - intros c Ec. destruct (nth_error pool j) as [t|] eqn:Et; [eauto|].
    apply nth_error_None in Et. assert (j < length ws)%nat; [|lia].
    apply nth_error_Some. congruence.
Qed.

Ltac crush_worker :=
  repeat match goal with
         | t : WorkerThread |- _ => destruct t as [[] [] []]
         | c : worker_control |- _ => destruct c
         end;
  cbn in *; try discriminate; try reflexivity; auto.

Lemma Solve_invariant_step_main (st : state) :
  Solve_invariant st -> Solve_invariant (step_main st).
Proof.
  intros (Hov & Hin & Hlen & Hw & Hs).
  destruct st as [s m ws ov]. cbn [solver main workers overflow] in *. subst ov.
  fold (workers_ok m (threadPool s) ws) in Hw.
  unfold step_main. cbn [solver main workers overflow].
  destruct m as [i|c|i| | | | | |]; try discriminate.
  - (* Releasing *)
    destruct (nth_error (threadPool s) i) as [t|] eqn:Et.
    + destruct (proj1 (both_there (threadPool s) ws i Hlen) t Et) as [c Ec].
      pose proof (Hw i t c Et Ec) as Hi. cbn [started] in Hi. rewrite Nat.ltb_irrefl in Hi.
      repeat split; cbn [solver main workers overflow in_Solve]; try discriminate.
      * clear - Hi. crush_worker.
      * unfold update_pool. cbn. now rewrite length_update.
      * fold (workers_ok (Releasing (S i)) (threadPool (update_pool i (set_beginSignal true) s)) ws).
        unfold update_pool. cbn [threadPool set_threadPool].
        rewrite <- (update_id i ws).
        eapply workers_ok_update; [exact Hw | |].
        -- intros j Hj. cbn [started].
           destruct (Nat.ltb_spec j (S i)), (Nat.ltb_spec j i); auto; lia.
        -- intros t0 c0 _ _. cbn [started].
           rewrite Nat.ltb_irrefl. replace (i <? S i)%nat with true
             by (symmetry; apply Nat.ltb_lt; lia).
           clear. crush_worker.
    + repeat split; cbn [solver main workers overflow in_Solve]; try discriminate; auto.
      fold (workers_ok (MainRun AtLoop) (threadPool s) ws).
      eapply workers_ok_phase; [exact Hw|]. intros j Hj. cbn [started].
      apply nth_error_None in Et. symmetry. apply Nat.ltb_lt. lia.
  - (* MainRun *)
    assert (Hrun : forall c' s', threadPool s' = threadPool s ->
                     Solve_invariant (Build_state s' (MainRun c') ws false)).
    { intros c' s' Hp. repeat split; cbn [solver main workers overflow in_Solve];
        try discriminate; try congruence.
      rewrite Hp. exact Hw. }
    destruct c as [|node|node|pending|node pending|];
      try (pose proof (step_thread_threadPool c s) as Hp);
      try match goal with
          | |- context [step_thread ?c s] =>
              pose proof (step_thread_threadPool c s) as Hp;
              destruct (step_thread c s) as [c' s']; now apply Hrun
          end.
    repeat split; cbn [solver main workers overflow in_Solve]; try discriminate; auto.
  - (* Acquiring *)
    destruct (nth_error (threadPool s) i) as [t|] eqn:Et.
    + destruct (completeSignal t) eqn:Ect.
      * destruct (proj1 (both_there (threadPool s) ws i Hlen) t Et) as [c Ec].
        repeat split; cbn [solver main workers overflow in_Solve]; try discriminate.
        -- unfold update_pool. cbn. now rewrite length_update.
        -- fold (workers_ok (Acquiring (S i))
                   (threadPool (update_pool i (set_completeSignal false) s)) ws).
           unfold update_pool. cbn [threadPool set_threadPool].
           rewrite <- (update_id i ws).
           eapply workers_ok_update; [exact Hw | |].
           ++ intros j Hj. cbn [started].
              destruct (Nat.leb_spec (S i) j), (Nat.leb_spec i j); auto; lia.
           ++ intros t0 c0 Et0 _. rewrite Et in Et0. injection Et0 as <-. cbn [started].
              rewrite Nat.leb_refl. replace (S i <=? i)%nat with false
                by (symmetry; apply Nat.leb_gt; lia).
              clear - Ect. crush_worker.
      * repeat split; cbn [solver main workers overflow in_Solve]; try discriminate; auto.
    + repeat split; cbn [solver main workers overflow in_Solve]; try discriminate; auto.
      fold (workers_ok CleaningUp (threadPool s) ws).
      eapply workers_ok_phase; [exact Hw|]. intros j Hj. cbn [started].
      apply nth_error_None in Et. symmetry. apply Nat.leb_gt. lia.
  - (* CleaningUp *)
    repeat split; cbn [solver main workers overflow in_Solve]; try discriminate; auto.
  - (* Solved *)
    repeat split; cbn [solver main workers overflow in_Solve]; try discriminate; auto;
      now apply Hs.
Qed.

Lemma Solve_invariant_step_worker (j : nat) (st : state) :
  Solve_invariant st -> Solve_invariant (step_worker j st).
Proof.
  intros Hinv. pose proof Hinv as (Hov & Hin & Hlen & Hw & Hs).
  destruct st as [s m ws ov]. cbn [solver main workers overflow] in *. subst ov.
  fold (workers_ok m (threadPool s) ws) in Hw.
  unfold step_worker. cbn [solver main workers overflow].
  destruct (nth_error ws j) as [c|] eqn:Ec; [|exact Hinv].
  destruct (nth_error (threadPool s) j) as [t|] eqn:Et; [|exact Hinv].
  pose proof (Hw j t c Et Ec) as Hj.
  assert (Hsame : forall (f : WorkerThread -> WorkerThread) (s' : Solver) (c' : worker_control)
                         (ov' : bool),
             ov' = false ->
             threadPool s' = update j f (threadPool s) ->
             (m = Solved -> discoveredNodes s' = [] /\ fringe s' = []) ->
             worker_ok (started m j) (f t) c' = true ->
             Solve_invariant (Build_state s' m (update j (fun _ => c') ws) ov')).
  { intros f s' c' ov' Hov' Hp Hs' Hok.
    unfold Solve_invariant. cbn [solver main workers overflow].
    split; [exact Hov'|]. split; [exact Hin|]. split; [|split; [|exact Hs']].
    - rewrite Hp, !length_update. exact Hlen.
    - fold (workers_ok m (threadPool s') (update j (fun _ => c') ws)). rewrite Hp.
      eapply workers_ok_update; [exact Hw | reflexivity |].
      intros t0 c0 Et0 _ _. rewrite Et in Et0. now injection Et0 as <-. }
  assert (Hid : threadPool s = update j (fun v => v) (threadPool s))
    by now rewrite update_id.
  assert (Hkeep : m = Solved -> discoveredNodes s = [] /\ fringe s = []) by exact Hs.
  destruct c as [| | |c0| |].
  - apply (Hsame (fun v => v)); [reflexivity | exact Hid | exact Hkeep |].
    clear - Hj. destruct (started m j); crush_worker.
  - destruct (beginSignal t) eqn:Eb; [|exact Hinv].
    apply (Hsame (set_beginSignal false)); [reflexivity | reflexivity | |].
    + intros ->. cbn [started] in Hj. clear - Hj Eb. crush_worker.
    + clear - Hj Eb. destruct (started m j); crush_worker.
  - apply (Hsame (fun v => v)); [reflexivity | exact Hid | exact Hkeep |].
    clear - Hj. destruct (started m j); crush_worker.
  - assert (Hns : m <> Solved).
    { intros ->. cbn [started] in Hj. clear - Hj. crush_worker. }
    assert (Hok : forall c', worker_ok (started m j) t (InRun c') = true).
    { intros c'. clear - Hj. destruct (started m j); crush_worker. }
    destruct c0 as [|node|node|pending|node pending|];
      try match goal with
          | |- context [step_thread ?c s] =>
              pose proof (step_thread_threadPool c s) as Hp;
              destruct (step_thread c s) as [c' s']; cbn [snd] in Hp;
              apply (Hsame (fun v => v));
              [reflexivity | congruence | easy | apply Hok]
          end.
    apply (Hsame (fun v => v)); [reflexivity | exact Hid | exact Hkeep |].
    clear - Hj. destruct (started m j); crush_worker.
  - apply (Hsame (set_completeSignal true)); [| reflexivity | |].
    + clear - Hj. destruct (started m j); crush_worker.
    + intros ->. cbn [started] in Hj. clear - Hj. crush_worker.
    + clear - Hj. destruct (started m j); crush_worker.
  - exact Hinv.
Qed.

Lemma Solve_invariant_run_schedule (schedule : list nat) (st : state) :
  Solve_invariant st -> Solve_invariant (run_schedule schedule st).
Proof.
  revert st. induction schedule as [|tid schedule IH]; intros st H; [exact H|].
  cbn [run_schedule fold_left]. apply IH. destruct tid as [|j]; cbn [step].
  - now apply Solve_invariant_step_main.
  - now apply Solve_invariant_step_worker.
Qed.

Lemma Solve_invariant_start (s : Solver) (ws : list worker_control) (w : list Polygon)
      (start g : Vector2) :
  at_rest s ws -> Solve_invariant (Solve_start s ws w start g).
Proof.
  intros (Hlen & Hidle & Hquiet).
  repeat split; cbn [Solve_start solver main workers overflow in_Solve]; try discriminate; auto.
  intros j t c Et Ec. cbn [started AStar.Solve_begin threadPool] in *.
  apply nth_error_In in Et, Ec. rewrite forallb_forall in Hidle, Hquiet.
  specialize (Hidle c Ec). specialize (Hquiet t Et).
  unfold worker_ok. cbn. rewrite Hidle, Hquiet.
  unfold quiet in Hquiet. apply andb_true_iff in Hquiet. now destruct Hquiet as [_ ->].
Qed.

Lemma workers_ok_at_rest (m : main_control) (s : Solver) (ws : list worker_control) :
  length ws = length (threadPool s) ->
  workers_ok m (threadPool s) ws ->
  (forall j, started m j = false) ->
  forallb idle ws = true /\ forallb quiet (threadPool s) = true.
Proof.
  intros Hlen Hw Hm. split; apply forallb_forall.
  - intros c Hc. apply In_nth_error in Hc. destruct Hc as [j Ec].
    destruct (proj2 (both_there (threadPool s) ws j Hlen) c Ec) as [t Et].
    specialize (Hw j t c Et Ec). rewrite Hm in Hw. clear - Hw. crush_worker.
  - intros t Ht. apply In_nth_error in Ht. destruct Ht as [j Et].
    destruct (proj1 (both_there (threadPool s) ws j Hlen) t Et) as [c Ec].
    specialize (Hw j t c Et Ec). rewrite Hm in Hw. clear - Hw. crush_worker.
Qed.

(** X17.  The handshake of [Solve] with the pool workers, in every
    interleaving of the calling thread and the workers, from a pool at
    rest (every worker alive and before or in [beginSignal.acquire()], all
    semaphores at 0): no semaphore is released while it holds 1; a worker
    is inside [Run] or about to release [completeSignal] only between the
    first release and the last acquire of the calling thread; and when the
    calling thread clears the discovered set and the fringe, and after
    [Solve] has returned, the pool is at rest again, so the next query
    finds it as this one did, and the discovered set and the fringe stay
    empty. *)
Theorem Solve_handshake_is_sound
        (schedule : list nat) (s : Solver) (ws : list worker_control)
        (w : list Polygon) (start g : Vector2) :
  at_rest s ws ->
  let st := run_schedule schedule (Solve_start s ws w start g) in
  overflow st = false
  /\ (forall j c, nth_error (workers st) j = Some c -> working c = true ->
                  started (main st) j = true)
  /\ (main st = CleaningUp \/ main st = Solved -> at_rest (solver st) (workers st))
  /\ (main st = Solved ->
      discoveredNodes (solver st) = [] /\ fringe (solver st) = []).
Proof.
  intros Hrest st.
  pose proof (Solve_invariant_run_schedule schedule (Solve_invariant_start w start g Hrest))
    as (Hov & Hin & Hlen & Hw & Hs).
  fold st in Hov, Hin, Hlen, Hw, Hs.
  split; [exact Hov|]. split; [|split; [|exact Hs]].
  - intros j c Ec Hc.
    destruct (proj2 (both_there (threadPool (solver st)) (workers st) j Hlen) c Ec) as [t Et].
    specialize (Hw j t c Et Ec). destruct (started (main st) j); [reflexivity|].
    clear - Hw Hc. crush_worker.
  - intros Hm. split; [exact Hlen|].
    apply (workers_ok_at_rest (m := main st)); auto.
    intros j. now destruct Hm as [-> | ->].
Qed.

Lemma removelast_update_last (A : Type) (f : A -> A) (l : list A) :
  removelast (update (length l - 1) f l) = removelast l.
Proof.
  induction l as [|v l IH]; [reflexivity|].
  destruct l as [|u l]; [reflexivity|].
  cbn [length] in *. replace (S (S (length l)) - 1)%nat with (S (S (length l) - 1)) by lia.
  cbn [update]. change (removelast (v :: u :: l)) with (v :: removelast (u :: l)).
  rewrite <- IH. cbn [update]. now destruct (length l - 0)%nat; destruct l.
Qed.

Lemma nth_error_removelast (A : Type) (l : list A) (j : nat) (v : A) :
  nth_error (removelast l) j = Some v ->
  nth_error l j = Some v /\ (j < length l - 1)%nat.
Proof.
  revert j. induction l as [|u l IH]; intros j; [destruct j; discriminate|].
  destruct l as [|u' l]; [destruct j; discriminate|].
  change (removelast (u :: u' :: l)) with (u :: removelast (u' :: l)).
  destruct j as [|j]; cbn [nth_error].
  - intros H. split; [exact H|]. cbn. lia.
  - intros H. destruct (IH j H) as [A1 A2]. split; [exact A1|]. cbn [length] in *. lia.
Qed.

Lemma removelast_shortens (A : Type) (l : list A) :
  length (removelast l) = (length l - 1)%nat.
Proof.
  induction l as [|u l IH]; [reflexivity|].
  destruct l as [|u' l]; [reflexivity|].
  change (removelast (u :: u' :: l)) with (u :: removelast (u' :: l)).
  cbn [length] in *. rewrite IH. lia.
Qed.

Lemma Remove_invariant_step_main (s0 : Solver) (st : state) :
  Remove_invariant s0 st -> Remove_invariant s0 (step_main st).
Proof.
  intros Hinv. pose proof Hinv as (Hov & Hlen & Hsame & Hm).
  destruct st as [s m ws ov]. cbn [solver main workers overflow] in *. subst ov.
  unfold step_main. cbn [solver main workers overflow].
  destruct m as [i|c|i| | | | | |]; try contradiction.
  - (* Stopping *)
    destruct Hm as (Hne & Hl0 & Hrl & Hw).
    assert (Hk : last_index s = last_index s0) by (unfold last_index; congruence).
    unfold Remove_invariant. cbn [solver main workers overflow].
    split; [reflexivity|]. split; [unfold update_pool; cbn; now rewrite length_update|].
    split; [exact Hsame|]. split; [exact Hne|].
    unfold update_pool. cbn [threadPool set_threadPool]. rewrite length_update.
    split; [exact Hl0|]. split.
    { unfold last_index. now rewrite removelast_update_last. }
    rewrite Hk. intros j t c.
    destruct (Nat.eqb_spec j (last_index s0)) as [-> | Hj].
    + rewrite nth_error_update_same. intros Et Ec.
      destruct (nth_error (threadPool s) (last_index s0)) as [t0|] eqn:Et0; [|discriminate].
      injection Et as <-. specialize (Hw _ _ _ Et0 Ec). rewrite Nat.eqb_refl in Hw.
      clear - Hw. crush_worker.
    + rewrite nth_error_update_other by congruence. intros Et Ec.
      specialize (Hw _ _ _ Et Ec). now rewrite (proj2 (Nat.eqb_neq _ _) Hj) in Hw.
  - (* Waking *)
    destruct Hm as (Hne & Hl0 & Hrl & Hw).
    assert (Hk : last_index s = last_index s0) by (unfold last_index; congruence).
    destruct (nth_error (threadPool s) (last_index s)) as [t|] eqn:Et; [|exact Hinv].
    destruct (proj1 (both_there (threadPool s) ws (last_index s) Hlen) t Et) as [c Ec].
    pose proof (Hw _ _ _ Et Ec) as Hlast. rewrite Hk, Nat.eqb_refl in Hlast.
    unfold Remove_invariant. cbn [solver main workers overflow].
    split; [clear - Hlast; crush_worker|].
    split; [unfold update_pool; cbn; now rewrite length_update|].
    split; [exact Hsame|]. split; [exact Hne|].
    unfold update_pool. cbn [threadPool set_threadPool]. rewrite length_update.
    split; [exact Hl0|]. split.
    { unfold last_index. now rewrite removelast_update_last. }
    rewrite Hk in *. intros j t' c'.
    destruct (Nat.eqb_spec j (last_index s0)) as [-> | Hj].
    + rewrite nth_error_update_same, Et. cbn. intros E Ec'. injection E as <-.
      rewrite Ec in Ec'. injection Ec' as <-. clear - Hlast. crush_worker.
    + rewrite nth_error_update_other by congruence. intros Et' Ec'.
      specialize (Hw _ _ _ Et' Ec'). now rewrite (proj2 (Nat.eqb_neq _ _) Hj) in Hw.
  - (* Joining *)
    destruct Hm as (Hne & Hl0 & Hrl & Hw).
    assert (Hk : last_index s = last_index s0) by (unfold last_index; congruence).
    destruct (nth_error ws (last_index s)) as [[| | | | |]|] eqn:Ec; try exact Hinv.
    unfold Remove_invariant. cbn [solver main workers overflow threadPool set_threadPool].
    split; [reflexivity|]. split; [rewrite !removelast_shortens; congruence|].
    split; [exact Hsame|]. split; [exact Hrl|].
    intros j t c Et Ec'.
    apply nth_error_removelast in Et, Ec'. destruct Et as [Et Hj], Ec' as [Ec' _].
    specialize (Hw _ _ _ Et Ec').
    replace (j =? last_index s0)%nat with false in Hw; [exact Hw|].
    symmetry. apply Nat.eqb_neq. unfold last_index. lia.
  - (* Removed *)
    exact Hinv.
Qed.

Lemma Remove_invariant_step_worker (s0 : Solver) (j : nat) (st : state) :
  Remove_invariant s0 st -> Remove_invariant s0 (step_worker j st).
Proof.
  intros Hinv. pose proof Hinv as (Hov & Hlen & Hsame & Hm).
  destruct st as [s m ws ov]. cbn [solver main workers overflow] in *. subst ov.
  unfold step_worker. cbn [solver main workers overflow].
  destruct (nth_error ws j) as [c|] eqn:Ec; [|exact Hinv].
  destruct (nth_error (threadPool s) j) as [t|] eqn:Et; [|exact Hinv].
  (* What the worker is allowed to become. *)
  assert (Hstep : forall (f : WorkerThread -> WorkerThread) (c' : worker_control),
             (f = (fun v => v) \/ (j = last_index s0 /\ m <> Removed)) ->
             (forall b, worker_ok false t c = true -> b = false ->
                        worker_ok b (f t) c' = true) ->
             (forall m', leaving m' t c = true -> leaving m' (f t) c' = true) ->
             Remove_invariant s0
               (Build_state (update_pool j f s) m (update j (fun _ => c') ws) false)).
  { intros f c' Hf Hfresh Hleave.
    unfold Remove_invariant. cbn [solver main workers overflow].
    unfold update_pool. cbn [threadPool set_threadPool]. rewrite !length_update.
    split; [reflexivity|]. split; [exact Hlen|]. split; [exact Hsame|].
    assert (Hall : forall (P : nat -> WorkerThread -> worker_control -> bool),
               (forall t' c0, nth_error (threadPool s) j = Some t' -> nth_error ws j = Some c0 ->
                              P j t' c0 = true -> P j (f t') c' = true) ->
               (forall i t' c0, nth_error (threadPool s) i = Some t' -> nth_error ws i = Some c0 ->
                                P i t' c0 = true) ->
               forall i t' c0, nth_error (update j f (threadPool s)) i = Some t' ->
                               nth_error (update j (fun _ => c') ws) i = Some c0 ->
                               P i t' c0 = true).
    { intros P Hj Hold i t' c0. destruct (Nat.eq_dec j i) as [<- | Hne].
      - rewrite !nth_error_update_same, Et, Ec. cbn. intros E1 E2.
        injection E1 as <-. injection E2 as <-.
        apply (Hj t c Et Ec). now apply Hold.
      - rewrite !nth_error_update_other by exact Hne. apply Hold. }
    destruct m as [i|c0|i| | | | | |]; try contradiction.
    1-3: destruct Hm as (Hne & Hl0 & Hrl & Hw);
      (split; [exact Hne|]); (split; [exact Hl0|]); split;
      [ destruct Hf as [-> | [-> _]];
        [now rewrite update_id
        | rewrite <- Hrl; unfold last_index; rewrite <- Hl0; apply removelast_update_last]
      | apply (Hall (fun i t' c0 => if (i =? last_index s0)%nat
                                    then leaving _ t' c0 else worker_ok false t' c0));
        [ intros t' c0 Et' Ec'; rewrite Et in Et'; injection Et' as <-;
          rewrite Ec in Ec'; injection Ec' as <-;
          destruct (j =? last_index s0)%nat; [apply Hleave | intros H; now apply Hfresh]
        | exact Hw ] ].
    destruct Hm as (Hp & Hw). destruct Hf as [-> | [_ Hf]]; [|congruence].
    split; [now rewrite update_id|].
    apply (Hall (fun i t' c0 => worker_ok false t' c0)); [|exact Hw].
    intros t' c0 Et' Ec'. rewrite Et in Et'. injection Et' as <-.
    rewrite Ec in Ec'. injection Ec' as <-. intros H. now apply Hfresh. }
  assert (Hpool : update_pool j (fun v => v) s = s).
  { unfold update_pool. rewrite update_id. now destruct s. }
  assert (Hcase : (worker_ok false t c = true /\ (m = Removed \/ j <> last_index s0))
                  \/ (leaving m t c = true /\ j = last_index s0 /\ m <> Removed)).
  { destruct m as [i|c0|i| | | | | |]; try contradiction.
    1-3: destruct Hm as (_ & _ & _ & Hw); specialize (Hw _ _ _ Et Ec);
      destruct (Nat.eqb_spec j (last_index s0)); [right | left]; repeat split; auto;
      discriminate.
    left. destruct Hm as (_ & Hw). split; [exact (Hw _ _ _ Et Ec) | now left]. }
  destruct c as [| | |c0| |].
  - rewrite <- Hpool at 1. apply Hstep; [now left | |].
    + intros b H ->. clear - H. crush_worker.
    + intros m' H. clear - H. destruct m'; crush_worker.
  - destruct (beginSignal t) eqn:Eb; [|exact Hinv].
    apply Hstep.
    + right. destruct Hcase as [[H _] | [_ H]]; [|exact H].
      clear - H Eb. crush_worker.
    + intros b H _. clear - H Eb. crush_worker.
    + intros m' H. clear - H Eb. destruct m'; crush_worker.
  - rewrite <- Hpool at 1. apply Hstep; [now left | |].
    + intros b H ->. clear - H. crush_worker.
    + intros m' H. clear - H. destruct m'; crush_worker.
  - exfalso. destruct Hcase as [[H _] | [H _]];
      [clear - H; crush_worker | clear - H; destruct m; crush_worker].
  - exfalso. destruct Hcase as [[H _] | [H _]];
      [clear - H; crush_worker | clear - H; destruct m; crush_worker].
  - exact Hinv.
Qed.

Lemma Remove_invariant_run_schedule (s0 : Solver) (schedule : list nat) (st : state) :
  Remove_invariant s0 st -> Remove_invariant s0 (run_schedule schedule st).
Proof.
  revert st. induction schedule as [|tid schedule IH]; intros st H; [exact H|].
  cbn [run_schedule fold_left]. apply IH. destruct tid as [|j]; cbn [step].
  - now apply Remove_invariant_step_main.
  - now apply Remove_invariant_step_worker.
Qed.

Lemma Remove_invariant_start (s : Solver) (ws : list worker_control) :
  at_rest s ws -> threadPool s <> [] -> Remove_invariant s (RemoveThread_start s ws).
Proof.
  intros (Hlen & Hidle & Hquiet) Hne.
  unfold Remove_invariant, RemoveThread_start. cbn [solver main workers overflow].
  split; [reflexivity|]. split; [exact Hlen|]. split; [now repeat split|].
  split; [exact Hne|]. split; [reflexivity|]. split; [reflexivity|].
  intros j t c Et Ec. apply nth_error_In in Et, Ec. rewrite forallb_forall in Hidle, Hquiet.
  specialize (Hidle c Ec). specialize (Hquiet t Et).
  unfold worker_ok. cbn [leaving]. rewrite Hidle, Hquiet.
  unfold quiet in Hquiet. apply andb_true_iff in Hquiet. destruct Hquiet as [_ ->].
  now destruct (j =? last_index s)%nat.
Qed.

(** X18.  The destructor that [RemoveThread] runs on the last worker of a
    pool at rest, in every interleaving of the calling thread and the
    workers: no semaphore is released while it holds 1; no worker enters
    [Run]; the search fields of the solver do not change; and when the
    worker has been joined, the solver is the one [RemoveThread] gives
    and the remaining pool is at rest. *)
Theorem RemoveThread_destructor_is_sound
        (schedule : list nat) (s : Solver) (ws : list worker_control) :
  at_rest s ws -> threadPool s <> [] ->
  let st := run_schedule schedule (RemoveThread_start s ws) in
  overflow st = false
  /\ (forall j c, nth_error (workers st) j = Some c ->
                  match c with InRun _ | AtRelease => False | _ => True end)
  /\ same_search (solver st) s
  /\ (main st = Removed ->
      solver st = AStar.RemoveThread s /\ at_rest (solver st) (workers st)).
Proof.
  intros Hrest Hne st.
  pose proof (Remove_invariant_run_schedule schedule (Remove_invariant_start Hrest Hne))
    as (Hov & Hlen & Hsame & Hm).
  fold st in Hov, Hlen, Hsame, Hm.
  split; [exact Hov|]. split; [|split; [exact Hsame|]].
  - intros j c Ec.
    destruct (proj2 (both_there (threadPool (solver st)) (workers st) j Hlen) c Ec) as [t Et].
    destruct (main st) as [i|c0|i| | | | | |]; try contradiction.
    1-3: destruct Hm as (_ & _ & _ & Hw); specialize (Hw _ _ _ Et Ec);
      destruct (j =? last_index s)%nat; clear - Hw; crush_worker.
    destruct Hm as (_ & Hw). specialize (Hw _ _ _ Et Ec). clear - Hw. crush_worker.
  - intros E. rewrite E in Hm. destruct Hm as (Hp & Hw). split.
    + unfold AStar.RemoveThread. destruct (threadPool s) as [|t0 pool] eqn:Es; [congruence|].
      rewrite <- Es in *. destruct Hsame as (A & B & C & D & F).
      destruct (solver st) as [p1 c1 w1 g1 d1 f1], s as [p0 c0 w0 g0 d0 f0].
      unfold set_threadPool. cbn in *. congruence.
    + split; [exact Hlen|].
      apply (workers_ok_at_rest (m := Removed)); auto.
Qed.

End Handshake.

Lemma Solve_handshake_is_sound_witness :
  let st := Workers.run_schedule Sessions.late_worker Sessions.one_worker_query in
  Workers.main st = Workers.Solved
  /\ Workers.overflow st = false
  /\ Workers.at_rest (Workers.solver st) (Workers.workers st)
  /\ AStar.discoveredNodes (Workers.solver st) = [] /\ AStar.fringe (Workers.solver st) = [].
Proof.
  assert (Hrest : Workers.at_rest Examples.solver1 [Workers.AtAcquire]) by now repeat split.
  pose proof (@Solve_handshake_is_sound Sessions.late_worker Examples.solver1 [Workers.AtAcquire] []
                (Examples.pt 0 0) (Examples.pt 3 4) Hrest) as H.
  cbv zeta in H. fold Sessions.one_worker_query in H. cbv zeta.
  assert (E : Workers.main (Workers.run_schedule Sessions.late_worker Sessions.one_worker_query) = Workers.Solved)
    by (vm_compute; reflexivity).
  destruct H as (A & _ & B & C). repeat split; auto; try (now apply B; right); now apply C.
Defined.

Lemma RemoveThread_destructor_is_sound_witness :
  let st := Workers.run_schedule Sessions.remove_the_worker
              (Workers.RemoveThread_start Examples.solver1 [Workers.AtAcquire]) in
  Workers.main st = Workers.Removed
  /\ Workers.overflow st = false
  /\ Workers.solver st = AStar.RemoveThread Examples.solver1
  /\ Workers.at_rest (Workers.solver st) (Workers.workers st).
Proof.
  assert (Hrest : Workers.at_rest Examples.solver1 [Workers.AtAcquire]) by now repeat split.
  assert (Hne : AStar.threadPool Examples.solver1 <> []) by discriminate.
  pose proof (@RemoveThread_destructor_is_sound Sessions.remove_the_worker Examples.solver1
                [Workers.AtAcquire] Hrest Hne) as H.
  cbv zeta in H. cbv zeta.
  assert (E : Workers.main (Workers.run_schedule Sessions.remove_the_worker
                (Workers.RemoveThread_start Examples.solver1 [Workers.AtAcquire]))
              = Workers.Removed) by (vm_compute; reflexivity).
  destruct H as (A & _ & _ & B). destruct (B E) as [C D]. auto.
Defined.

(* ===================================================================== *)
(** ** The application *)
(* ===================================================================== *)

Section Editor.

Import F32 Geometry AStar Shapes SpaceConversions Vectors App Events.
Local Open Scope f32_scope.

Variable find : Solver -> list Polygon -> Vector2 -> Vector2 -> option (Solver * LineSequence).

Lemma RotationalDirection_eqb_eq (d1 d2 : RotationalDirection) :
  RotationalDirection_eqb d1 d2 = true -> d1 = d2.
Proof. destruct d1, d2; cbn; congruence. Qed.

Lemma turns_app_tail (d : RotationalDirection) (l l2 : list Vector2) (def : Vector2) :
  (2 <= length l)%nat ->
  turns d l ->
  turns d (nth (length l - 2) l def :: last l def :: l2) ->
  turns d (l ++ l2).
Proof.
  induction l as [|u l IH]; [cbn; lia|].
  destruct l as [|v l]; [cbn; lia|].
  destruct l as [|w l].
  - intros _ _ H. exact H.
  - intros _ Hl H. cbn [length] in *.
    change ((u :: v :: w :: l) ++ l2) with (u :: v :: w :: (l ++ l2)).
    change (turns d (u :: v :: w :: l ++ l2))
      with (DirectionOfAngle u v w = d /\ turns d ((v :: w :: l) ++ l2)).
    destruct Hl as [Huvw Hl]. split; [exact Huvw|].
    apply IH; [cbn; lia | exact Hl |].
    change (last (u :: v :: w :: l) def) with (last (v :: w :: l) def) in H.
    cbn [length Nat.sub nth] in H |- *. now rewrite Nat.sub_0_r.
Qed.

Lemma hd_nth (l : list Vector2) (def : Vector2) : hd def l = nth 0 l def.
Proof. now destruct l. Qed.

Lemma firstn_2_app (l : list Vector2) (v def : Vector2) :
  (2 <= length l)%nat -> firstn 2 (l ++ [v]) = [nth 0 l def; nth 1 l def].
Proof. destruct l as [|a [|b l]]; cbn; try lia. reflexivity. Qed.

(** Appending a vertex that passed the three convexity tests. *)
Lemma turning_ring_push (d : RotationalDirection) (cs : list Vector2) (v : Vector2) :
  turning_ring d cs ->
  DirectionOfAngle (nth (length cs - 2) cs v) (last cs v) v = d ->
  DirectionOfAngle (last cs v) v (hd v cs) = d ->
  DirectionOfAngle v (hd v cs) (nth 1 cs v) = d ->
  turning_ring d (cs ++ [v]).
Proof.
  intros (Hlen & Hd & Ht & _) C1 C2 C3. unfold turning_ring.
  rewrite length_app. cbn [length]. split; [lia|]. split; [exact Hd|]. split.
  - apply (turns_app_tail d cs [v] v); [lia | exact Ht |]. cbn. auto.
  - intros _. rewrite (firstn_2_app cs v v) by lia. rewrite <- app_assoc.
    apply (turns_app_tail d cs ([v] ++ [nth 0 cs v; nth 1 cs v]) v); [lia | exact Ht |].
    rewrite hd_nth in C2, C3. cbn. auto.
Qed.

Lemma editor_invariant_frame (app app' : Application) :
  world app' = world app -> currentShape app' = currentShape app ->
  selectedIndex app' = selectedIndex app -> direction app' = direction app ->
  editor_invariant app -> editor_invariant app'.
Proof. unfold editor_invariant. intros -> -> -> ->. auto. Qed.

Lemma ValidNextVertex_convex (app : Application) (v : Vector2) :
  ValidNextVertex app v = true ->
  (3 <= length (currentShape app))%nat ->
  let cs := currentShape app in
  DirectionOfAngle (nth (length cs - 2) cs v) (last cs v) v = direction app
  /\ DirectionOfAngle (last cs v) v (hd v cs) = direction app
  /\ DirectionOfAngle v (hd v cs) (nth 1 cs v) = direction app.
Proof.
  unfold ValidNextVertex. intros H Hlen. cbv zeta in *.
  destruct (length (currentShape app) =? 0)%nat eqn:E0; [apply Nat.eqb_eq in E0; lia|].
  destruct (Intersect _ _); [discriminate|].
  match type of H with (if ?c then _ else _) = _ => destruct c; [discriminate|] end.
  replace (2 <? length (currentShape app))%nat with true in H
    by (symmetry; apply Nat.ltb_lt; lia).
  cbn [andb] in H.
  match type of H with (if ?c then _ else _) = _ => destruct c eqn:E; [discriminate|] end.
  apply orb_false_iff in E. destruct E as [E E3]. apply orb_false_iff in E.
  destruct E as [E1 E2]. apply negb_false_iff in E1, E2, E3.
  apply RotationalDirection_eqb_eq in E1, E2, E3. auto.
Qed.

Lemma find_and_head_frame (goal : Vector2) (app app' : Application) :
  find_and_head find goal app = Returns app' ->
  world app' = world app /\ currentShape app' = currentShape app
  /\ selectedIndex app' = selectedIndex app /\ direction app' = direction app.
Proof.
  unfold find_and_head.
  destruct (find (solver app) (world app) (planet app) goal) as [[s' found]|]; [|discriminate].
  destruct (ls_vertices found) as [|v0 [|v1 rest]]; try discriminate.
  intros H. injection H as <-. repeat split.
Qed.

Lemma editor_invariant_Update (mouse : Vector2i) (dt : float) (app : Application) :
  editor_invariant app -> editor_invariant (Update mouse dt app).
Proof.
  apply editor_invariant_frame; unfold Update; cbv zeta;
    destruct (ValidNextVertex app (ScreenToWorld mouse)); cbn;
    repeat match goal with
           | |- context [match ?l with _ => _ end] => destruct l; cbn
           | |- context [if ?c then _ else _] => destruct c; cbn
           end; reflexivity.
Qed.

Lemma Forall_erase_at (A : Type) (P : A -> Prop) (i : nat) (l : list A) :
  Forall P l -> Forall P (erase_at i l).
Proof.
  intros H. revert i. induction H as [|v l Hv Hl IH]; intros i.
  - destruct i; constructor.
  - destruct i as [|i]; [exact Hl|].
    change (erase_at (S i) (v :: l)) with (v :: erase_at i l). now constructor.
Qed.

Lemma editor_invariant_OnKeyPressed (key : KeyCode) (app app' : Application) :
  editor_invariant app ->
  OnKeyPressed find key app = Returns app' ->
  editor_invariant app'.
Proof.
  intros Hinv. pose proof Hinv as (Hw & Hs & Hc). destruct key; cbn [OnKeyPressed].
  - (* RETURN *)
    destruct (Nat.ltb_spec 2 (length (currentShape app))) as [Hlen|Hlen].
    + assert (Hafter : forall app1,
                 world app1 = world app ++ [mkPolygon (currentShape app)]
                 \/ world app1 = world app ->
                 currentShape app1 = [] -> selectedIndex app1 = selectedIndex app ->
                 editor_invariant (set_direction UNDEFINED app1)).
      { intros app1 Hw1 Hc1 Hs1. unfold editor_invariant. cbn.
        rewrite Hc1, Hs1. split; [|split].
        - destruct Hw1 as [-> | ->]; [|exact Hw]. apply Forall_app. split; [exact Hw|].
          constructor; [|constructor]. exists (direction app). apply Hc. lia.
        - intros i Hi. specialize (Hs i Hi).
          destruct Hw1 as [-> | ->]; [rewrite length_app; lia | exact Hs].
        - cbn. lia. }
      cbv zeta.
      destruct (negb (InPolygon _ _) && _).
      * destruct (negb _).
        -- destruct (find_and_head find _ _) as [app3| |] eqn:E; try discriminate.
           intros H. injection H as <-.
           destruct (find_and_head_frame _ _ E) as (A & B & C & D).
           apply Hafter; [left; now rewrite A | now rewrite B | now rewrite C].
        -- intros H. injection H as <-. apply Hafter; auto.
      * intros H. injection H as <-. apply Hafter; auto.
    + intros H. injection H as <-. unfold editor_invariant. cbn.
      split; [exact Hw|]. split; [exact Hs|]. lia.
  - (* ESCAPE *)
    intros H. injection H as <-. unfold editor_invariant. cbn.
    split; [exact Hw|]. split; [discriminate|lia].
  - (* DELETE *)
    destruct (selectedIndex app) as [i|]; [|intros H; injection H as <-; exact Hinv].
    destruct (i <? length (world app))%nat; [|discriminate].
    intros H. injection H as <-. unfold editor_invariant. cbn.
    split; [now apply Forall_erase_at|]. split; [discriminate|exact Hc].
  - intros H. injection H as <-. exact Hinv.
  - intros H. injection H as <-. exact Hinv.
  - intros H. injection H as <-. exact Hinv.
Qed.

Lemma editor_invariant_OnMouseClicked (button : Button) (mouse : Vector2i)
      (app app' : Application) :
  editor_invariant app ->
  OnMouseClicked find button mouse app = Returns app' ->
  editor_invariant app'.
Proof.
  intros Hinv. pose proof Hinv as (Hw & Hs & Hc). destruct button; cbn [OnMouseClicked]; cbv zeta.
  - (* LEFT *)
    destruct (InPolygon_world (world app) (ScreenToWorld mouse)) as [selected|] eqn:Es.
    + intros H. injection H as <-. unfold editor_invariant. cbn.
      split; [exact Hw|]. split; [|lia].
      intros i Hi. injection Hi as <-.
      destruct (InPolygon_world_Some _ _ Es) as (polygon & Hn & _).
      apply nth_error_Some. congruence.
    + set (v := ScreenToWorld mouse). set (app1 := set_selectedIndex None app).
      assert (H1 : editor_invariant app1).
      { unfold editor_invariant. cbn. split; [exact Hw|]. split; [discriminate|exact Hc]. }
      destruct (ValidNextVertex app1 v) eqn:Ev; [|intros H; injection H as <-; exact H1].
      destruct (Nat.eqb_spec (length (currentShape app1)) 2) as [E2|E2].
      * (* the third vertex *)
        cbn [direction set_direction].
        destruct (DirectionOfAngle (nth 0 (currentShape app1) v) (nth 1 (currentShape app1) v) v)
          eqn:Ed; intros H; injection H as <-; unfold editor_invariant; cbn;
          (split; [exact Hw|]); (split; [discriminate|]);
          try (intros Hl; cbn in E2; lia).
        -- intros _. cbn in E2, Ed.
           destruct (currentShape app) as [|c0 [|c1 [|c2 cs]]]; try discriminate.
           cbn in Ed. unfold turning_ring. cbn. repeat split; auto; lia.
        -- intros _. cbn in E2, Ed.
           destruct (currentShape app) as [|c0 [|c1 [|c2 cs]]]; try discriminate.
           cbn in Ed. unfold turning_ring. cbn. repeat split; auto; lia.
      * intros H. injection H as <-. unfold editor_invariant. cbn.
        split; [exact Hw|]. split; [discriminate|].
        rewrite length_app. cbn [length]. intros Hl.
        assert (Hlen : (3 <= length (currentShape app))%nat) by (cbn in E2; lia).
        destruct (ValidNextVertex_convex app1 v Ev Hlen) as (C1 & C2 & C3).
        cbn in C1, C2, C3. apply turning_ring_push; auto.
  - (* RIGHT *)
    destruct (InPolygon_world (world app) (ScreenToWorld mouse));
      [intros H; injection H as <-; exact Hinv|].
    intros E. destruct (find_and_head_frame _ _ E) as (A & B & C & D).
    exact (@editor_invariant_frame app app' A B C D Hinv).
Qed.

Lemma editor_invariant_run_events (events : list event) (app app' : Application) :
  editor_invariant app ->
  run_events find events app = Returns app' ->
  editor_invariant app'.
Proof.
  revert app. induction events as [|e events IH]; intros app Hinv.
  - intros H. injection H as <-. exact Hinv.
  - cbn [run_events]. destruct (handle find e app) as [app1| |] eqn:E; try discriminate.
    apply IH. destruct e as [mouse dt|key|button mouse]; cbn [handle] in E.
    + injection E as <-. now apply editor_invariant_Update.
    + exact (@editor_invariant_OnKeyPressed key app app1 Hinv E).
    + exact (@editor_invariant_OnMouseClicked button mouse app app1 Hinv E).
Qed.

Lemma editor_invariant_Application0 : editor_invariant Application0.
Proof.
  unfold editor_invariant. cbn. split; [constructor|]. split; [discriminate|lia].
Qed.

End Editor.

Section EditorTheorems.

Import F32 Geometry AStar Shapes SpaceConversions Vectors App Events.
Local Open Scope f32_scope.

(** X19.  Whatever [FindPath] returns, after every sequence of frames,
    key presses and mouse clicks that the application gets through, every
    polygon of the world has at least three vertices whose consecutive
    triples all turn the same way, CLOCKWISE or COUNTERCLOCKWISE, also
    across the closing edge when there are four vertices or more; the
    shape being drawn has the same property as soon as it has three
    vertices; and the selected index is an index of the world, so that
    DELETE never erases out of range. *)
Theorem editor_keeps_the_world_convex
        (find : Solver -> list Polygon -> Vector2 -> Vector2 -> option (Solver * LineSequence))
        (events : list event) (app : Application) :
  run_events find events Application0 = Returns app ->
  Forall (fun polygon => exists d, turning_ring d (vertices polygon)) (world app)
  /\ ((3 <= length (currentShape app))%nat ->
      turning_ring (direction app) (currentShape app))
  /\ (forall i, selectedIndex app = Some i -> (i < length (world app))%nat)
  /\ OnKeyPressed find DELETE app <> Undefined.
Proof.
  intros H.
  destruct (@editor_invariant_run_events find events Application0 app
              editor_invariant_Application0 H) as (Hw & Hs & Hc).
  split; [exact Hw|]. split; [exact Hc|]. split; [exact Hs|].
  cbn [OnKeyPressed]. destruct (selectedIndex app) as [i|]; [|intros F; discriminate F].
  specialize (Hs i eq_refl). apply Nat.ltb_lt in Hs. rewrite Hs. intros F. discriminate F.
Qed.

End EditorTheorems.

Lemma editor_keeps_the_world_convex_witness :
  exists app,
    Events.run_events (AStar.FindPath 50) Sessions.draw_a_triangle App.Application0
    = App.Returns app
    /\ length (App.world app) = 1%nat
    /\ App.selectedIndex app = Some 0%nat
    /\ Forall (fun polygon => exists d, App.turning_ring d (Geometry.vertices polygon))
              (App.world app)
    /\ App.OnKeyPressed (AStar.FindPath 50) App.DELETE app <> App.Undefined.
Proof.
  destruct (Events.run_events (AStar.FindPath 50) Sessions.draw_a_triangle App.Application0)
    as [app| |] eqn:E; try (vm_compute in E; discriminate).
  exists app.
  destruct (@editor_keeps_the_world_convex (AStar.FindPath 50) Sessions.draw_a_triangle app E)
    as (A & _ & _ & D).
  split; [reflexivity|].
  assert (L : length (App.world app) = 1%nat /\ App.selectedIndex app = Some 0%nat).
  { vm_compute in E. injection E as <-. split; reflexivity. }
  destruct L as [L1 L2]. auto.
Defined.

Section Travel.

Import F32 Geometry AStar Shapes SpaceConversions Vectors App Events.
Local Open Scope f32_scope.


End Travel.

Section OnTheSpot.

Import F32 Geometry AStar Spec Shapes SpaceConversions Vectors App Events Props.
Local Open Scope f32_scope.

Lemma eqb_finite_sub (u v : float) :
  eqb u v = true -> is_finite u = true -> exists s, sub v u = S754_zero s.
Proof.
  intros E F. apply eqb_true_iff in E. destruct E as (_ & N & K).
  destruct u as [su| | |su mu eu]; try discriminate F.
  - destruct v as [sv|sv| |sv mv ev];
      [| destruct sv; discriminate K | discriminate N | destruct sv; discriminate K].
    destruct su, sv; eexists; reflexivity.
  - destruct v as [sv|sv| |sv mv ev];
      [destruct su; discriminate K | destruct su, sv; discriminate K | discriminate N |].
    assert (su = sv /\ mu = mv /\ eu = ev) as (-> & -> & ->).
    { destruct su, sv; cbn in K; try discriminate K; injection K as K1 K2;
        repeat split; try lia; congruence. }
    exists false. unfold sub, SFsub. rewrite Z.min_id.
    now rewrite Z.sub_diag.
Qed.

Lemma Magnitude_of_zeros (s1 s2 : bool) :
  Magnitude (mkVector2 (S754_zero s1) (S754_zero s2)) = zero.
Proof. destruct s1, s2; reflexivity. Qed.

Lemma compare_refl (u : float) : is_nan u = false -> SFcompare u u = Some Eq.
Proof.
  intros N. rewrite SFcompare_key, N. cbn. f_equal. now apply lex_Eq.
Qed.

Lemma add_zero_geb (u : float) : is_nan u = false -> (u + zero >= u) = true.
Proof.
  intros N. unfold geb, SFleb.
  destruct u as [s| | |s m e]; try discriminate.
  - destruct s; reflexivity.
  - destruct s; reflexivity.
  - change (S754_finite s m e + zero) with (S754_finite s m e).
    now rewrite compare_refl.
Qed.

Lemma Magnitude_between_equal_points (p v : Vector2) :
  finite_point p = true -> Vector2_eqb p v = true ->
  Magnitude (Vector2_sub v p) = zero.
Proof.
  unfold finite_point, Vector2_eqb. intros F E.
  apply andb_true_iff in F, E. destruct F as [Fx Fy], E as [Ex Ey].
  destruct (eqb_finite_sub _ _ Ex Fx) as [s1 E1].
  destruct (eqb_finite_sub _ _ Ey Fy) as [s2 E2].
  unfold Vector2_sub. fold sub. rewrite E1, E2. apply Magnitude_of_zeros.
Qed.

(** A query whose goal equals the start, in a world without polygons. *)
Lemma FindPath_on_the_spot (fuel : nat) (s : Solver) (p v : Vector2) :
  finite_point p = true -> Vector2_eqb p v = true -> (2 <= fuel)%nat ->
  exists s', FindPath fuel s [] p v = Some (s', mkLineSequence [p]).
Proof.
  intros Fp E Hfuel. destruct fuel as [|[|k]]; try lia.
  set (node0 := mkNode p (mkLineSequence [])).
  set (n1 := mkNode v (AStar.path node0)).
  assert (Hdone : (pathLength n1 >= pathLength node0) = true).
  { unfold n1. rewrite pathLength_mkNode by discriminate.
    change (position node0) with p. rewrite (Magnitude_between_equal_points p v Fp E).
    apply add_zero_geb. apply pathLength_is_a_number. cbn. now rewrite Fp. }
  unfold FindPath, Solve.
  set (s0 := Solve_begin s [] p v).
  assert (R : exists s1, Run (S (S k)) s0 = Some s1 /\ completePath s1 = Some node0).
  { cbn [Run]. change (AqcuireNextNodeInFringe s0) with (Some node0, set_fringe [] s0).
    cbv iota. change (done node0 (set_fringe [] s0)) with false. cbv iota.
    rewrite Run_body_unfold.
    change (successors (AStar.world (set_fringe [] s0)) (goal (set_fringe [] s0)) node0)
      with [n1].
    assert (C : complete_if_goal node0 (set_fringe [] s0)
                = set_completePath (Some node0) (set_fringe [] s0)).
    { unfold complete_if_goal. change (position node0) with p.
      change (goal (set_fringe [] s0)) with v. now rewrite E. }
    rewrite C. cbn [Discover_all fold_left].
    set (s2 := Discover n1 (set_completePath (Some node0) (set_fringe [] s0))).
    assert (Hc : completePath s2 = Some node0).
    { unfold s2. now destruct (Discover_frame n1 (set_completePath (Some node0) (set_fringe [] s0)))
        as (_ & -> & _). }
    destruct (Discover_fringe n1 (set_completePath (Some node0) (set_fringe [] s0))) as [Hf | Hf];
      fold s2 in Hf; cbn in Hf; unfold AqcuireNextNodeInFringe; rewrite Hf; cbn [top_pop].
    - exists s2. auto.
    - exists (set_fringe [] s2). unfold done. cbn [completePath set_fringe].
      rewrite Hc, Hdone. auto. }
  destruct R as (s1 & -> & Hc). exists (Solve_end s1).
  unfold result, Solve_end. cbn. now rewrite Hc.
Qed.

(** X21.  A right click on the position of the planet, in a world without
    polygons and with an empty pool: [FindPath] returns the path of the
    single point where the planet is, and [OnMouseClicked] then reads
    [path.vertices[1]], beyond the end of that vector. *)
Theorem right_click_on_the_planet_reads_past_the_path
        (fuel : nat) (mouse : Vector2i) (app : Application) :
  world app = [] ->
  threadPool (solver app) = [] ->
  finite_point (planet app) = true ->
  Vector2_eqb (planet app) (ScreenToWorld mouse) = true ->
  (2 <= fuel)%nat ->
  (exists s', FindPath fuel (solver app) (world app) (planet app) (ScreenToWorld mouse)
              = Some (s', mkLineSequence [planet app]))
  /\ OnMouseClicked (FindPath fuel) RIGHT mouse app = Undefined.
Proof.
  intros Hw _ Fp E Hfuel.
  destruct (@FindPath_on_the_spot fuel (solver app) _ _ Fp E Hfuel) as [s' Hs'].
  rewrite Hw. split; [eauto|].
  cbn [OnMouseClicked]. cbv zeta. rewrite Hw. cbn [InPolygon_world].
  unfold find_and_head. rewrite Hw, Hs'. reflexivity.
Qed.

End OnTheSpot.

Lemma right_click_on_the_planet_reads_past_the_path_witness :
  (exists s', AStar.FindPath 2 AStar.solver0 [] (Geometry.mkVector2 F32.zero F32.zero)
                (SpaceConversions.ScreenToWorld (SpaceConversions.mkVector2i 360 240))
              = Some (s', Geometry.mkLineSequence [Geometry.mkVector2 F32.zero F32.zero]))
  /\ App.OnMouseClicked (AStar.FindPath 2) App.RIGHT (SpaceConversions.mkVector2i 360 240)
       App.Application0 = App.Undefined.
Proof.
  apply (@right_click_on_the_planet_reads_past_the_path 2 (SpaceConversions.mkVector2i 360 240)
           App.Application0); reflexivity.
Defined.

Section EmptyWorld.

Import F32 Geometry AStar Spec Props.
Local Open Scope f32_scope.

Lemma eqb_refl_finite (u : float) : is_finite u = true -> eqb u u = true.
Proof.
  intros F. apply eqb_true_iff. repeat split; now apply finite_not_nan.
Qed.

Lemma Vector2_eqb_refl (p : Vector2) : finite_point p = true -> Vector2_eqb p p = true.
Proof.
  unfold finite_point, Vector2_eqb. intros F. apply andb_true_iff in F. destruct F.
  now rewrite !eqb_refl_finite.
Qed.

(** The straight segment, in a world without polygons. *)
Lemma FindPath_straight (fuel : nat) (s : Solver) (p g : Vector2) :
  finite_point p = true -> finite_point g = true ->
  Vector2_eqb p g = false -> discoveredNodes s = [] -> (3 <= fuel)%nat ->
  exists s', FindPath fuel s [] p g = Some (s', mkLineSequence [p; g]).
Proof.
  intros Fp Fg E Hd Hfuel. destruct fuel as [|[|[|k]]]; try lia.
  set (node0 := mkNode p (mkLineSequence [])).
  set (n1 := mkNode g (path node0)).
  set (n2 := mkNode g (path n1)).
  assert (Hdone : (pathLength n2 >= pathLength n1) = true).
  { unfold n2. rewrite pathLength_mkNode by discriminate.
    change (position n1) with g.
    rewrite (Magnitude_between_equal_points g g Fg (Vector2_eqb_refl g Fg)).
    apply add_zero_geb. apply pathLength_is_a_number. cbn. now rewrite Fp, Fg. }
  unfold FindPath, Solve.
  set (s0 := Solve_begin s [] p g).
  assert (R : exists s1, Run (S (S (S k))) s0 = Some s1 /\ completePath s1 = Some n1).
  { cbn [Run]. change (AqcuireNextNodeInFringe s0) with (Some node0, set_fringe [] s0).
    cbv iota. change (done node0 (set_fringe [] s0)) with false. cbv iota.
    rewrite Run_body_unfold.
    change (successors (world (set_fringe [] s0)) (goal (set_fringe [] s0)) node0)
      with [n1].
    assert (C : complete_if_goal node0 (set_fringe [] s0) = set_fringe [] s0).
    { unfold complete_if_goal. change (position node0) with p.
      change (goal (set_fringe [] s0)) with g. now rewrite E. }
    rewrite C. cbn [Discover_all fold_left].
    assert (D1 : Discover n1 (set_fringe [] s0)
                 = fringe_push n1 (set_discoveredNodes [n1] (set_fringe [] s0))).
    { unfold Discover, Discover_set. cbn [discoveredNodes set_fringe s0 Solve_begin].
      rewrite Hd. reflexivity. }
    rewrite D1.
    set (s1 := fringe_push n1 (set_discoveredNodes [n1] (set_fringe [] s0))).
    change (AqcuireNextNodeInFringe s1) with (Some n1, set_fringe [] s1).
    cbv iota. change (done n1 (set_fringe [] s1)) with false. cbv iota.
    rewrite Run_body_unfold.
    change (successors (world (set_fringe [] s1)) (goal (set_fringe [] s1)) n1)
      with [n2].
    assert (C1 : complete_if_goal n1 (set_fringe [] s1)
                 = set_completePath (Some n1) (set_fringe [] s1)).
    { unfold complete_if_goal. change (position n1) with g.
      change (goal (set_fringe [] s1)) with g. now rewrite (Vector2_eqb_refl g Fg). }
    rewrite C1. cbn [Discover_all fold_left].
    set (s2 := Discover n2 (set_completePath (Some n1) (set_fringe [] s1))).
    assert (Hc : completePath s2 = Some n1).
    { unfold s2. now destruct (Discover_frame n2 (set_completePath (Some n1) (set_fringe [] s1)))
        as (_ & -> & _). }
    destruct (Discover_fringe n2 (set_completePath (Some n1) (set_fringe [] s1))) as [Hf | Hf];
      fold s2 in Hf; cbn in Hf; unfold AqcuireNextNodeInFringe; rewrite Hf; cbn [top_pop].
    - exists s2. auto.
    - exists (set_fringe [] s2). unfold done. cbn [completePath set_fringe].
      rewrite Hc, Hdone. auto. }
  destruct R as (s1 & -> & Hc). exists (Solve_end s1).
  unfold result, Solve_end. cbn. now rewrite Hc.
Qed.

(** X22.  In a world without polygons, for a start and a goal with finite
    coordinates and a solver as a query leaves it, [FindPath] returns
    within three iterations of the loop of [Run]: the single point of the
    start when the goal equals it, and otherwise the straight segment
    from the start to the goal. *)
Theorem FindPath_in_the_empty_world (fuel : nat) (s : Solver) (p g : Vector2) :
  finite_point p = true -> finite_point g = true ->
  discoveredNodes s = [] -> (3 <= fuel)%nat ->
  exists s',
    FindPath fuel s [] p g
    = Some (s', mkLineSequence (if Vector2_eqb p g then [p] else [p; g])).
Proof.
  intros Fp Fg Hd Hfuel. destruct (Vector2_eqb p g) eqn:E.
  - apply FindPath_on_the_spot; auto. lia.
  - now apply FindPath_straight.
Qed.

End EmptyWorld.

Lemma FindPath_in_the_empty_world_witness :
  exists s',
    AStar.FindPath 3 AStar.solver0 [] (Examples.pt 0 0) (Examples.pt 3 4)
    = Some (s', Geometry.mkLineSequence
                  (if Geometry.Vector2_eqb (Examples.pt 0 0) (Examples.pt 3 4)
                   then [Examples.pt 0 0] else [Examples.pt 0 0; Examples.pt 3 4])).
Proof. apply FindPath_in_the_empty_world; reflexivity. Defined.

(* ===================================================================== *)
(** ** The best path of a query, and the planet on its path *)
(* ===================================================================== *)

Section BestPath.

Import F32 Geometry AStar Spec.
Local Open Scope f32_scope.

Lemma completePath_stays (node : Node) (s : Solver) (c : Node) :
  completePath s = Some c -> exists c', completePath (Run_body node s) = Some c'.
Proof.
  intros H. rewrite Run_body_unfold.
  destruct (Discover_all_frame (successors (world s) (goal s) node) (complete_if_goal node s))
    as (_ & -> & _).
  unfold complete_if_goal. destruct (Vector2_eqb (position node) (goal s)); cbn; eauto.
Qed.

Lemma best_path_iteration (k : nat) (s : Solver) (c : Node) :
  completePath (Run_iterations k s) = Some c ->
  exists c',
    completePath (Run_iterations (S k) s) = Some c'
    /\ (c' = c
        \/ (Vector2_eqb (position c') (goal s) = true
            /\ (pathLength c' >= pathLength c) = false)).
Proof.
  revert s. induction k as [|k IH]; intros s.
  - cbn [Run_iterations]. intros H. unfold AqcuireNextNodeInFringe.
    destruct (top_pop (fringe_comp (goal s)) (fringe s)) as [[node rest]|]; [|eauto].
    destruct (done node (set_fringe rest s)) eqn:Ed; [eauto|].
    destruct (@completePath_stays node (set_fringe rest s) c H) as [c' Hc'].
    exists c'. split; [exact Hc'|].
    destruct (@complete_path_alone node (set_fringe rest s) c c' Ed H Hc') as [-> | (-> & A & B)];
      auto.
  - change (Run_iterations (S (S k)) s)
      with (match AqcuireNextNodeInFringe s with
            | (None, s1) => s1
            | (Some node, s1) =>
                if done node s1 then s1 else Run_iterations (S k) (Run_body node s1)
            end).
    cbn [Run_iterations]. unfold AqcuireNextNodeInFringe.
    destruct (top_pop (fringe_comp (goal s)) (fringe s)) as [[node rest]|]; [|eauto].
    destruct (done node (set_fringe rest s)) eqn:Ed; [eauto|].
    intros H. destruct (IH _ H) as (c' & Hc' & Hor). exists c'. split; [exact Hc'|].
    destruct (Run_body_frame node (set_fringe rest s)) as (_ & _ & G).
    cbn in G. now rewrite G in Hor.
Qed.

(** X23.  With the calling thread alone, the best complete path is never
    lost and is only ever replaced by a node at the goal that the "Done?"
    test of the loop found not at least as long: from one iteration of the
    loop of [Run] to the next, a complete path stays or gives way to such
    a node. *)
Theorem complete_path_only_improves_alone (k : nat) (s : Solver) (c : Node) :
  completePath (Run_iterations k s) = Some c ->
  exists c',
    completePath (Run_iterations (S k) s) = Some c'
    /\ (c' = c
        \/ (Vector2_eqb (position c') (goal s) = true
            /\ (pathLength c' >= pathLength c) = false
            /\ (is_nan (pathLength c) = false -> is_nan (pathLength c') = false ->
                (pathLength c' < pathLength c) = true))).
Proof.
  intros H. destruct (best_path_iteration k s H) as (c' & Hc' & [-> | [A B]]).
  - exists c. auto.
  - exists c'. split; [exact Hc'|]. right. split; [exact A|]. split; [exact B|].
    intros N N'. unfold geb, SFleb in B. unfold ltb, SFltb.
    rewrite SFcompare_key in B |- *. rewrite N, N' in *. cbn [orb] in *.
    rewrite lex_antisym in B.
    destruct (lex (key (pathLength c')) (key (pathLength c))); cbn in B; congruence.
Qed.

End BestPath.

Lemma complete_path_only_improves_alone_witness :
  exists c',
    AStar.completePath
      (Spec.Run_iterations 4
         (AStar.Solve_begin AStar.solver0 [Examples.kite] Examples.kite_start
                            Examples.kite_goal))
    = Some c'
    /\ (c' = Examples.over_the_top
        \/ (Geometry.Vector2_eqb (AStar.position c') Examples.kite_goal = true
            /\ F32.geb (AStar.pathLength c') (AStar.pathLength Examples.over_the_top) = false
            /\ (F32.is_nan (AStar.pathLength Examples.over_the_top) = false ->
                F32.is_nan (AStar.pathLength c') = false ->
                F32.ltb (AStar.pathLength c') (AStar.pathLength Examples.over_the_top)
                = true))).
Proof.
  refine (@complete_path_only_improves_alone 3
            (AStar.Solve_begin AStar.solver0 [Examples.kite] Examples.kite_start
                               Examples.kite_goal)
            Examples.over_the_top _).
  vm_compute. reflexivity.
Defined.

Section Following.

Import F32 Geometry AStar Shapes SpaceConversions Vectors App Events Props.
Local Open Scope f32_scope.

Variable find : Solver -> list Polygon -> Vector2 -> Vector2 -> option (Solver * LineSequence).
Hypothesis find_starts : starts_at_start find.

Lemma planet_heads_path_same (app app' : Application) :
  planet app' = planet app -> path app' = path app ->
  planet_heads_path app -> planet_heads_path app'.
Proof. unfold planet_heads_path. intros -> ->. exact (fun H => H). Qed.

Lemma planet_heads_path_Update (mouse : Vector2i) (deltaTime : float) (app : Application) :
  planet_heads_path app -> planet_heads_path (Update mouse deltaTime app).
Proof.
  intros H. unfold Update. cbv zeta.
  set (app1 := if ValidNextVertex app (ScreenToWorld mouse)
               then set_lastKnownValidVertex (ScreenToWorld mouse) app else app).
  assert (H1 : planet_heads_path app1).
  { unfold app1. destruct (ValidNextVertex app (ScreenToWorld mouse)); exact H. }
  clearbody app1.
  destruct (ls_vertices (path app1)) as [|v0 [|v1 rest]] eqn:Ep; [exact H1 | exact H1 |].
  destruct (deltaTime * PLANET_SPEED >= Magnitude (Vector2_sub v1 v0)).
  - destruct rest as [|v2 rest']; [now left|]. right. cbn. eauto.
  - right. cbn. eauto.
Qed.

Lemma planet_heads_path_find_and_head (g : Vector2) (app app' : Application) :
  find_and_head find g app = Returns app' -> planet_heads_path app'.
Proof.
  unfold find_and_head.
  destruct (find (solver app) (world app) (planet app) g) as [[s' found]|] eqn:E;
    [|discriminate].
  destruct (ls_vertices found) as [|v0 [|v1 rest]] eqn:Ef; try discriminate.
  intros H. injection H as <-. right. cbn. rewrite Ef.
  destruct (find_starts E) as [F | [rest' F]]; rewrite Ef in F; [discriminate|].
  injection F as -> _. eauto.
Qed.

Lemma planet_heads_path_OnKeyPressed (key : KeyCode) (app app' : Application) :
  planet_heads_path app -> OnKeyPressed find key app = Returns app' ->
  planet_heads_path app'.
Proof.
  intros H. destruct key; cbn [OnKeyPressed].
  - cbv zeta.
    match goal with
    | |- match ?after with _ => _ end = _ -> _ =>
        assert (Hafter : forall app3, after = Returns app3 -> planet_heads_path app3);
        [|destruct after as [app3| |]; try discriminate;
          intros E; injection E as <-;
          exact (@planet_heads_path_same app3 _ eq_refl eq_refl (Hafter app3 eq_refl))]
    end.
    intros app3.
    destruct (2 <? length (currentShape app))%nat;
      [|intros E; injection E as <-; exact H].
    destruct (negb _ && _);
      [|intros E; injection E as <-; exact H].
    destruct (negb _).
    + apply planet_heads_path_find_and_head.
    + intros E. injection E as <-. exact H.
  - intros E. injection E as <-. exact H.
  - destruct (selectedIndex app) as [i|].
    + destruct (i <? length (world app))%nat; [|discriminate].
      intros E. injection E as <-. exact H.
    + intros E. injection E as <-. exact H.
  - intros E. injection E as <-. exact H.
  - intros E. injection E as <-. exact H.
  - intros E. injection E as <-. exact H.
Qed.

Lemma planet_heads_path_OnMouseClicked
      (button : Button) (mouse : Vector2i) (app app' : Application) :
  planet_heads_path app -> OnMouseClicked find button mouse app = Returns app' ->
  planet_heads_path app'.
Proof.
  intros H. destruct button; cbn [OnMouseClicked]; cbv zeta.
  - destruct (InPolygon_world (world app) (ScreenToWorld mouse)) as [selected|].
    + intros E. injection E as <-. exact H.
    + destruct (ValidNextVertex _ _); [|intros E; injection E as <-; exact H].
      destruct (length _ =? 2)%nat; [|intros E; injection E as <-; exact H].
      destruct (direction _); intros E; injection E as <-; exact H.
  - destruct (InPolygon_world (world app) (ScreenToWorld mouse)) as [selected|].
    + intros E. injection E as <-. exact H.
    + apply planet_heads_path_find_and_head.
Qed.

Lemma planet_heads_path_run_events (events : list event) (app app' : Application) :
  planet_heads_path app ->
  run_events find events app = Returns app' ->
  planet_heads_path app'.
Proof.
  revert app. induction events as [|e events IH]; intros app Hinv.
  - intros H. injection H as <-. exact Hinv.
  - cbn [run_events]. destruct (handle find e app) as [app1| |] eqn:E; try discriminate.
    apply IH. destruct e as [mouse dt|key|button mouse]; cbn [handle] in E.
    + injection E as <-. now apply planet_heads_path_Update.
    + exact (@planet_heads_path_OnKeyPressed key app app1 Hinv E).
    + exact (@planet_heads_path_OnMouseClicked button mouse app app1 Hinv E).
Qed.

End Following.

Section FollowingTheorems.

Import F32 Geometry AStar Spec Shapes SpaceConversions Vectors App Events Props.
Local Open Scope f32_scope.

Lemma FindPath_starts_at_start (fuel : nat) : starts_at_start (AStar.FindPath fuel).
Proof.
  intros s w start g s' r. unfold FindPath, Solve.
  destruct (Run fuel (AStar.Solve_begin s w start g)) as [s1|] eqn:E; [|discriminate].
  intros H. injection H as <- <-.
  apply Run_Run_iterations in E. subst s1.
  destruct (@grown_result w start g _
              (grown_Run_iterations fuel (grown_Solve_begin s w start g)))
    as [F | (rest & F & _)]; eauto.
Qed.

Lemma result_starts_at_start (schedule : list nat) (s : Solver) (w : list Polygon)
      (start g : Vector2) :
  let r := Interleaving.FindPath_result
             (Interleaving.run_schedule schedule (Interleaving.Solve_begin s w start g)) in
  ls_vertices r = [] \/ exists rest, ls_vertices r = start :: rest.
Proof.
  cbv zeta.
  unfold Interleaving.FindPath_result.
  destruct (@grown_result w start g _
              (proj1 (grown_run_schedule schedule (grown_state_begin s w start g))))
    as [F | (rest & F & _)]; eauto.
Qed.

(** X24.  The planet is always at the head of its path.  Let [FindPath]
    be any function whose returned paths, when not empty, start at the
    starting position (which [AStar::FindPath] does, alone and with pool
    workers in every interleaving).  Then after every sequence of frames,
    key presses and mouse clicks that the application gets through, the
    path of the planet is empty, or it has two vertices or more and its
    first vertex is exactly the position of the planet. *)
Theorem planet_is_at_the_head_of_its_path
        (find : Solver -> list Polygon -> Vector2 -> Vector2 -> option (Solver * LineSequence))
        (events : list event) (app : Application) :
  (forall s w start g s' r,
      find s w start g = Some (s', r) ->
      ls_vertices r = [] \/ exists rest, ls_vertices r = start :: rest) ->
  run_events find events Application0 = Returns app ->
  ls_vertices (path app) = []
  \/ exists v rest, ls_vertices (path app) = planet app :: v :: rest.
Proof.
  intros Hfind H.
  apply (@planet_heads_path_run_events find Hfind events Application0 app); [|exact H].
  now left.
Qed.

End FollowingTheorems.

Lemma planet_is_at_the_head_of_its_path_witness :
  exists app,
    Events.run_events (AStar.FindPath 50) Sessions.click_and_move App.Application0
    = App.Returns app
    /\ length (Geometry.ls_vertices (App.path app)) = 2%nat
    /\ (Geometry.ls_vertices (App.path app) = []
        \/ exists v rest,
             Geometry.ls_vertices (App.path app) = App.planet app :: v :: rest).
Proof.
  eexists. split; [vm_compute; reflexivity|]. split; [reflexivity|].
  refine (@planet_is_at_the_head_of_its_path (AStar.FindPath 50) Sessions.click_and_move _
            (FindPath_starts_at_start 50) _).
  vm_compute. reflexivity.
Defined.
